(** * A-E media bot: extraction, dedup ledger, delivery and job control

  Shallow embedding of [main.py].  Pure helpers become functions on
  [string]; the coroutines that touch the network, the output channel,
  the dedup ledger or the cancellation flag become computations in a
  small state-and-trace monad whose exceptions mirror Python's
  ([asyncio.CancelledError] versus any other [Exception]).

  Strings are Rocq strings, read as sequences of code points below 256
  (Latin-1); case mapping and white space are Python's on that range. *)

From Stdlib Require Import Ascii String DecimalString.
From Stdlib.Strings Require Import Byte.
From stdpp Require Import gmap strings list.

(** ** Python [str] methods used by the program *)
Module Py.

(** [s.startswith(p)] *)
Definition startswith (s p : string) : bool := String.prefix p s.

(** [s.endswith(p)] *)
Definition endswith (s p : string) : bool :=
  String.prefix (String.rev p) (String.rev s).

(** [c.lower()] for one character: A..Z, and the capital letters
    192..222 of Latin-1 but the multiplication sign 215. *)
Definition lower_ascii (c : ascii) : ascii :=
  let n := nat_of_ascii c in
  if ((65 <=? n)%nat && (n <=? 90)%nat)
     || ((192 <=? n)%nat && (n <=? 222)%nat && negb (n =? 215)%nat)
  then ascii_of_nat (n + 32) else c.

(** [s.lower()] *)
Fixpoint lower (s : string) : string :=
  match s with
  | EmptyString => EmptyString
  | String c r => String (lower_ascii c) (lower r)
  end.

(** Characters removed by [str.strip()] and matched by [\s]:
    TAB, LF, VT, FF, CR, the separators 28..31, space, NEL (133) and the
    no-break space (160). *)
Definition isspace (c : ascii) : bool :=
  let n := nat_of_ascii c in
  ((9 <=? n)%nat && (n <=? 13)%nat) || ((28 <=? n)%nat && (n <=? 32)%nat)
  || (n =? 133)%nat || (n =? 160)%nat.

Fixpoint lstrip (s : string) : string :=
  match s with
  | EmptyString => EmptyString
  | String c r => if isspace c then lstrip r else s
  end.

(** [s.strip()] *)
Definition strip (s : string) : string :=
  String.rev (lstrip (String.rev (lstrip s))).

(** [p in s] for strings *)
Fixpoint contains (s p : string) : bool :=
  String.prefix p s ||
  match s with
  | EmptyString => false
  | String _ r => contains r p
  end.

(** Drop the first [n] characters. *)
Fixpoint skip (n : nat) (s : string) : string :=
  match n, s with
  | O, _ => s
  | S k, String _ r => skip k r
  | S _, EmptyString => EmptyString
  end.

(** [s.replace(old, new)] for a non-empty [old]: leftmost
    non-overlapping occurrences. The recursion is on [fuel], an upper
    bound on the number of characters left to scan. *)
Fixpoint replace_go (fuel : nat) (s old new : string) : string :=
  match fuel with
  | O => s
  | S f =>
      match s with
      | EmptyString => EmptyString
      | String c r =>
          if String.prefix old s
          then new +:+ replace_go f (skip (String.length old) s) old new
          else String c (replace_go f r old new)
      end
  end.

Definition replace (s old new : string) : string :=
  replace_go (String.length s) s old new.

(** [s[:n]] *)
Definition slice_to (n : nat) (s : string) : string := String.substring 0 n s.

(** [any(pred(x) for x in l)] *)
Definition any {A} (pred : A -> bool) (l : list A) : bool := existsb pred l.

(** [x in l] for a list of strings *)
Definition mem (x : string) (l : list string) : bool :=
  bool_decide (x ∈ l).

(** [str(n)] for a non-negative integer *)
Definition str_of_nat (n : nat) : string :=
  NilZero.string_of_uint (Nat.to_uint n).

End Py.

(** ** Regular expressions ([re])

    The patterns of the program are kept as data and run by a
    backtracking matcher with Python's priorities: alternatives left to
    right, greedy repetition longest first, lazy repetition shortest
    first, [search] at the leftmost position that matches.  Only group 1
    is captured, as the program reads nothing else. *)
Module Re.

Inductive cclass :=
| CChar (c : ascii)                          (* a literal character *)
| CSpace                                     (* \s *)
| CAny                                       (* . (no newline) *)
| CSet (negated : bool) (space : bool) (chars : list ascii).
    (* [...] and [^...]: the listed characters, and \s when [space] *)

Inductive regex :=
| Empty
| Chr (c : cclass)
| Seq (r1 r2 : regex)
| Alt (r1 r2 : regex)
| Star (r : regex)                           (* r*  greedy *)
| LazyStar (r : regex)                       (* r*? *)
| Group (r : regex)                          (* capturing group 1 *)
| Eol.                                       (* $: the end, or a last newline *)

Definition Plus (r : regex) : regex := Seq r (Star r).          (* r+ *)
Definition LazyPlus (r : regex) : regex := Seq r (LazyStar r).  (* r+? *)
Definition Opt (r : regex) : regex := Alt r Empty.              (* r? *)

(** A literal string. *)
Fixpoint Lit (s : string) : regex :=
  match s with
  | EmptyString => Empty
  | String c EmptyString => Chr (CChar c)
  | String c r => Seq (Chr (CChar c)) (Lit r)
  end.

(** [r1 r2 ... rn] and [r1|r2|...|rn] *)
Definition seqs (rs : list regex) : regex := foldr Seq Empty rs.
Definition alts (rs : list regex) : regex :=
  match rs with
  | [] => Empty
  | r :: rs' => foldl Alt r rs'
  end.

Record pattern := {
  body : regex;
  anchored : bool;        (* the pattern starts with ^ *)
  ignorecase : bool       (* re.IGNORECASE *)
}.

Definition ceq (icase : bool) (c x : ascii) : bool :=
  if icase then bool_decide (Py.lower_ascii c = Py.lower_ascii x)
  else bool_decide (c = x).

Definition cmatch (icase : bool) (cc : cclass) (x : ascii) : bool :=
  match cc with
  | CChar c => ceq icase c x
  | CSpace => Py.isspace x
  | CAny => negb (bool_decide (x = "010"%char))
  | CSet neg sp cs =>
      xorb neg ((sp && Py.isspace x) || existsb (fun c => ceq icase c x) cs)
  end.

Definition orelse {A} (a b : option A) : option A :=
  match a with Some _ => a | None => b end.

(** Repetition of a match [once], which must consume something each
    time: as often as possible first when [greedy], as seldom as possible
    first otherwise; then continue with [k].  [fuel] bounds the number of
    repetitions, and the length of the input is enough. *)
Fixpoint repeat_go {R} (greedy : bool)
    (once : list ascii -> option (list ascii) ->
            (list ascii -> option (list ascii) -> option R) -> option R)
    (k : list ascii -> option (list ascii) -> option R)
    (fuel : nat) (s : list ascii) (cap : option (list ascii)) : option R :=
  match fuel with
  | O => k s cap
  | S f =>
      let more :=
        once s cap (fun s' cap' =>
          if (length s' <? length s)%nat then repeat_go greedy once k f s' cap' else None) in
      if greedy then orelse more (k s cap) else orelse (k s cap) more
  end.

(** [rmatch r s cap k]: match [r] at the front of [s], then continue with
    [k] on the rest; [cap] is the text of group 1 so far. *)
Fixpoint rmatch {R} (icase : bool) (r : regex) (s : list ascii)
    (cap : option (list ascii))
    (k : list ascii -> option (list ascii) -> option R) : option R :=
  match r with
  | Empty => k s cap
  | Chr cc =>
      match s with
      | x :: s' => if cmatch icase cc x then k s' cap else None
      | [] => None
      end
  | Seq r1 r2 =>
      rmatch icase r1 s cap (fun s' cap' => rmatch icase r2 s' cap' k)
  | Alt r1 r2 =>
      orelse (rmatch icase r1 s cap k) (rmatch icase r2 s cap k)
  | Star r1 => repeat_go true (rmatch icase r1) k (length s) s cap
  | LazyStar r1 => repeat_go false (rmatch icase r1) k (length s) s cap
  | Group r1 =>
      rmatch icase r1 s cap (fun s' _ =>
        k s' (Some (take (length s - length s') s)))
  | Eol =>
      match s with
      | [] => k s cap
      | [c] => if bool_decide (c = "010"%char) then k s cap else None
      | _ => None
      end
  end.

(** The match at the front of [s]: the text of group 1 and what follows
    the match. *)
Definition match_here (p : pattern) (s : list ascii)
    : option (option (list ascii) * list ascii) :=
  rmatch (ignorecase p) (body p) s None (fun s' cap => Some (cap, s')).

Fixpoint search_from (p : pattern) (s : list ascii)
    : option (option (list ascii) * list ascii) :=
  orelse (match_here p s)
    match s with
    | [] => None
    | _ :: s' => search_from p s'
    end.

Definition group1 (cap : option (list ascii)) : string :=
  match cap with
  | Some g => string_of_list_ascii g
  | None => ""
  end.

(** [m = re.search(p, s)], giving [m.group(1)] when there is a match and
    [None] when there is none. *)
Definition search (p : pattern) (s : string) : option string :=
  let l := list_ascii_of_string s in
  let m := if anchored p then match_here p l else search_from p l in
  match m with
  | Some (cap, _) => Some (group1 cap)
  | None => None
  end.

(** [re.findall(p, s)] for a pattern with one group: the text of group 1
    of the successive non-overlapping matches. *)
Fixpoint findall_go (fuel : nat) (p : pattern) (s : list ascii) : list string :=
  match fuel with
  | O => []
  | S f =>
      match match_here p s with
      | Some (cap, rest) =>
          group1 cap ::
          (if (length rest <? length s)%nat then findall_go f p rest
           else match s with
                | [] => []
                | _ :: s' => findall_go f p s'
                end)
      | None =>
          match s with
          | [] => []
          | _ :: s' => findall_go f p s'
          end
      end
  end.

Definition findall (p : pattern) (s : string) : list string :=
  let l := list_ascii_of_string s in
  findall_go (S (length l)) p l.

End Re.

(** ** Values handed to the output channel *)

(** [io.BytesIO]: the bytes and the read cursor. *)
Record BytesIO := { getvalue : list byte; tell : nat }.

(** [b.seek(0)] *)
Definition seek0 (b : BytesIO) : BytesIO :=
  {| getvalue := getvalue b; tell := 0 |}.

(** The [media] attribute of an [InputMediaPhoto]: the [BytesIO] it was
    built from, or something that is not a [BytesIO]. *)
Inductive media_val :=
| MBytes (b : BytesIO)
| MOther (s : string).

(** A keyword argument of a send call. *)
Inductive pyval :=
| VBytes (b : BytesIO)
| VStr (s : string)
| VInt (n : Z)
| VBool (b : bool)
| VMedia (items : list media_val).       (* a list of InputMediaPhoto *)

(** The keyword arguments of a send call, by name. *)
Abbreviation kwargs := (gmap string pyval).

Inductive send_method := send_media_group | send_video.

(** What one [await send_method(...)] does: it returns, or raises
    [RetryAfter] with its [retry_after] seconds, another [TelegramError],
    or an exception that is not a [TelegramError]. *)
Inductive send_outcome :=
| Sent
| RetryAfter (retry_after : nat)
| TelegramError
| OtherError (msg : string).

(** The channel's answer to one attempt, with the number of bytes it
    read from each binary payload before answering. *)
Record reply := { outcome : send_outcome; consumed : nat }.

(** ** Parsed pages *)

(** An element of a BeautifulSoup tree, in document order: its name, its
    attributes, and its [.string]. *)
Record Tag := {
  name : string;
  attrs : list (string * string);
  tag_string : option string
}.

(** ** The world outside the program *)

(** What a call of [urllib.parse] does: it returns, or raises a
    [ValueError] (on unmatched brackets in the host, say) with its text. *)
Inductive returns (A : Type) :=
| Returns (a : A)
| ValueError (msg : string).
Arguments Returns {A} a.
Arguments ValueError {A} msg.

(** The attributes of [urlparse(url)] that the program reads. *)
Record ParseResult := {
  url_scheme : string;
  url_netloc : string;
  url_path : string
}.

(** [urllib.parse] *)
Record UrlLib := {
  urljoin : string -> string -> returns string;
  urlparse : string -> returns ParseResult
}.

Record Env := {
  (** [async_client.get(url)], [raise_for_status()] and
      [BeautifulSoup(response.content, "html.parser")]; [None] when any
      of them raises *)
  get_soup : string -> option (list Tag);
  (** [async_client.get(embed_url, headers=...)] with the Referer,
      [raise_for_status()], [response.text] *)
  get_text : string -> string -> option string;
  (** [async_client.get(url, headers=...)], [raise_for_status()],
      [response.content] *)
  get_content : string -> string -> option (list byte);
  (** [requests.get(url, ...)], [raise_for_status()] and
      [BeautifulSoup(response.text, 'html.parser')] *)
  requests_get : string -> option (list Tag);
  (** PIL: open, convert to RGB, save as JPEG; [None] when it raises *)
  webp_to_jpeg : list byte -> option (list byte);
  (** the answer of the output channel to its n-th attempt *)
  channel : nat -> send_method -> kwargs -> reply;
  (** [cancellation_flags.get(chat_id)] at the n-th time the job reads it *)
  cancel_requested : nat -> bool;
  (** [int(time.time())] *)
  time_now : nat;
  (** [save_links_to_file(unique_links, temp_file)], by the text to
      write: [None] when it returns, [str(e)] when it raises *)
  save_error : string -> option string;
  (** [open(temp_file, 'rb')] and [bot.send_document(...)], by the text
      of the file and the number in the caption *)
  send_document_error : string -> nat -> option string;
  (** [os.remove(temp_file)] *)
  remove_error : option string;
  (** [status_msg.delete()] *)
  delete_error : option string;
  (** the configured destination of every send *)
  CHANNEL_ID : Z
}.

(** ** Observable steps of a job *)

(** The text shown in the status message. *)
Inductive status :=
| Processing (i n : nat) (url : string)   (* "Processing {i+1}/{n}: {url[:50]}..." *)
| ScrapingComplete                        (* "Scraping complete!" *)
| Canceled                                (* "Canceled." *)
| Error (msg : string)                    (* "Error: {str(e)[:100]}" *)
| NoVideoLinks.                           (* "No video links found." *)

Inductive event :=
| GetPage (url : string) (ok : bool)               (* page fetch of the media scraper *)
| GetEmbed (url referer : string) (ok : bool)      (* fetch of an embed page *)
| Download (url referer : string) (ok : bool)      (* download_media_as_bytes *)
| RequestsGet (url : string) (ok : bool)           (* page fetch of the link extractor *)
| Add (url : string)                               (* SENT_MEDIA_URLS.add(url) *)
| Send (m : send_method) (kw : kwargs) (r : send_outcome)
                                                   (* one await send_method(...) *)
| Sleep (secs : nat)                               (* asyncio.sleep *)
| Status (s : status)                              (* update_status_safe *)
| DeleteStatus                                     (* status_msg.delete() returned *)
| SendDocument (content : string) (found : nat).   (* bot.send_document of the links file
                                                      returned *)

(** Global state the coroutines read and write. *)
Record World := {
  SENT_MEDIA_URLS : gset string;
  polls : nat;      (* reads of the cancellation flag so far *)
  sends : nat       (* attempts on the output channel so far *)
}.

(** The world after one more read of the cancellation flag. *)
Definition polled (w : World) : World :=
  {| SENT_MEDIA_URLS := SENT_MEDIA_URLS w; polls := S (polls w); sends := sends w |}.

(** The world after [SENT_MEDIA_URLS.add(url)]. *)
Definition marked (url : string) (w : World) : World :=
  {| SENT_MEDIA_URLS := {[ url ]} ∪ SENT_MEDIA_URLS w; polls := polls w; sends := sends w |}.

(** The world after one more attempt on the output channel. *)
Definition attempted (w : World) : World :=
  {| SENT_MEDIA_URLS := SENT_MEDIA_URLS w; polls := polls w; sends := S (sends w) |}.

(** ** Computations *)

Inductive exn :=
| CancelledError                (* asyncio.CancelledError, not an Exception *)
| Exception (msg : string).

Inductive result (A : Type) :=
| Ok (a : A)
| Raise (e : exn).
Arguments Ok {A} a.
Arguments Raise {A} e.

(** A coroutine: from a world to its result, the new world and the steps
    it took, oldest first. *)
Definition M (A : Type) : Type := World -> result A * World * list event.

Definition ret {A} (a : A) : M A := fun w => (Ok a, w, []).

Definition bind {A B} (m : M A) (f : A -> M B) : M B :=
  fun w =>
    match m w with
    | (Ok a, w1, t1) =>
        match f a w1 with
        | (r, w2, t2) => (r, w2, t1 ++ t2)
        end
    | (Raise e, w1, t1) => (Raise e, w1, t1)
    end.

Notation "'do' x <- m ; k" := (bind m (fun x => k))
  (at level 10, x name, m at level 100, k at level 200).
Notation "'do_' m ; k" := (bind m (fun _ => k))
  (at level 10, m at level 100, k at level 200).

Definition raise {A} (e : exn) : M A := fun w => (Raise e, w, []).

Definition emit (e : event) : M unit := fun w => (Ok tt, w, [e]).

(** [try: m  except Exception as e: h e]; a [CancelledError] passes. *)
Definition try_except {A} (m : M A) (h : string -> M A) : M A :=
  fun w =>
    match m w with
    | (Raise (Exception msg), w1, t1) =>
        match h msg w1 with
        | (r, w2, t2) => (r, w2, t1 ++ t2)
        end
    | other => other
    end.

Definition run_result {A} (x : result A * World * list event) : result A := x.1.1.
Definition run_world {A} (x : result A * World * list event) : World := x.1.2.
Definition run_trace {A} (x : result A * World * list event) : list event := x.2.

(** [await asyncio.sleep(secs)] *)
Definition sleep (secs : nat) : M unit := emit (Sleep secs).

(** A step that the environment lets return, leaving [e], or makes raise
    an [Exception] with the given text. *)
Definition step (error : option string) (e : list event) : M unit :=
  fun w =>
    match error with
    | None => (Ok tt, w, e)
    | Some msg => (Raise (Exception msg), w, [])
    end.

(** A [for] loop whose body may raise: the state it reached, and
    whether it ran to its end. *)
Fixpoint for_each {A S} (body : S -> A -> S * bool) (s : S) (l : list A) : S * bool :=
  match l with
  | [] => (s, true)
  | x :: r =>
      let (s', ok) := body s x in
      if ok then for_each body s' r else (s', false)
  end.

(** ** Configuration *)

Definition IGNORED_MEDIA_PATTERNS : list string :=
  ["/avatars/"; "/styles/"; "/smilies/"; "/assets/";
   "cdninstagram.com"; "/addonflare/"; "/icons/"].

Definition LINK_PROCESSING_INTERVAL : nat := 10.

(** ** BeautifulSoup queries *)

(** [tag.get(key)] *)
Fixpoint assoc (key : string) (l : list (string * string)) : option string :=
  match l with
  | [] => None
  | (k, v) :: r => if bool_decide (k = key) then Some v else assoc key r
  end.

Definition tag_get (t : Tag) (key : string) : option string :=
  assoc key (attrs t).

(** Truth value of [tag.get(key)]: a non-empty string. *)
Definition nonempty (o : option string) : option string :=
  match o with
  | Some s => if bool_decide (s = "") then None else Some s
  | None => None
  end.

(** [soup.find_all(names)] *)
Definition find_all (names : list string) (soup : list Tag) : list Tag :=
  filter (fun t => name t ∈ names) soup.

(** The whitespace-separated values of a multi-valued attribute
    ([class], [rel]). *)
Fixpoint split_go (cur : string) (s : string) : list string :=
  match s with
  | EmptyString => if bool_decide (cur = "") then [] else [String.rev cur]
  | String c r =>
      if Py.isspace c
      then (if bool_decide (cur = "") then [] else [String.rev cur]) ++ split_go "" r
      else split_go (String c cur) r
  end.

Definition attr_values (t : Tag) (key : string) : list string :=
  match tag_get t key with
  | Some v => split_go "" v
  | None => []
  end.

Definition dquote : ascii := "034"%char.

(** [^\s*Next\s*$] with [re.IGNORECASE] *)
Definition next_text_pattern : Re.pattern :=
  {| Re.body := Re.seqs [Re.Star (Re.Chr Re.CSpace); Re.Lit "Next";
                         Re.Star (Re.Chr Re.CSpace); Re.Eol];
     Re.anchored := true; Re.ignorecase := true |}.

(** [soup.find("a", class_="pageNav-jump--next")] *)
Definition find_next_by_class (soup : list Tag) : option Tag :=
  head (filter (fun t => name t = "a" ∧ "pageNav-jump--next" ∈ attr_values t "class") soup).

(** [soup.find("a", rel="next")] *)
Definition find_next_by_rel (soup : list Tag) : option Tag :=
  head (filter (fun t => name t = "a" ∧ "next" ∈ attr_values t "rel") soup).

Definition string_matches (p : Re.pattern) (t : Tag) : bool :=
  match tag_string t with
  | Some s => bool_decide (is_Some (Re.search p s))
  | None => false
  end.

(** [soup.find("a", string=re.compile(...))] *)
Definition find_next_by_text (soup : list Tag) : option Tag :=
  head (filter (fun t => name t = "a" ∧ string_matches next_text_pattern t = true) soup).

(** [a or b] on results of [find] (a tag is always true) *)
Definition or_else {A} (a b : option A) : option A :=
  match a with Some _ => a | None => b end.

(** ** Embed resolver patterns *)

Definition not_dquote : Re.regex := Re.Chr (Re.CSet true false [dquote]).

(** The class of every character but white space, the two quotes, the
    angle brackets and the backquote. *)
Definition url_char : Re.regex :=
  Re.Chr (Re.CSet true true [dquote; "'"%char; "<"%char; ">"%char; "`"%char]).

Definition unanchored (r : Re.regex) : Re.pattern :=
  {| Re.body := r; Re.anchored := false; Re.ignorecase := false |}.

(** The four patterns, with \x22 written for the double quote:
    [file:\s*\x22([^\x22]+)\x22] *)
Definition pat_file : Re.pattern :=
  unanchored (Re.seqs [Re.Lit "file:"; Re.Star (Re.Chr Re.CSpace);
                       Re.Chr (Re.CChar dquote); Re.Group (Re.Plus not_dquote);
                       Re.Chr (Re.CChar dquote)]).

(** [<source\s+src=\x22([^\x22]+)\x22] *)
Definition pat_source : Re.pattern :=
  unanchored (Re.seqs [Re.Lit "<source"; Re.Plus (Re.Chr Re.CSpace); Re.Lit "src=";
                       Re.Chr (Re.CChar dquote); Re.Group (Re.Plus not_dquote);
                       Re.Chr (Re.CChar dquote)]).

(** [\x22fileURL\x22:\x22([^\x22]+)\x22] *)
Definition pat_fileURL : Re.pattern :=
  unanchored (Re.seqs [Re.Chr (Re.CChar dquote); Re.Lit "fileURL";
                       Re.Chr (Re.CChar dquote); Re.Lit ":";
                       Re.Chr (Re.CChar dquote); Re.Group (Re.Plus not_dquote);
                       Re.Chr (Re.CChar dquote)]).

(** Group 1 around the whole of [https?://C+?\.(?:mp4|m3u8|mkv|webm)C*],
    with C the class above. *)
Definition pat_bare : Re.pattern :=
  unanchored (Re.Group (Re.seqs
    [Re.Lit "http"; Re.Opt (Re.Chr (Re.CChar "s"%char)); Re.Lit "://";
     Re.LazyPlus url_char; Re.Chr (Re.CChar "."%char);
     Re.alts [Re.Lit "mp4"; Re.Lit "m3u8"; Re.Lit "mkv"; Re.Lit "webm"];
     Re.Star url_char])).

Definition embed_patterns : list Re.pattern :=
  [pat_file; pat_source; pat_fileURL; pat_bare].

(** The per-kind URL lists of a page. *)
Record MediaUrls := {
  images : list string;
  videos : list string;
  gifs : list string
}.

Definition no_media : MediaUrls := {| images := []; videos := []; gifs := [] |}.

(** [if u not in l: l.append(u)] *)
Definition append_new (u : string) (l : list string) : list string :=
  if Py.mem u l then l else l ++ [u].

(** ** Link extractor patterns (all with [re.IGNORECASE]) *)

Definition icase (r : Re.regex) : Re.pattern :=
  {| Re.body := r; Re.anchored := false; Re.ignorecase := true |}.

(** The class of every character but white space, the angle brackets and
    the double quote. *)
Definition link_char : Re.regex :=
  Re.Chr (Re.CSet true true ["<"%char; ">"%char; dquote]).

(** With \x22 written for the double quote:
    [htmlplayer\.setVideoUrl\(\x22([^\x22]+)\x22\)],
    [\x22video_url\x22:\x22([^\x22]+)\x22],
    [file:\s*\x22([^\x22]+)\x22], and
    [https?://L*\.(?:mp4|mpd)L*] with L the class above; the last has no
    group, so that findall gives the whole match: it is wrapped in the
    group here. *)
Definition script_patterns : list Re.pattern :=
  [ icase (Re.seqs [Re.Lit "htmlplayer.setVideoUrl("; Re.Chr (Re.CChar dquote);
                    Re.Group (Re.Plus not_dquote); Re.Chr (Re.CChar dquote);
                    Re.Lit ")"]);
    icase (Re.seqs [Re.Chr (Re.CChar dquote); Re.Lit "video_url";
                    Re.Chr (Re.CChar dquote); Re.Lit ":"; Re.Chr (Re.CChar dquote);
                    Re.Group (Re.Plus not_dquote); Re.Chr (Re.CChar dquote)]);
    icase (Re.seqs [Re.Lit "file:"; Re.Star (Re.Chr Re.CSpace);
                    Re.Chr (Re.CChar dquote); Re.Group (Re.Plus not_dquote);
                    Re.Chr (Re.CChar dquote)]);
    icase (Re.Group (Re.seqs
             [Re.Lit "http"; Re.Opt (Re.Chr (Re.CChar "s"%char)); Re.Lit "://";
              Re.Star link_char; Re.Chr (Re.CChar "."%char);
              Re.alts [Re.Lit "mp4"; Re.Lit "mpd"]; Re.Star link_char])) ].

(** The test on tag URLs, used for its truth value only: [\.(mp4|mpd)],
    then optionally [\?] and any characters, then [$]. *)
Definition video_ext_pattern : Re.pattern :=
  icase (Re.seqs [Re.Chr (Re.CChar "."%char); Re.alts [Re.Lit "mp4"; Re.Lit "mpd"];
                  Re.Opt (Re.Seq (Re.Chr (Re.CChar "?"%char)) (Re.Star (Re.Chr Re.CAny)));
                  Re.Eol]).

(** ** Python [dict] built from pairs, in insertion order *)

(** [d[k] = v]: a present key keeps its place and takes the new value. *)
Fixpoint dict_set (k v : string) (d : list (string * string)) : list (string * string) :=
  match d with
  | [] => [(k, v)]
  | (k', v') :: r =>
      if bool_decide (k' = k) then (k', v) :: r else (k', v') :: dict_set k v r
  end.

(** [list(dict(pairs).items())] *)
Definition dict_items (pairs : list (string * string)) : list (string * string) :=
  foldl (fun d kv => dict_set kv.1 kv.2 d) [] pairs.

(** [os.path.basename(path)]: what follows the last slash. *)
Fixpoint basename_go (cur : string) (s : string) : string :=
  match s with
  | EmptyString => String.rev cur
  | String c r =>
      if bool_decide (c = "/"%char) then basename_go "" r
      else basename_go (String c cur) r
  end.

Definition basename (path : string) : string := basename_go "" path.

Definition newline : string := String "010"%char "".

(** How a job ended; the source shows it as the last status text. *)
Inductive job_outcome :=
| Completed
| Cancelled
| Failed (msg : string).

(** ** The program *)

Section Program.

Context (U : UrlLib) (E : Env).

(** *** Primitive steps *)

(** [cancellation_flags.get(chat_id)] *)
Definition cancel_flag : M bool :=
  fun w => (Ok (cancel_requested E (polls w)), polled w, []).

(** [SENT_MEDIA_URLS.add(url)] *)
Definition ledger_add (url : string) : M unit :=
  fun w => (Ok tt, marked url w, [Add url]).

(** A call of [urllib.parse] outside any [try]: a [ValueError] is an
    [Exception]. *)
Definition call {A} (r : returns A) : M A :=
  match r with
  | Returns a => ret a
  | ValueError msg => raise (Exception msg)
  end.

(** The ledger as it is now, for [u not in SENT_MEDIA_URLS]. *)
Definition ledger : M (gset string) :=
  fun w => (Ok (SENT_MEDIA_URLS w), w, []).

(** The payload after the channel read [n] bytes of it. *)
Definition read_bytes (n : nat) (b : BytesIO) : BytesIO :=
  {| getvalue := getvalue b; tell := Nat.min (tell b + n) (length (getvalue b)) |}.

Definition read_media (n : nat) (m : media_val) : media_val :=
  match m with
  | MBytes b => MBytes (read_bytes n b)
  | MOther s => MOther s
  end.

Definition read_val (n : nat) (v : pyval) : pyval :=
  match v with
  | VBytes b => VBytes (read_bytes n b)
  | VMedia items => VMedia (read_media n <$> items)
  | other => other
  end.

(** [await send_method(...)]: the channel answers the attempt and leaves
    the binary payloads where it stopped reading. *)
Definition call_send (m : send_method) (kw : kwargs) : M (send_outcome * kwargs) :=
  fun w =>
    let r := channel E (sends w) m kw in
    (Ok (outcome r, read_val (consumed r) <$> kw), attempted w, [Send m kw (outcome r)]).

(** *** download_media_as_bytes *)
Definition download_media_as_bytes (url referer : string) : M (option BytesIO) :=
  match get_content E url referer with
  | Some content =>
      do_ emit (Download url referer true);
      ret (Some {| getvalue := content; tell := 0 |})
  | None =>
      do_ emit (Download url referer false);
      ret None
  end.

(** *** _send_with_retry *)

Definition seek_val (v : pyval) : pyval :=
  match v with
  | VBytes b => VBytes (seek0 b)
  | other => other
  end.

Definition seek_media (m : media_val) : media_val :=
  match m with
  | MBytes b => MBytes (seek0 b)
  | MOther s => MOther s
  end.

Definition seek_media_list (v : pyval) : pyval :=
  match v with
  | VMedia items => VMedia (seek_media <$> items)
  | other => other
  end.

(** The "Reset file pointers" block. *)
Definition reset_file_pointers (kw : kwargs) : kwargs :=
  alter seek_media_list "media"
    (foldl (fun kw key => alter seek_val key kw) kw ["video"; "animation"; "thumbnail"]).

(** The body of [for attempt in range(3)], over the attempts left. *)
Fixpoint send_attempts (attempts : list nat) (m : send_method) (kw : kwargs) : M unit :=
  match attempts with
  | [] => ret tt
  | attempt :: rest =>
      let kw := reset_file_pointers kw in
      do r <- call_send m kw;
      match r.1 with
      | Sent =>
          do_ sleep 2;
          ret tt
      | RetryAfter retry_after =>
          do_ sleep retry_after;
          send_attempts rest m r.2
      | TelegramError =>
          if bool_decide (attempt = 2) then ret tt
          else do_ sleep 5; send_attempts rest m r.2
      | OtherError msg => raise (Exception msg)
      end
  end.

Definition _send_with_retry (m : send_method) (kw : kwargs) : M unit :=
  send_attempts (seq 0 3) m kw.

(** *** send_images *)

Definition media_group_kwargs (media_group : list media_val) : kwargs :=
  <[ "media" := VMedia media_group ]> {[ "chat_id" := VInt (CHANNEL_ID E) ]}.

(** The [for url in urls] loop, from the batch gathered so far to the
    batch left when the list is exhausted. *)
Fixpoint send_images_loop (urls : list string) (referer : string)
    (media_group : list media_val) : M (list media_val) :=
  match urls with
  | [] => ret media_group
  | url :: rest =>
      do c <- cancel_flag;
      if c then raise CancelledError else
      do image_bytes <- download_media_as_bytes url referer;
      match image_bytes with
      | None => send_images_loop rest referer media_group
      | Some b =>
          do_ ledger_add url;
          let converted :=
            if Py.endswith (Py.lower url) ".webp" then
              match webp_to_jpeg E (getvalue b) with
              | Some jpeg => Some {| getvalue := jpeg; tell := 0 |}
              | None => None
              end
            else Some b in
          match converted with
          | None => send_images_loop rest referer media_group
          | Some image_bytes =>
              let media_group := media_group ++ [MBytes image_bytes] in
              if bool_decide (length media_group = 10) then
                do_ _send_with_retry send_media_group (media_group_kwargs media_group);
                send_images_loop rest referer []
              else send_images_loop rest referer media_group
          end
      end
  end.

Definition send_images (urls : list string) (referer : string) : M unit :=
  match urls with
  | [] => ret tt
  | _ =>
      do media_group <- send_images_loop urls referer [];
      match media_group with
      | [] => ret tt
      | _ => _send_with_retry send_media_group (media_group_kwargs media_group)
      end
  end.

(** *** send_videos *)

(** [os.path.basename(urlparse(url).path) or f"video_{int(time.time())}.mp4"] *)
Definition video_filename (url : string) : returns string :=
  match urlparse U url with
  | Returns parsed =>
      let b := basename (url_path parsed) in
      Returns (if bool_decide (b = "")
               then "video_" +:+ Py.str_of_nat (time_now E) +:+ ".mp4" else b)
  | ValueError msg => ValueError msg
  end.

Definition video_kwargs (video_bytes : BytesIO) (filename : string) : kwargs :=
  <[ "write_timeout" := VInt 60 ]>
    (<[ "supports_streaming" := VBool true ]>
       (<[ "filename" := VStr filename ]>
          (<[ "video" := VBytes video_bytes ]> {[ "chat_id" := VInt (CHANNEL_ID E) ]}))).

Fixpoint send_videos_loop (urls : list string) (referer : string) : M unit :=
  match urls with
  | [] => ret tt
  | url :: rest =>
      do c <- cancel_flag;
      if c then raise CancelledError else
      do video_bytes <- download_media_as_bytes url referer;
      match video_bytes with
      | None => send_videos_loop rest referer
      | Some b =>
          do_ ledger_add url;
          do filename <- call (video_filename url);
          do_ try_except
                (_send_with_retry send_video (video_kwargs b filename))
                (fun _ => ret tt);
          send_videos_loop rest referer
      end
  end.

Definition send_videos (urls : list string) (referer : string) : M unit :=
  send_videos_loop urls referer.

(** *** scrape_embedded_video *)

(** The [for pattern in patterns] loop up to the call of [urljoin]:
    group 1 of the first pattern that matches, stripped, with [\/]
    turned into [/]. *)
Fixpoint first_match (patterns : list Re.pattern) (text : string) : option string :=
  match patterns with
  | [] => None
  | pattern :: rest =>
      match Re.search pattern text with
      | Some g => Some (Py.replace (Py.strip g) "\/" "/")
      | None => first_match rest text
      end
  end.

Definition scrape_embedded_video (embed_url referer : string) : M (option string) :=
  match get_text E embed_url referer with
  | Some text =>
      do_ emit (GetEmbed embed_url referer true);
      match first_match embed_patterns text with
      | Some video_url =>
          match urljoin U embed_url video_url with
          | Returns absolute => ret (Some absolute)
          | ValueError _ => ret None
          end
      | None => ret None
      end
  | None =>
      do_ emit (GetEmbed embed_url referer false);
      ret None
  end.

(** *** extract_media_from_page *)

Definition image_exts : list string := [".jpg"; ".jpeg"; ".png"; ".webp"].
Definition video_exts : list string := [".mp4"; ".webm"; ".mov"].

(** The body of the attribute loop for one non-empty link: the lists
    after it, and [false] when [urljoin] or [urlparse] raised, which
    leaves the lists as they were. *)
Definition visit_link (url link : string) (m : MediaUrls) : MediaUrls * bool :=
  match urljoin U url link with
  | ValueError _ => (m, false)
  | Returns full_url =>
      if Py.any (fun p => Py.contains full_url p) IGNORED_MEDIA_PATTERNS then (m, true) else
      match urlparse U full_url with
      | ValueError _ => (m, false)
      | Returns parsed =>
          let path := Py.lower (url_path parsed) in
          if Py.any (fun ext => Py.endswith path ext) image_exts then
            ({| images := append_new full_url (images m); videos := videos m;
                gifs := gifs m |}, true)
          else if Py.endswith path ".gif" then
            ({| images := images m; videos := videos m;
                gifs := append_new full_url (gifs m) |}, true)
          else if Py.any (fun ext => Py.endswith path ext) video_exts then
            ({| images := images m; videos := append_new full_url (videos m);
                gifs := gifs m |}, true)
          else (m, true)
      end
  end.

Definition visit_tag (url : string) (m : MediaUrls) (tag : Tag) : MediaUrls * bool :=
  for_each (fun m attr =>
              match nonempty (tag_get tag attr) with
              | Some link => visit_link url link m
              | None => (m, true)
              end)
           m ["href"; "src"; "data-src"].

(** "Extract direct media links" *)
Definition scan_tags (url : string) (soup : list Tag) : MediaUrls * bool :=
  for_each (visit_tag url) no_media (find_all ["a"; "img"; "video"; "source"] soup).

(** "Extract from iframes"; [false] when [urljoin] raised. *)
Fixpoint scan_iframes (url : string) (iframes : list Tag) (m : MediaUrls)
    : M (MediaUrls * bool) :=
  match iframes with
  | [] => ret (m, true)
  | iframe :: rest =>
      match nonempty (tag_get iframe "src") with
      | None => scan_iframes url rest m
      | Some iframe_src =>
          match urljoin U url iframe_src with
          | ValueError _ => ret (m, false)
          | Returns embed_url =>
              do video_url <- scrape_embedded_video embed_url url;
              match nonempty video_url with
              | Some v =>
                  scan_iframes url rest
                    {| images := images m; videos := append_new v (videos m);
                       gifs := gifs m |}
              | None => scan_iframes url rest m
              end
          end
      end
  end.

(** "Find next page"; when [urljoin] raises, [next_page_url] keeps its
    [None]. *)
Definition find_next_page (url : string) (soup : list Tag) : option string :=
  match or_else (find_next_by_class soup)
          (or_else (find_next_by_rel soup) (find_next_by_text soup)) with
  | Some next_tag =>
      match nonempty (tag_get next_tag "href") with
      | Some href =>
          match urljoin U url href with
          | Returns next_page_url => Some next_page_url
          | ValueError _ => None
          end
      | None => None
      end
  | None => None
  end.

(** "Limit results" *)
Definition limit (m : MediaUrls) : MediaUrls :=
  {| images := take 50 (images m); videos := take 20 (videos m); gifs := take 10 (gifs m) |}.

(** The [try] block is left at the first exception, with the lists
    as they are then and without a next page. *)
Definition extract_media_from_page (url : string)
    : M (MediaUrls * option string * option string) :=
  match get_soup E url with
  | Some soup =>
      do_ emit (GetPage url true);
      let (m, ok) := scan_tags url soup in
      if ok then
        do r <- scan_iframes url (find_all ["iframe"] soup) m;
        ret (limit r.1, None, if r.2 then find_next_page url soup else None)
      else ret (limit m, None, None)
  | None =>
      do_ emit (GetPage url false);
      ret (limit no_media, None, None)
  end.

(** *** process_media_scraper *)

(** [if not url.startswith('http'): url = 'https://' + url] *)
Definition with_scheme (url : string) : string :=
  if Py.startswith url "http" then url else "https://" +:+ url.

(** [[u for u in urls_list if u not in SENT_MEDIA_URLS]] *)
Definition not_sent (sent : gset string) (urls_list : list string) : list string :=
  filter (fun u => u ∉ sent) urls_list.

(** The [for i, url in enumerate(urls)] loop; [n] is [len(urls)].
    Leaving by [break] and running off the end both return. *)
Fixpoint scraper_loop (n i : nat) (urls : list string) : M unit :=
  match urls with
  | [] => ret tt
  | url :: rest =>
      do c <- cancel_flag;
      if c then ret tt else
      let url := with_scheme url in
      do_ emit (Status (Processing (i + 1) n (Py.slice_to 50 url)));
      do r <- extract_media_from_page url;
      let media := r.1.1 in
      do sent <- ledger;
      let new_images := not_sent sent (images media) in
      let new_videos := not_sent sent (videos media) in
      do_ match new_images with
          | [] => ret tt
          | _ => send_images new_images url
          end;
      do_ match new_videos with
          | [] => ret tt
          | _ => send_videos new_videos url
          end;
      do_ (if bool_decide (i < n - 1) then sleep LINK_PROCESSING_INTERVAL else ret tt);
      scraper_loop n (S i) rest
  end.

(** The [except] clauses of a job: the status they show and how the job
    ended. *)
Definition job_except (body : M unit) : M job_outcome :=
  fun w =>
    match body w with
    | (Ok _, w1, t) => (Ok Completed, w1, t)
    | (Raise CancelledError, w1, t) => (Ok Cancelled, w1, t ++ [Status Canceled])
    | (Raise (Exception msg), w1, t) =>
        (Ok (Failed (Py.slice_to 100 msg)), w1,
         t ++ [Status (Error (Py.slice_to 100 msg))])
    end.

Definition process_media_scraper (urls : list string) : M job_outcome :=
  job_except
    (do_ scraper_loop (length urls) 0 urls;
     do_ emit (Status ScrapingComplete);
     do_ sleep 3;
     step (delete_error E) [DeleteStatus]).

(** *** Link extractor (mode 1) *)

Definition make_absolute_url (url base_url : string) : returns (option string) :=
  if bool_decide (url = "") then Returns None
  else if Py.startswith url "http://" || Py.startswith url "https://" then Returns (Some url)
  else if Py.startswith url "//" then Returns (Some ("https:" +:+ url))
  else if Py.startswith url "/" then
    match urlparse U base_url with
    | Returns base => Returns (Some (url_scheme base +:+ "://" +:+ url_netloc base +:+ url))
    | ValueError msg => ValueError msg
    end
  else
    match urljoin U base_url url with
    | Returns absolute_url => Returns (Some absolute_url)
    | ValueError msg => ValueError msg
    end.

(** A [for] loop whose body may raise, in a function that is left by
    the exception: [None] when it raised. *)
Fixpoint foldl_try {A B} (body : A -> B -> option A) (a : A) (l : list B) : option A :=
  match l with
  | [] => Some a
  | x :: r =>
      match body a x with
      | Some a' => foldl_try body a' r
      | None => None
      end
  end.

(** [absolute_url = make_absolute_url(url, base_url)
     if absolute_url and absolute_url not in [v[1] for v in video_links]:
       video_links.append((page_title, absolute_url))];
    [None] when [make_absolute_url] raises. *)
Definition add_link (page_title base_url : string)
    (video_links : list (string * string)) (url : string)
    : option (list (string * string)) :=
  match make_absolute_url url base_url with
  | Returns absolute_url =>
      match nonempty absolute_url with
      | Some absolute_url =>
          if Py.mem absolute_url (video_links.*2) then Some video_links
          else Some (video_links ++ [(page_title, absolute_url)])
      | None => Some video_links
      end
  | ValueError _ => None
  end.

(** "Search in scripts", for one script *)
Definition scan_script (page_title base_url : string)
    (video_links : list (string * string)) (script : Tag)
    : option (list (string * string)) :=
  match nonempty (tag_string script) with
  | Some s =>
      foldl_try
        (fun vl pattern => foldl_try (add_link page_title base_url) vl (Re.findall pattern s))
        video_links script_patterns
  | None => Some video_links
  end.

(** "Search in tags", for one tag *)
Definition scan_video_tag (page_title base_url : string)
    (video_links : list (string * string)) (tag : Tag)
    : option (list (string * string)) :=
  match nonempty (or_else (nonempty (tag_get tag "src")) (tag_get tag "href")) with
  | Some url =>
      if bool_decide (is_Some (Re.search video_ext_pattern url))
      then add_link page_title base_url video_links url
      else Some video_links
  | None => Some video_links
  end.

(** [None] when it raises: a title without a string, or a [ValueError]
    of [make_absolute_url]. *)
Definition extract_video_links_from_html (soup : list Tag) (base_url : string)
    : option (list (string * string)) :=
  let page_title :=
    match head (filter (fun t => name t = "title") soup) with
    | Some t => Py.strip <$> tag_string t
    | None => Some "Untitled"
    end in
  match page_title with
  | Some page_title =>
      match foldl_try (scan_script page_title base_url) [] (find_all ["script"] soup) with
      | Some from_scripts =>
          match foldl_try (scan_video_tag page_title base_url) from_scripts
                  (find_all ["video"; "source"; "a"; "iframe"] soup) with
          | Some video_links => Some (take 5 video_links)
          | None => None
          end
      | None => None
      end
  | None => None
  end.

Definition extract_video_links (url : string) : M (list (string * string)) :=
  match requests_get E url with
  | Some soup =>
      do_ emit (RequestsGet url true);
      ret (default [] (extract_video_links_from_html soup url))
  | None =>
      do_ emit (RequestsGet url false);
      ret []
  end.

(** The text written by [save_links_to_file]. *)
Definition links_file (links : list (string * string)) : string :=
  foldr (fun l acc => l.1 +:+ " - " +:+ l.2 +:+ newline +:+ acc) "" links.

(** The [for url in urls] loop of [process_video_links], from the links
    gathered so far. *)
Fixpoint links_loop (urls : list string) (all_links : list (string * string))
    : M (list (string * string)) :=
  match urls with
  | [] => ret all_links
  | url :: rest =>
      do c <- cancel_flag;
      if c then ret all_links else
      let url := with_scheme url in
      do links <- extract_video_links url;
      do_ sleep 1;
      links_loop rest (all_links ++ links)
  end.

(** What follows the loop inside the [try]. *)
Definition report_links (all_links : list (string * string)) : M unit :=
  match all_links with
  | [] => emit (Status NoVideoLinks)
  | _ =>
      (* Remove duplicates *)
      let unique_links := dict_items all_links in
      (* Save to file *)
      let content := links_file unique_links in
      do_ step (save_error E content) [];
      (* Send file *)
      do_ step (send_document_error E content (length unique_links))
               [SendDocument content (length unique_links)];
      step (remove_error E) []
  end.

(** The [finally] clause ends with [status_msg.delete()], whose
    exception leaves the coroutine. *)
Definition process_video_links (urls : list string) : M job_outcome :=
  do outcome <- job_except (do all_links <- links_loop urls []; report_links all_links);
  do_ step (delete_error E) [DeleteStatus];
  ret outcome.

End Program.

Arguments cancel_flag E : clear implicits.

(** ** A simple [urllib.parse] for running examples

    It agrees with the library on the URLs of the examples below:
    absolute [http] and [https] URLs, which [urljoin] returns as they
    are, and URLs with one square bracket in the host, on which both
    functions raise.  Nothing proved for every [UrlLib] depends on it. *)
Module SimpleUrl.

(** Split at the first character for which [stop] holds. *)
Fixpoint break_at (stop : ascii -> bool) (s : string) : string * string :=
  match s with
  | EmptyString => ("", "")
  | String c r =>
      if stop c then ("", s)
      else let (a, b) := break_at stop r in (String c a, b)
  end.

Definition is_one_of (cs : list ascii) (c : ascii) : bool :=
  bool_decide (c ∈ cs).

(** What follows [scheme://]. *)
Fixpoint after_scheme (s : string) : option string :=
  match s with
  | EmptyString => None
  | String c r =>
      if String.prefix "://" s then Some (Py.skip 3 s) else after_scheme r
  end.

Definition scheme (url : string) : string :=
  match after_scheme url with
  | Some rest => String.substring 0 (String.length url - String.length rest - 3) url
  | None => ""
  end.

Definition netloc (url : string) : string :=
  match after_scheme url with
  | Some rest => (break_at (is_one_of ["/"; "?"; "#"]%char) rest).1
  | None => ""
  end.

Definition path (url : string) : string :=
  match after_scheme url with
  | Some rest =>
      let after_netloc := (break_at (is_one_of ["/"; "?"; "#"]%char) rest).2 in
      (break_at (is_one_of ["?"; "#"]%char) after_netloc).1
  | None => (break_at (is_one_of ["?"; "#"]%char) url).1
  end.

(** One square bracket without the other in the host. *)
Definition unmatched_bracket (url : string) : bool :=
  xorb (Py.contains (netloc url) "[") (Py.contains (netloc url) "]").

Definition parse (url : string) : returns ParseResult :=
  if unmatched_bracket url then ValueError "Invalid IPv6 URL"
  else Returns {| url_scheme := scheme url; url_netloc := netloc url; url_path := path url |}.

Definition join (base link : string) : returns string :=
  if unmatched_bracket base || unmatched_bracket link then ValueError "Invalid IPv6 URL"
  else if Py.startswith link "http://" || Py.startswith link "https://" then Returns link
  else Returns (scheme base +:+ "://" +:+ netloc base +:+
                (if Py.startswith link "/" then link else "/" +:+ link)).

Definition lib : UrlLib := {| urljoin := join; urlparse := parse |}.

End SimpleUrl.

(** ** Utility functions *)

(** The characters of [escape_chars]. *)
Definition escape_chars : list ascii :=
  list_ascii_of_string "\_*[]()~`>#+-=|{}.!".

(** [re.sub] with a pattern that is one character class in a group and
    the replacement [\\\1]: every character of the class gets a backslash
    in front of it, the others are copied. *)
Fixpoint escape_markdown_v2 (text : string) : string :=
  match text with
  | EmptyString => EmptyString
  | String c r =>
      if bool_decide (c ∈ escape_chars)
      then String "\"%char (String c (escape_markdown_v2 r))
      else String c (escape_markdown_v2 r)
  end.

(** The class of [safe_filename]: colon, star, question mark, double
    quote, angle brackets, bar, slash and backslash. *)
Definition unsafe_filename_chars : list ascii :=
  [":"; "*"; "?"; dquote; "<"; ">"; "|"; "/"; "\"]%char.

(** [re.sub] of that class by an underscore. *)
Fixpoint safe_filename (name : string) : string :=
  match name with
  | EmptyString => EmptyString
  | String c r =>
      String (if bool_decide (c ∈ unsafe_filename_chars) then "_"%char else c)
             (safe_filename r)
  end.

(** [https?://L+|www\.L+] with L the class of [link_char]; the pattern
    has no group, so that findall gives the whole match: it is wrapped in
    the group here. *)
Definition url_pattern : Re.pattern :=
  unanchored (Re.Group (Re.Alt
    (Re.seqs [Re.Lit "http"; Re.Opt (Re.Chr (Re.CChar "s"%char)); Re.Lit "://";
              Re.Plus link_char])
    (Re.seqs [Re.Lit "www."; Re.Plus link_char]))).

Definition find_urls_in_text (text : string) : list string :=
  Re.findall url_pattern text.

(** ** Handlers *)

(** A [.txt] attachment: its MIME type and the lines that iterating over
    the downloaded file yields (the download is taken to succeed). *)
Record Document := {
  mime_type : string;
  file_lines : list string
}.

(** [update.message]: its text and its attachment, when it has them. *)
Record Message := {
  message_text : option string;
  message_document : option Document
}.

(** A coroutine handed to [create_task]. *)
Inductive job :=
| video_links_job (urls : list string)      (* process_video_links(update, context, urls) *)
| media_scraper_job (urls : list string).   (* process_media_scraper(update, context, urls) *)

(** The texts the handlers answer with. *)
Inductive reply_text :=
| ProcessRunning          (* "A process is running. Use /cancel first." *)
| SelectModeFirst         (* "Please select a mode first using /start" *)
| NoValidUrls             (* "No valid URLs found." *)
| ProcessingTxt           (* "Processing .txt file..." *)
| NoValidUrlsInFile       (* "No valid URLs in file." *)
| CancellationInitiated   (* "Cancellation initiated..." *)
| NoActiveProcess         (* "No active process." *)
| VideoLinksModeText      (* "Video Link Extractor Mode ..." *)
| MediaScraperModeText    (* "Media Scraper Mode ..." *)
| HelpText                (* "Help Guide ..." *)
| StartMenu.              (* the start menu *)

Inductive action :=
| Reply (r : reply_text)          (* reply_text or edit_message_text *)
| CreateTask (j : job).           (* context.application.create_task *)

(** The dicts of the "Global state" block, by chat id. *)
Record Session := {
  user_modes : gmap Z string;
  processing_tasks : gmap Z job;
  cancellation_flags : gmap Z bool
}.

Definition set_mode (chat_id : Z) (mode : string) (s : Session) : Session :=
  {| user_modes := <[ chat_id := mode ]> (user_modes s);
     processing_tasks := processing_tasks s;
     cancellation_flags := cancellation_flags s |}.

Definition set_task (chat_id : Z) (j : job) (s : Session) : Session :=
  {| user_modes := user_modes s;
     processing_tasks := <[ chat_id := j ]> (processing_tasks s);
     cancellation_flags := cancellation_flags s |}.

Definition set_flag (chat_id : Z) (s : Session) : Session :=
  {| user_modes := user_modes s;
     processing_tasks := processing_tasks s;
     cancellation_flags := <[ chat_id := true ]> (cancellation_flags s) |}.

(** The [finally] block of both jobs:
    [processing_tasks.pop(chat_id, None)] and
    [cancellation_flags.pop(chat_id, None)]. *)
Definition job_finally (chat_id : Z) (s : Session) : Session :=
  {| user_modes := user_modes s;
     processing_tasks := delete chat_id (processing_tasks s);
     cancellation_flags := delete chat_id (cancellation_flags s) |}.

(** [button_callback], by [query.data]. *)
Definition button_callback (chat_id : Z) (data : string) (s : Session)
    : Session * list action :=
  if bool_decide (data = "mode_video_links") then
    (set_mode chat_id "video_links" s, [Reply VideoLinksModeText])
  else if bool_decide (data = "mode_media_scraper") then
    (set_mode chat_id "media_scraper" s, [Reply MediaScraperModeText])
  else if bool_decide (data = "help") then (s, [Reply HelpText])
  else if bool_decide (data = "back") then (s, [Reply StartMenu])
  else (s, []).

Definition cancel_command (chat_id : Z) (s : Session) : Session * list action :=
  match processing_tasks s !! chat_id with
  | Some _ => (set_flag chat_id s, [Reply CancellationInitiated])
  | None => (s, [Reply NoActiveProcess])
  end.

(** The task for a mode: [if mode == "video_links": ... else: ...]. *)
Definition task_for (mode : string) (urls : list string) : job :=
  if bool_decide (mode = "video_links") then video_links_job urls
  else media_scraper_job urls.

(** [[line.strip() for line in f if line.strip().startswith('http')]] *)
Definition urls_of_lines (lines : list string) : list string :=
  Py.strip <$> filter (fun line => Py.startswith (Py.strip line) "http" = true) lines.

Definition message_handler (chat_id : Z) (msg : Message) (s : Session)
    : Session * list action :=
  match processing_tasks s !! chat_id with
  | Some _ => (s, [Reply ProcessRunning])
  | None =>
      match nonempty (user_modes s !! chat_id) with
      | None => (s, [Reply SelectModeFirst])
      | Some mode =>
          match nonempty (message_text msg) with
          | Some text =>
              let urls := find_urls_in_text text in
              match urls with
              | [] => (s, [Reply NoValidUrls])
              | _ =>
                  let task := task_for mode urls in
                  (set_task chat_id task s, [CreateTask task])
              end
          | None =>
              match message_document msg with
              | Some doc =>
                  if bool_decide (mime_type doc = "text/plain") then
                    let urls := urls_of_lines (file_lines doc) in
                    match urls with
                    | [] => (s, [Reply ProcessingTxt; Reply NoValidUrlsInFile])
                    | _ =>
                        let task := task_for mode urls in
                        (set_task chat_id task s, [Reply ProcessingTxt; CreateTask task])
                    end
                  else (s, [])
              | None => (s, [])
              end
          end
      end
  end.

(** * Specification

  What a run is observed to do (its trace and the world it leaves), the
  properties stated of it, and the environments of the examples. *)

(** ** Observations of a trace and invariants of runs *)

(** The URLs added to the ledger in a trace. *)
Definition adds (t : list event) : list string :=
  omap (fun e => match e with Add u => Some u | _ => None end) t.

(** The downloads of a trace: URL and whether it succeeded. *)
Definition downloads (t : list event) : list (string * bool) :=
  omap (fun e => match e with Download u _ ok => Some (u, ok) | _ => None end) t.

(** The pages fetched by the media scraper in a trace. *)
Definition pages_fetched (t : list event) : list string :=
  omap (fun e => match e with GetPage u _ => Some u | _ => None end) t.

(** A relation between the world before, the world after and the steps
    taken is compositional when it holds of doing nothing and of doing
    one thing after another. *)
Record compositional (R : World → World → list event → Prop) : Prop := {
  comp_nil : ∀ w, R w w [];
  comp_app : ∀ w1 w2 w3 t1 t2, R w1 w2 t1 → R w2 w3 t2 → R w1 w3 (t1 ++ t2)
}.

(** [m] keeps [R], whatever its result. *)
Definition keeps {A} (R : World → World → list event → Prop) (m : M A) : Prop :=
  ∀ w, R w (run_world (m w)) (run_trace (m w)).

(** Put the steps [t0] before those of a run. *)
Definition prepend {A} (t0 : list event) (x : result A * World * list event)
    : result A * World * list event :=
  (x.1.1, x.1.2, t0 ++ x.2).

(** ** The retry wrapper *)

Definition is_send (e : event) : option (send_method * kwargs * send_outcome) :=
  match e with
  | Send m kw o => Some (m, kw, o)
  | _ => None
  end.

(** The attempts on the channel recorded in a trace, oldest first. *)
Definition attempts_of (t : list event) : list (send_method * kwargs * send_outcome) :=
  omap is_send t.

(** Every binary payload the wrapper knows of has its cursor at 0. *)
Definition rewound (kw : kwargs) : Prop :=
  (∀ key b, key ∈ ["video"; "animation"; "thumbnail"] → kw !! key = Some (VBytes b) → tell b = 0)
  ∧ (∀ items b, kw !! "media" = Some (VMedia items) → MBytes b ∈ items → tell b = 0).

Definition bytes_of_val (v : pyval) : pyval :=
  match v with
  | VBytes b => VBytes (seek0 b)
  | VMedia items => VMedia (seek_media <$> items)
  | other => other
  end.

(** The arguments with every cursor forgotten: what is sent. *)
Definition payload (kw : kwargs) : kwargs := bytes_of_val <$> kw.

Definition same_world_but_sends (w w' : World) (n : nat) : Prop :=
  w' = {| SENT_MEDIA_URLS := SENT_MEDIA_URLS w; polls := polls w; sends := sends w + n |}.

(** ** Image delivery in batches *)

Definition media_content (m : media_val) : option (list byte) :=
  match m with
  | MBytes b => Some (getvalue b)
  | MOther _ => None
  end.

(** The photos of a grouped send, as the bytes of each. *)
Definition group_of (kw : kwargs) : list (list byte) :=
  match kw !! "media" with
  | Some (VMedia items) => omap media_content items
  | _ => []
  end.

(** The grouped-photo attempts of a trace, oldest first. *)
Definition sent_groups (t : list event) : list (list (list byte)) :=
  omap (fun e => match e with
                 | Send send_media_group kw _ => Some (group_of kw)
                 | _ => None
                 end) t.

(** The bytes [send_images] enqueues for a URL: what was downloaded,
    transcoded when the URL ends in .webp; nothing when the download or
    the transcoding fails. *)
Definition image_payload (E : Env) (referer url : string) : option (list byte) :=
  match get_content E url referer with
  | Some content =>
      if Py.endswith (Py.lower url) ".webp" then webp_to_jpeg E content
      else Some content
  | None => None
  end.

(** Consecutive groups of [n], the last one possibly shorter. *)
Fixpoint chunks_go {A} (fuel n : nat) (l : list A) : list (list A) :=
  match fuel, l with
  | O, _ => []
  | _, [] => []
  | S f, _ => take n l :: chunks_go f n (drop n l)
  end.

Definition chunks {A} (n : nat) (l : list A) : list (list A) :=
  chunks_go (length l) n l.

(** The channel raises nothing but Telegram errors. *)
Definition telegram_errors_only (E : Env) : Prop :=
  ∀ n m kw msg, outcome (channel E n m kw) ≠ OtherError msg.

(** The channel accepts every attempt. *)
Definition always_accepts (E : Env) : Prop :=
  ∀ n m kw, outcome (channel E n m kw) = Sent.

(** Nobody asks for cancellation. *)
Definition never_cancelled (E : Env) : Prop :=
  ∀ n, cancel_requested E n = false.

(** Whether the download of a URL succeeds. *)
Definition downloaded (E : Env) (referer url : string) : Prop :=
  is_Some (get_content E url referer).

(** ** Delivery and the ledger *)

(** Steps on the output channel: attempts and pauses. *)
Definition channel_step (e : event) : Prop :=
  match e with
  | Send _ _ _ | Sleep _ => True
  | _ => False
  end.

(** Every [Add u] comes right after the successful download of [u]. *)
Definition adds_follow_downloads (referer : string) (t : list event) : Prop :=
  ∀ i u, t !! i = Some (Add u) →
    ∃ j, i = S j ∧ t !! j = Some (Download u referer true).

(** What a delivery run does to the world: the ledger grows by the URLs
    added, and the counters only go up. *)
Definition ledger_grows (w w' : World) (t : list event) : Prop :=
  SENT_MEDIA_URLS w' = SENT_MEDIA_URLS w ∪ list_to_set (adds t)
  ∧ polls w ≤ polls w' ∧ sends w ≤ sends w'.

(** A step of the retry wrapper on method [m] and payload [p]: an attempt
    to send that payload with that method, or a pause. *)
Definition attempt_step (m : send_method) (p : kwargs) (e : event) : Prop :=
  match e with
  | Send m' kw' _ => m' = m ∧ payload kw' = p
  | Sleep _ => True
  | _ => False
  end.

(** ** What the extractor finds on a page *)

(** The kinds of media reference. *)
Inductive kind := Image | Gif | Video.

Global Instance kind_eq_dec : EqDecision kind.
Proof. solve_decision. Defined.

(** The kind of an absolute URL, by the extension of its path; none
    when [urlparse] raises. *)
Definition kind_of (U : UrlLib) (full_url : string) : option kind :=
  match urlparse U full_url with
  | Returns parsed =>
      let path := Py.lower (url_path parsed) in
      if Py.any (fun ext => Py.endswith path ext) image_exts then Some Image
      else if Py.endswith path ".gif" then Some Gif
      else if Py.any (fun ext => Py.endswith path ext) video_exts then Some Video
      else None
  | ValueError _ => None
  end.

(** An absolute URL that holds an ignored substring. *)
Definition is_ignored (full_url : string) : bool :=
  Py.any (fun p => Py.contains full_url p) IGNORED_MEDIA_PATTERNS.

(** The non-empty links of one tag, in the order of its attributes. *)
Definition tag_links (tag : Tag) : list string :=
  omap (fun attr => nonempty (tag_get tag attr)) ["href"; "src"; "data-src"].

(** The links of a page, in the order the scan meets them. *)
Definition page_links (soup : list Tag) : list string :=
  find_all ["a"; "img"; "video"; "source"] soup ≫= tag_links.

(** The scan gets past a link when joining it to the page URL raises
    nothing and the result is ignored or can be parsed. *)
Definition readable (U : UrlLib) (url link : string) : bool :=
  match urljoin U url link with
  | Returns full_url =>
      is_ignored full_url
      || match urlparse U full_url with Returns _ => true | ValueError _ => false end
  | ValueError _ => false
  end.

(** The longest prefix whose elements all pass the test. *)
Fixpoint take_while {A} (ok : A → bool) (l : list A) : list A :=
  match l with
  | [] => []
  | x :: r => if ok x then x :: take_while ok r else []
  end.

(** The links the scan gets past: those before the first one on which
    [urljoin] or [urlparse] raises. *)
Definition links_read (U : UrlLib) (url : string) (soup : list Tag) : list string :=
  take_while (readable U url) (page_links soup).

(** The scan of the tags ends without a [ValueError]. *)
Definition scan_completes (U : UrlLib) (url : string) (soup : list Tag) : bool :=
  forallb (readable U url) (page_links soup).

(** The absolute URL of a link, unless it holds an ignored substring. *)
Definition candidate (U : UrlLib) (url link : string) : option string :=
  match urljoin U url link with
  | Returns full_url => if is_ignored full_url then None else Some full_url
  | ValueError _ => None
  end.

(** The candidates of a page, in discovery order. *)
Definition page_candidates (U : UrlLib) (url : string) (soup : list Tag) : list string :=
  omap (candidate U url) (links_read U url soup).

Definition of_kind (U : UrlLib) (k : kind) (l : list string) : list string :=
  filter (fun u => kind_of U u = Some k) l.

(** What the embed resolver returns, as a function of the environment. *)
Definition resolve_embed (U : UrlLib) (E : Env) (embed_url referer : string) : option string :=
  match get_text E embed_url referer with
  | Some text =>
      match first_match embed_patterns text with
      | Some video_url =>
          match urljoin U embed_url video_url with
          | Returns absolute => Some absolute
          | ValueError _ => None
          end
      | None => None
      end
  | None => None
  end.

(** The non-empty [src] of the iframes of a page, in document order. *)
Definition iframe_srcs (soup : list Tag) : list string :=
  omap (fun iframe => nonempty (tag_get iframe "src")) (find_all ["iframe"] soup).

(** [urljoin(url, link)] when it returns. *)
Definition joined (U : UrlLib) (url link : string) : option string :=
  match urljoin U url link with
  | Returns full_url => Some full_url
  | ValueError _ => None
  end.

(** The embed pages the extractor asks for: none when the scan of the
    tags raised, and otherwise those of the iframes before the first
    one whose [src] cannot be joined to the page URL. *)
Definition embeds_read (U : UrlLib) (url : string) (soup : list Tag) : list string :=
  if scan_completes U url soup
  then omap (joined U url)
            (take_while (fun src => bool_decide (is_Some (joined U url src))) (iframe_srcs soup))
  else [].

(** The extractor reaches the search for the next page. *)
Definition iframes_complete (U : UrlLib) (url : string) (soup : list Tag) : bool :=
  scan_completes U url soup
  && forallb (fun src => bool_decide (is_Some (joined U url src))) (iframe_srcs soup).

(** The videos resolved from the iframes of a page, in document order. *)
Definition embed_videos (U : UrlLib) (E : Env) (url : string) (soup : list Tag) : list string :=
  omap (fun embed_url => nonempty (resolve_embed U E embed_url url)) (embeds_read U url soup).

(** The first occurrence of each element, in order. *)
Fixpoint uniq (l : list string) : list string :=
  match l with
  | [] => []
  | x :: r => x :: filter (fun y => y ≠ x) (uniq r)
  end.

(** The per-kind lists of a page before the caps. *)
Definition found_media (U : UrlLib) (E : Env) (url : string) : MediaUrls :=
  match get_soup E url with
  | Some soup =>
      let c := page_candidates U url soup in
      {| images := uniq (of_kind U Image c);
         videos := uniq (of_kind U Video c ++ embed_videos U E url soup);
         gifs := uniq (of_kind U Gif c) |}
  | None => no_media
  end.

(** The media of a page as the extractor returns them. *)
Definition page_media (U : UrlLib) (E : Env) (url : string) : MediaUrls :=
  limit (found_media U E url).

(** The next-page URL of a page as the extractor returns it: none
    unless the [try] block got as far as the search for it. *)
Definition page_next (U : UrlLib) (E : Env) (url : string) : option string :=
  match get_soup E url with
  | Some soup => if iframes_complete U url soup then find_next_page U url soup else None
  | None => None
  end.

(** The fetches the extractor makes for a page. *)
Definition embed_fetches (U : UrlLib) (E : Env) (url : string) (soup : list Tag) : list event :=
  (fun embed_url =>
     GetEmbed embed_url url (bool_decide (is_Some (get_text E embed_url url))))
  <$> embeds_read U url soup.

Definition page_fetches (U : UrlLib) (E : Env) (url : string) : list event :=
  match get_soup E url with
  | Some soup => GetPage url true :: embed_fetches U E url soup
  | None => [GetPage url false]
  end.

(** *** The scan of a page builds the per-kind lists *)

(** Add a candidate to the list of its kind. *)
Definition add_candidate (U : UrlLib) (m : MediaUrls) (full_url : string) : MediaUrls :=
  match kind_of U full_url with
  | Some Image =>
      {| images := append_new full_url (images m); videos := videos m; gifs := gifs m |}
  | Some Gif =>
      {| images := images m; videos := videos m; gifs := append_new full_url (gifs m) |}
  | Some Video =>
      {| images := images m; videos := append_new full_url (videos m); gifs := gifs m |}
  | None => m
  end.

(** What one link does to the lists when the scan gets past it. *)
Definition add_link_media (U : UrlLib) (url : string) (m : MediaUrls) (link : string)
    : MediaUrls :=
  match candidate U url link with
  | Some full_url => add_candidate U m full_url
  | None => m
  end.

(** ** What a pattern can match *)

(** [matches icase r m]: the characters [m] are a match of [r], read
    without regard to what comes before or after ([$] matches nothing
    here, whatever follows). *)
Inductive matches (icase : bool) : Re.regex → list ascii → Prop :=
| matches_Empty : matches icase Re.Empty []
| matches_Chr cc x : Re.cmatch icase cc x = true → matches icase (Re.Chr cc) [x]
| matches_Seq r1 r2 a b :
    matches icase r1 a → matches icase r2 b → matches icase (Re.Seq r1 r2) (a ++ b)
| matches_Alt_l r1 r2 a : matches icase r1 a → matches icase (Re.Alt r1 r2) a
| matches_Alt_r r1 r2 a : matches icase r2 a → matches icase (Re.Alt r1 r2) a
| matches_Star_nil r : matches icase (Re.Star r) []
| matches_Star_cons r a b :
    matches icase r a → matches icase (Re.Star r) b → matches icase (Re.Star r) (a ++ b)
| matches_LazyStar_nil r : matches icase (Re.LazyStar r) []
| matches_LazyStar_cons r a b :
    matches icase r a → matches icase (Re.LazyStar r) b →
    matches icase (Re.LazyStar r) (a ++ b)
| matches_Group r a : matches icase r a → matches icase (Re.Group r) a
| matches_Eol : matches icase Re.Eol [].

(** A pattern without a capturing group. *)
Fixpoint groupless (r : Re.regex) : bool :=
  match r with
  | Re.Group _ => false
  | Re.Seq r1 r2 | Re.Alt r1 r2 => groupless r1 && groupless r2
  | Re.Star r1 | Re.LazyStar r1 => groupless r1
  | _ => true
  end.

(** The characters of a class. *)
Definition in_class (cc : Re.cclass) (c : ascii) : Prop := Re.cmatch false cc c = true.

(** The code points of white space below 256: TAB to CR, the four
    separators, space, NEL and the no-break space. *)
Definition white_space : list nat := [9; 10; 11; 12; 13; 28; 29; 30; 31; 32; 133; 160].

(** What [link_char] matches: no white space, angle bracket or double
    quote. *)
Definition is_link_char (c : ascii) : Prop :=
  nat_of_ascii c ∉ white_space ∧ c ∉ ["<"; ">"; dquote]%char.

(** A text between double quotes. *)
Definition quoted (s : string) : string :=
  String dquote s +:+ String dquote "".

(** White space only. *)
Definition blank (s : string) : Prop :=
  Forall (fun c => Py.isspace c = true) (list_ascii_of_string s).

(** No white space at either end. *)
Definition trimmed (s : string) : Prop :=
  (∀ c r, s = String c r → Py.isspace c = false)
  ∧ (∀ r c, s = r +:+ String c "" → Py.isspace c = false).

(** No backslash followed by a slash. *)
Definition no_escaped_slash (s : string) : Prop :=
  ∀ a b, s ≠ a +:+ "\/" +:+ b.

(** What stands between the quotes of a pattern: at least one
    character, none of them a double quote. *)
Definition quoted_value (g : string) : Prop :=
  g ≠ "" ∧ dquote ∉ list_ascii_of_string g.

(** Characters of a bare URL: no white space, quote, angle bracket or
    backquote. *)
Definition url_text (s : string) : Prop :=
  Forall (fun c => Py.isspace c = false ∧ c ∉ [dquote; "'"; "<"; ">"; "`"]%char)
         (list_ascii_of_string s).

(** What it takes for the pattern at place [i] of the resolver's list
    to find [g] in [text]: [file:], white space or none, and [g] in
    quotes; [<source], white space, [src=] and [g] in quotes;
    ["fileURL":] and [g] in quotes; or [g] itself, an [http] or [https]
    URL with [.mp4], [.m3u8], [.mkv] or [.webm] in it. *)
Definition embed_match (i : nat) (text g : string) : Prop :=
  match i with
  | 0 => ∃ before ws after,
           text = before +:+ "file:" +:+ ws +:+ quoted g +:+ after
           ∧ blank ws ∧ quoted_value g
  | 1 => ∃ before ws after,
           text = before +:+ "<source" +:+ ws +:+ "src=" +:+ quoted g +:+ after
           ∧ blank ws ∧ ws ≠ "" ∧ quoted_value g
  | 2 => ∃ before after,
           text = before +:+ quoted "fileURL" +:+ ":" +:+ quoted g +:+ after
           ∧ quoted_value g
  | _ => ∃ before after scheme host ext tail,
           text = before +:+ g +:+ after
           ∧ g = scheme +:+ "://" +:+ host +:+ "." +:+ ext +:+ tail
           ∧ scheme ∈ ["http"; "https"] ∧ ext ∈ ["mp4"; "m3u8"; "mkv"; "webm"]
           ∧ host ≠ "" ∧ url_text host ∧ url_text tail
  end.

(** ** Delivery steps and the scraper job *)

(** The video of a single send, as its bytes. *)
Definition video_of (kw : kwargs) : option (list byte) :=
  match kw !! "video" with
  | Some (VBytes b) => Some (getvalue b)
  | _ => None
  end.

(** What a send carries was downloaded from [urls]: every photo of a
    group is the payload of one of them, a video is the content of one
    of them. *)
Definition sent_from (E : Env) (urls : list string) (referer : string)
    (m : send_method) (kw : kwargs) : Prop :=
  match m with
  | send_media_group =>
      ∀ bytes, bytes ∈ group_of kw →
        ∃ u, u ∈ urls ∧ image_payload E referer u = Some bytes
  | send_video =>
      ∃ u content, u ∈ urls ∧ get_content E u referer = Some content
                   ∧ video_of kw = Some content
  end.

(** The steps a delivery operation may take. *)
Definition delivery_step (E : Env) (urls : list string) (referer : string) (e : event) : Prop :=
  match e with
  | Download u r _ => u ∈ urls ∧ r = referer
  | Add u => u ∈ urls
  | Send m kw _ => sent_from E urls referer m kw
  | Sleep _ => True
  | _ => False
  end.

(** What holds of every run of a delivery operation on [urls]. *)
Definition delivery_run {A} (E : Env) (urls : list string) (referer : string) (w : World)
    (run : result A * World * list event) : Prop :=
  ledger_grows w (run_world run) (run_trace run)
  ∧ adds_follow_downloads referer (run_trace run)
  ∧ Forall (delivery_step E urls referer) (run_trace run).

(** The photos gathered so far are payloads of URLs of the list. *)
Definition gathered (E : Env) (urls : list string) (referer : string)
    (mg : list media_val) : Prop :=
  ∀ bytes, bytes ∈ omap media_content mg →
    ∃ u, u ∈ urls ∧ image_payload E referer u = Some bytes.

(** *** The scraper loop, one seed at a time *)

(** The delivery part of one seed, given the ledger as it was when the
    page's lists were filtered: images, then videos, then the pause. *)
Definition deliver_page (U : UrlLib) (E : Env) (n i : nat) (page : string)
    (sent : gset string) : M unit :=
  let media := page_media U E page in
  let new_images := not_sent sent (images media) in
  let new_videos := not_sent sent (videos media) in
  bind (match new_images with [] => ret tt | _ => send_images E new_images page end)
    (fun _ =>
       bind (match new_videos with [] => ret tt | _ => send_videos U E new_videos page end)
         (fun _ => if bool_decide (i < n - 1) then sleep LINK_PROCESSING_INTERVAL else ret tt)).

(** [u] is in the images or videos list extracted from the page
    [referer], which is a seed of the job. *)
Definition listed (U : UrlLib) (E : Env) (seeds : list string) (u referer : string) : Prop :=
  referer ∈ with_scheme <$> seeds
  ∧ (u ∈ images (page_media U E referer) ∨ u ∈ videos (page_media U E referer)).

(** What a step of a scraper job may be, for a job on [seeds] started
    with the ledger [sent0]. *)
Definition job_step (U : UrlLib) (E : Env) (seeds : list string) (sent0 : gset string)
    (e : event) : Prop :=
  match e with
  | Download u r _ => (u ∉ sent0) ∧ listed U E seeds u r
  | Add u => (u ∉ sent0) ∧ ∃ r, listed U E seeds u r
  | Send m kw _ =>
      ∃ page urls, page ∈ with_scheme <$> seeds
                   ∧ (∀ u, u ∈ urls → (u ∉ sent0) ∧ listed U E seeds u page)
                   ∧ sent_from E urls page m kw
  | GetPage page _ => page ∈ with_scheme <$> seeds
  | RequestsGet _ _ | SendDocument _ _ => False
  | _ => True
  end.

(** No URL is downloaded after a page fetch that follows its marking. *)
Definition no_redownload (t : list event) : Prop :=
  ∀ i j k u page ok r ok',
    i < j → j < k →
    t !! i = Some (Add u) → t !! j = Some (GetPage page ok) →
    t !! k = Some (Download u r ok') → False.

Definition not_page_fetch (e : event) : Prop :=
  match e with
  | GetPage _ _ => False
  | _ => True
  end.

(** *** The job around the loop *)

(** The status steps that end a job: after a loop that returned, the
    last of them is the deletion of the status message, or the error
    status when the deletion raises. *)
Definition closing_steps (E : Env) (r : result unit) : list event :=
  match r with
  | Ok _ =>
      [Status ScrapingComplete; Sleep 3]
      ++ match delete_error E with
         | None => [DeleteStatus]
         | Some msg => [Status (Error (Py.slice_to 100 msg))]
         end
  | Raise CancelledError => [Status Canceled]
  | Raise (Exception msg) => [Status (Error (Py.slice_to 100 msg))]
  end.

Definition outcome_of (E : Env) (r : result unit) : job_outcome :=
  match r with
  | Ok _ =>
      match delete_error E with
      | None => Completed
      | Some msg => Failed (Py.slice_to 100 msg)
      end
  | Raise CancelledError => Cancelled
  | Raise (Exception msg) => Failed (Py.slice_to 100 msg)
  end.

(** ** Worlds and environments for the examples *)

(** A process that has just started: empty ledger, nothing read or sent yet. *)
Definition startup : World := {| SENT_MEDIA_URLS := ∅; polls := 0; sends := 0 |}.

(** An environment where every fetch fails, the channel accepts every
    attempt at once, nobody cancels, and the steps around the links file
    and the status message raise nothing. *)
Definition quiet : Env :=
  {| get_soup := fun _ => None;
     get_text := fun _ _ => None;
     get_content := fun _ _ => None;
     requests_get := fun _ => None;
     webp_to_jpeg := fun _ => None;
     channel := fun _ _ _ => {| outcome := Sent; consumed := 0 |};
     cancel_requested := fun _ => false;
     time_now := 0;
     save_error := fun _ => None;
     send_document_error := fun _ _ => None;
     remove_error := None;
     delete_error := None;
     CHANNEL_ID := (-1002900910545)%Z |}.

Definition with_soups (f : string → option (list Tag)) (E : Env) : Env :=
  {| get_soup := f; get_text := get_text E; get_content := get_content E;
     requests_get := requests_get E; webp_to_jpeg := webp_to_jpeg E;
     channel := channel E; cancel_requested := cancel_requested E;
     time_now := time_now E; save_error := save_error E;
     send_document_error := send_document_error E; remove_error := remove_error E;
     delete_error := delete_error E; CHANNEL_ID := CHANNEL_ID E |}.

Definition with_texts (f : string → string → option string) (E : Env) : Env :=
  {| get_soup := get_soup E; get_text := f; get_content := get_content E;
     requests_get := requests_get E; webp_to_jpeg := webp_to_jpeg E;
     channel := channel E; cancel_requested := cancel_requested E;
     time_now := time_now E; save_error := save_error E;
     send_document_error := send_document_error E; remove_error := remove_error E;
     delete_error := delete_error E; CHANNEL_ID := CHANNEL_ID E |}.

Definition with_contents (f : string → string → option (list byte)) (E : Env) : Env :=
  {| get_soup := get_soup E; get_text := get_text E; get_content := f;
     requests_get := requests_get E; webp_to_jpeg := webp_to_jpeg E;
     channel := channel E; cancel_requested := cancel_requested E;
     time_now := time_now E; save_error := save_error E;
     send_document_error := send_document_error E; remove_error := remove_error E;
     delete_error := delete_error E; CHANNEL_ID := CHANNEL_ID E |}.

Definition with_video_pages (f : string → option (list Tag)) (E : Env) : Env :=
  {| get_soup := get_soup E; get_text := get_text E; get_content := get_content E;
     requests_get := f; webp_to_jpeg := webp_to_jpeg E;
     channel := channel E; cancel_requested := cancel_requested E;
     time_now := time_now E; save_error := save_error E;
     send_document_error := send_document_error E; remove_error := remove_error E;
     delete_error := delete_error E; CHANNEL_ID := CHANNEL_ID E |}.

Definition with_channel (f : nat → send_method → kwargs → reply) (E : Env) : Env :=
  {| get_soup := get_soup E; get_text := get_text E; get_content := get_content E;
     requests_get := requests_get E; webp_to_jpeg := webp_to_jpeg E;
     channel := f; cancel_requested := cancel_requested E;
     time_now := time_now E; save_error := save_error E;
     send_document_error := send_document_error E; remove_error := remove_error E;
     delete_error := delete_error E; CHANNEL_ID := CHANNEL_ID E |}.

Definition with_cancel (f : nat → bool) (E : Env) : Env :=
  {| get_soup := get_soup E; get_text := get_text E; get_content := get_content E;
     requests_get := requests_get E; webp_to_jpeg := webp_to_jpeg E;
     channel := channel E; cancel_requested := f;
     time_now := time_now E; save_error := save_error E;
     send_document_error := send_document_error E; remove_error := remove_error E;
     delete_error := delete_error E; CHANNEL_ID := CHANNEL_ID E |}.

(** The same with a deletion of the status message that raises. *)
Definition with_delete_error (msg : string) (E : Env) : Env :=
  {| get_soup := get_soup E; get_text := get_text E; get_content := get_content E;
     requests_get := requests_get E; webp_to_jpeg := webp_to_jpeg E;
     channel := channel E; cancel_requested := cancel_requested E;
     time_now := time_now E; save_error := save_error E;
     send_document_error := send_document_error E; remove_error := remove_error E;
     delete_error := Some msg; CHANNEL_ID := CHANNEL_ID E |}.

(** The same with a [bot.send_document] that raises. *)
Definition with_send_document_error (msg : string) (E : Env) : Env :=
  {| get_soup := get_soup E; get_text := get_text E; get_content := get_content E;
     requests_get := requests_get E; webp_to_jpeg := webp_to_jpeg E;
     channel := channel E; cancel_requested := cancel_requested E;
     time_now := time_now E; save_error := save_error E;
     send_document_error := fun _ _ => Some msg; remove_error := remove_error E;
     delete_error := delete_error E; CHANNEL_ID := CHANNEL_ID E |}.

(** A tag with attributes and no string. *)
Definition tag (n : string) (a : list (string * string)) : Tag :=
  {| name := n; attrs := a; tag_string := None |}.

(** A tag with a string and no attributes. *)
Definition text_tag (n s : string) : Tag :=
  {| name := n; attrs := []; tag_string := Some s |}.

(** A page with an image, a gif and two players; the first player's
    page names the image again, the second one names the gif. *)
Definition overlap_env : Env :=
  with_contents (fun _ _ => Some [x2a]%byte)
    (with_texts
       (fun embed_url _ =>
          if bool_decide (embed_url = "http://embed/x")
          then Some ("player.setup({file: " +:+ quoted "http:\/\/cdn\/a.jpg" +:+ "})")
          else if bool_decide (embed_url = "http://embed/y")
          then Some ("<video><source src=" +:+ quoted "http://cdn/b.gif" +:+ "></video>")
          else None)
       (with_soups
          (fun url =>
             if bool_decide (url = "http://site/p1")
             then Some [tag "img" [("src", "http://cdn/a.jpg")];
                        tag "img" [("src", "http://cdn/b.gif")];
                        tag "iframe" [("src", "http://embed/x")];
                        tag "iframe" [("src", "http://embed/y")]]
             else None)
          quiet)).

(** ** The text of a "Next" anchor *)

(** A text that reads "Next" apart from case and surrounding white
    space. *)
Definition reads_next (s : string) : Prop :=
  ∃ (a b : list ascii) (n e x t : ascii),
    list_ascii_of_string s = a ++ [n; e; x; t] ++ b
    ∧ Forall (fun c => Py.isspace c = true) a
    ∧ Forall (fun c => Py.isspace c = true) b
    ∧ n ∈ ["N"; "n"]%char ∧ e ∈ ["E"; "e"]%char
    ∧ x ∈ ["X"; "x"]%char ∧ t ∈ ["T"; "t"]%char.

(** ** C10: the next-page link *)

(** [a] is the first element of [soup], in document order, for which
    [P] holds. *)
Definition first_such (P : Tag → Prop) (soup : list Tag) (a : Tag) : Prop :=
  ∃ before after, soup = before ++ a :: after ∧ P a ∧ Forall (fun t => ¬ P t) before.

(** [v] is one of the white-space separated values of [s]: a run of
    characters that are not white space, at least one, with white space
    or nothing right before it and right after it. *)
Definition token (v s : string) : Prop :=
  let run := list_ascii_of_string v in
  run ≠ [] ∧ Forall (fun c => Py.isspace c = false) run
  ∧ ∃ before after,
      list_ascii_of_string s = before ++ run ++ after
      ∧ (∀ c, last before = Some c → Py.isspace c = true)
      ∧ (∀ c, head after = Some c → Py.isspace c = true).

(** The attribute [key] of the tag has [v] among its values. *)
Definition has_token (t : Tag) (key v : string) : Prop :=
  ∃ s, tag_get t key = Some s ∧ token v s.

Definition next_by_class (t : Tag) : Prop :=
  name t = "a" ∧ has_token t "class" "pageNav-jump--next".

Definition next_by_rel (t : Tag) : Prop :=
  name t = "a" ∧ has_token t "rel" "next".

Definition next_by_text (t : Tag) : Prop :=
  name t = "a" ∧ ∃ s, tag_string t = Some s ∧ reads_next s.

(** The anchor the three searches settle on: the first search that finds
    one decides. *)
Definition next_anchor (soup : list Tag) : option Tag :=
  or_else (find_next_by_class soup) (or_else (find_next_by_rel soup) (find_next_by_text soup)).

(** *** The values of a multi-valued attribute *)

(** White space, and what can stand in a word. *)
Definition space_char (c : ascii) : Prop := Py.isspace c = true.

Definition word_char (c : ascii) : Prop := Py.isspace c = false.

(** A word of a list of characters: a run without white space that
    white space or an end of the list bounds on either side. *)
Definition word_of (run l : list ascii) : Prop :=
  run ≠ [] ∧ Forall word_char run
  ∧ ∃ before after,
      l = before ++ run ++ after
      ∧ (∀ c, last before = Some c → space_char c)
      ∧ (∀ c, head after = Some c → space_char c).

(** A page whose "Next" anchor comes after the media; the text of the
    anchor ends with a no-break space. *)
Definition next_text : string := "  NEXT" +:+ String (ascii_of_nat 160) "".

Definition paged_env : Env :=
  with_contents (fun _ _ => Some [x2a]%byte)
    (with_soups
       (fun url =>
          if bool_decide (url = "http://site/p1")
          then Some [tag "img" [("src", "http://cdn/a.jpg")];
                     {| name := "a"; attrs := [("href", "http://site/p2")];
                        tag_string := Some next_text |}]
          else if bool_decide (url = "http://site/p2")
          then Some [tag "img" [("src", "http://cdn/b.jpg")]]
          else None)
       quiet).

(** ** C3: when a URL enters the ledger *)

(** The claim as the specification words it: at the moment of an add,
    a send has already been confirmed. *)
Definition added_after_confirmed_send : Prop :=
  ∀ (E : Env) (urls : list string) (referer : string) (w : World) (i : nat) (u : string),
    run_trace (send_images E urls referer w) !! i = Some (Add u) →
    ∃ j m kw, j < i ∧ run_trace (send_images E urls referer w) !! j = Some (Send m kw Sent).

(** One image that downloads, and a channel that refuses everything. *)
Definition refusing_env : Env :=
  with_channel (fun _ _ _ => {| outcome := TelegramError; consumed := 0 |})
    (with_contents (fun _ _ => Some [x2a]%byte) quiet).

(** ** C5: the ledger only grows *)

(** The claim as the specification words it: once a URL is marked it is
    never downloaded again. *)
Definition never_downloaded_again : Prop :=
  ∀ (U : UrlLib) (E : Env) (urls : list string) (w : World) (i k : nat)
    (u r : string) (ok : bool),
    i < k →
    run_trace (process_media_scraper U E urls w) !! i = Some (Add u) →
    run_trace (process_media_scraper U E urls w) !! k = Some (Download u r ok) →
    False.

Definition same_ledger (w w' : World) (t : list event) : Prop :=
  SENT_MEDIA_URLS w' = SENT_MEDIA_URLS w.

(** ** C9: the gifs list is extracted and then left alone *)

(** The claim as the specification words it: no URL of a page's gifs
    list is ever downloaded or added to the ledger. *)
Definition gif_urls_never_delivered : Prop :=
  ∀ (U : UrlLib) (E : Env) (urls : list string) (w : World) (seed u : string),
    seed ∈ urls → u ∈ gifs (page_media U E (with_scheme seed)) →
    (∀ r ok, Download u r ok ∉ run_trace (process_media_scraper U E urls w))
    ∧ Add u ∉ run_trace (process_media_scraper U E urls w).

(** A page with an image and two gifs; a player of the page resolves
    to the first gif. *)
Definition gifs_env : Env :=
  with_contents (fun _ _ => Some [x2a]%byte)
    (with_texts
       (fun embed_url _ =>
          if bool_decide (embed_url = "http://embed/y")
          then Some ("<video><source src=" +:+ quoted "http://cdn/b.gif" +:+ "></video>")
          else None)
       (with_soups
          (fun url =>
             if bool_decide (url = "http://site/p1")
             then Some [tag "img" [("src", "http://cdn/a.jpg")];
                        tag "img" [("src", "http://cdn/b.gif")];
                        tag "img" [("src", "http://cdn/c.gif")];
                        tag "iframe" [("src", "http://embed/y")]]
             else None)
          quiet)).

(** ** C4: cancellation *)

(** Two seeds; the first page shows one image; the cancel request comes
    in during the pause between the seeds, so that the third reading of
    the flag (before the second seed) is the first to see it. *)
Definition cancel_between_seeds : Env :=
  with_cancel (fun n => bool_decide (2 ≤ n))
    (with_contents (fun _ _ => Some [x2a]%byte)
       (with_soups
          (fun url =>
             if bool_decide (url = "http://site/a")
             then Some [tag "img" [("src", "http://cdn/a.jpg")]]
             else if bool_decide (url = "http://site/b")
             then Some [tag "img" [("src", "http://cdn/b.jpg")]]
             else None)
          quiet)).

(** The status texts shown during a run. *)
Definition statuses (t : list event) : list status :=
  omap (fun e => match e with Status s => Some s | _ => None end) t.

(** ** C1: the links file *)

(** Two pages with different titles that show the same video URL, the
    first in a player script, the second in a video tag. *)
Definition same_video_two_titles : Env :=
  with_video_pages
    (fun url =>
       if bool_decide (url = "http://h/page1")
       then Some [text_tag "title" "First";
                  text_tag "script" ("player.setup({file: " +:+ quoted "http://h/v.mp4" +:+ "})")]
       else if bool_decide (url = "http://h/page2")
       then Some [text_tag "title" "Second"; tag "video" [("src", "http://h/v.mp4")]]
       else None)
    quiet.

(** One page that shows two different videos. *)
Definition two_videos_one_title : Env :=
  with_video_pages
    (fun url =>
       if bool_decide (url = "http://h/page")
       then Some [text_tag "title" "Clips";
                  tag "video" [("src", "http://h/one.mp4")];
                  tag "video" [("src", "http://h/two.mp4")]]
       else None)
    quiet.

(** The documents sent to the chat during a run. *)
Definition documents (t : list event) : list (string * nat) :=
  omap (fun e => match e with SendDocument c n => Some (c, n) | _ => None end) t.

(** ** C2: the retry wrapper *)

(** Whether a trace holds a confirmed send. *)
Definition delivered (t : list event) : Prop :=
  ∃ m kw, Send m kw Sent ∈ t.

(** The claim as the specification words it: rate-limit answers never
    use up the attempts, so a send that the channel rate-limits any
    number of times and then accepts is delivered. *)
Definition rate_limit_never_exhausts : Prop :=
  ∀ (E : Env) (m : send_method) (kw : kwargs) (w : World) (n : nat),
    (∀ i kw', i < n → ∃ s, outcome (channel E (sends w + i) m kw') = RetryAfter s) →
    (∀ kw', outcome (channel E (sends w + n) m kw') = Sent) →
    delivered (run_trace (_send_with_retry E m kw w)).

(** A channel that asks three times to wait one second, then accepts. *)
Definition flooded_env : Env :=
  with_channel
    (fun n _ _ => {| outcome := if bool_decide (n < 3) then RetryAfter 1 else Sent;
                     consumed := 0 |})
    quiet.

(** ** C6: batches of ten *)

Definition numbered (n : nat) : string :=
  "http://cdn/" +:+ Py.str_of_nat n +:+ ".jpg".

(** Every download succeeds except the one of picture 7. *)
Definition gallery_env : Env :=
  with_contents (fun url _ => if bool_decide (url = numbered 7) then None
                              else Some [x2a]%byte) quiet.

(** The claim as the specification words it: 25 URLs that all download,
    need no transcoding and are not yet in the ledger go out in exactly
    three sends, of 10, 10 and 5. *)
Definition three_sends_for_twenty_five : Prop :=
  ∀ (E : Env) (urls : list string) (referer : string) (w : World),
    length urls = 25 → NoDup urls →
    Forall (downloaded E referer) urls →
    Forall (fun u => Py.endswith (Py.lower u) ".webp" = false) urls →
    Forall (fun u => u ∉ SENT_MEDIA_URLS w) urls →
    length <$> sent_groups (run_trace (send_images E urls referer w)) = [10; 10; 5].

(** Every download succeeds; the channel answers its first attempt with
    a Telegram error and accepts the others. *)
Definition flaky_env : Env :=
  with_channel
    (fun n _ _ => {| outcome := if bool_decide (n = 0) then TelegramError else Sent;
                     consumed := 0 |})
    (with_contents (fun _ _ => Some [x2a]%byte) quiet).

(** Every download succeeds; a cancel request is seen before the
    twelfth picture. *)
Definition cancelled_gallery_env : Env :=
  with_cancel (fun n => bool_decide (11 ≤ n))
    (with_contents (fun _ _ => Some [x2a]%byte) quiet).

(** ** C7: a page of a thousand pictures *)

Definition thousand_env : Env :=
  with_soups (fun url => if bool_decide (url = "http://site/big")
                         then Some ((fun n => tag "img" [("src", numbered n)]) <$> seq 0 1000)
                         else None) quiet.

(** A page whose second link cannot be joined to the page URL: the scan
    stops there, and what was found before is returned, without the
    player's video and without the next page. *)
Definition broken_link_env : Env :=
  with_texts (fun _ _ => Some ("file: " +:+ quoted "http://cdn/v.mp4"))
    (with_soups
       (fun url =>
          if bool_decide (url = "http://site/p")
          then Some [tag "img" [("src", "http://cdn/a.jpg")];
                     tag "a" [("href", "http://[")];
                     tag "img" [("src", "http://cdn/b.jpg")];
                     tag "iframe" [("src", "http://embed/x")];
                     {| name := "a"; attrs := [("href", "http://site/p2")];
                        tag_string := Some "Next" |}]
          else None)
       quiet).

(** ** The utility functions *)

(** How Telegram reads an escaped text: a backslash makes the character
    after it literal. *)
Fixpoint markdown_unescape (s : string) : string :=
  match s with
  | EmptyString => EmptyString
  | String c r =>
      if bool_decide (c = "\"%char) then
        match r with
        | EmptyString => EmptyString
        | String c' r' => String c' (markdown_unescape r')
        end
      else String c (markdown_unescape r)
  end.

(** Every special character of the text stands right after a backslash
    that escapes it, and a backslash escapes nothing else. *)
Fixpoint well_escaped (s : string) : bool :=
  match s with
  | EmptyString => true
  | String c r =>
      if bool_decide (c = "\"%char) then
        match r with
        | EmptyString => false
        | String c' r' => bool_decide (c' ∈ escape_chars) && well_escaped r'
        end
      else negb (bool_decide (c ∈ escape_chars)) && well_escaped r
  end.

(** The special characters of a text. *)
Definition specials (text : string) : list ascii :=
  filter (fun c => c ∈ escape_chars) (list_ascii_of_string text).

(** ** The link extractor *)

(** The title the links of a page are listed under, when reading it does
    not raise. *)
Definition page_title (soup : list Tag) : option string :=
  match head (filter (fun t => name t = "title") soup) with
  | Some t => Py.strip <$> tag_string t
  | None => Some "Untitled"
  end.

(** The links [extract_video_links] returns for a page. *)
Definition page_video_links (U : UrlLib) (E : Env) (url : string) : list (string * string) :=
  match requests_get E url with
  | Some soup => default [] (extract_video_links_from_html U soup url)
  | None => []
  end.

(** Whether the page answered. *)
Definition answered (E : Env) (url : string) : Prop := is_Some (requests_get E url).



(** The URLs the scan of a page meets, in order: what the four patterns
    find in each script, then the [src] or [href] of the tags that ends
    in [.mp4] or [.mpd]. *)
Definition scanned_urls (soup : list Tag) : list string :=
  (find_all ["script"] soup ≫= fun script =>
     match nonempty (tag_string script) with
     | Some s => script_patterns ≫= fun pattern => Re.findall pattern s
     | None => []
     end)
  ++ omap (fun tag =>
             match nonempty (or_else (nonempty (tag_get tag "src")) (tag_get tag "href")) with
             | Some url =>
                 if bool_decide (is_Some (Re.search video_ext_pattern url)) then Some url
                 else None
             | None => None
             end)
          (find_all ["video"; "source"; "a"; "iframe"] soup).

(** [make_absolute_url(url, base_url)] raises. *)
Definition unresolvable (U : UrlLib) (base_url url : string) : Prop :=
  ∃ msg, make_absolute_url U url base_url = ValueError msg.



(** The flag is first seen raised at the [k]-th reading from [w] on, or
    not at all during [n] readings when [k = n]. *)
Definition cancel_seen_at (E : Env) (w : World) (n k : nat) : Prop :=
  k ≤ n
  ∧ (∀ i, i < k → cancel_requested E (polls w + i) = false)
  ∧ (k < n → cancel_requested E (polls w + k) = true).

(** What holds of the list of links while it is built. *)
Definition links_ok (title : string) (video_links : list (string * string)) : Prop :=
  NoDup (video_links.*2) ∧ Forall (fun l => l.1 = title ∧ l.2 ≠ "") video_links.

(** Three pages: the first shows two videos, the second does not
    answer, the third shows one video. *)
Definition three_pages : Env :=
  with_cancel (fun n => bool_decide (2 ≤ n))
    (with_video_pages
       (fun url =>
          if bool_decide (url = "http://h/p1")
          then Some [text_tag "title" "Clips";
                     tag "video" [("src", "http://h/one.mp4")];
                     tag "video" [("src", "http://h/two.mp4")]]
          else if bool_decide (url = "http://h/p3")
          then Some [text_tag "title" "More"; tag "video" [("src", "http://h/three.mp4")]]
          else None)
       quiet).

(** A page with a link that cannot be made absolute gives no link, and
    a title is stripped of no-break spaces too. *)
Definition odd_pages : Env :=
  with_video_pages
    (fun url =>
       if bool_decide (url = "http://h/p1")
       then Some [text_tag "title" "Clips";
                  tag "video" [("src", "http://h/one.mp4")];
                  tag "video" [("src", "ftp://[/two.mp4")]]
       else if bool_decide (url = "http://h/p2")
       then Some [text_tag "title" (String (ascii_of_nat 160) "More ");
                  tag "video" [("src", "http://h/three.mp4")]]
       else None)
    quiet.

(** ** What the extractor keeps *)

(** The URL holds one of the ignored substrings. *)
Definition ignored (u : string) : Prop :=
  ∃ p, p ∈ IGNORED_MEDIA_PATTERNS ∧ Py.contains u p = true.

(** [urlparse] returns on the URL, and the path, in lower case, ends
    with one of the extensions. *)
Definition has_ext (U : UrlLib) (exts : list string) (u : string) : Prop :=
  ∃ parsed ext, urlparse U u = Returns parsed ∧ ext ∈ exts
                ∧ Py.endswith (Py.lower (url_path parsed)) ext = true.

(** [u] is the absolute URL of a non-empty link attribute of a tag of
    the page. *)
Definition linked_from (U : UrlLib) (url : string) (soup : list Tag) (u : string) : Prop :=
  ∃ tag attr link,
    tag ∈ soup ∧ name tag ∈ ["a"; "img"; "video"; "source"]
    ∧ attr ∈ ["href"; "src"; "data-src"]
    ∧ tag_get tag attr = Some link ∧ link ≠ "" ∧ urljoin U url link = Returns u.

(** [u] is what the embed resolver returned for an iframe of the page. *)
Definition embedded_in (U : UrlLib) (E : Env) (url : string) (soup : list Tag) (u : string)
    : Prop :=
  ∃ iframe src embed_url,
    iframe ∈ soup ∧ name iframe = "iframe" ∧ tag_get iframe "src" = Some src ∧ src ≠ ""
    ∧ urljoin U url src = Returns embed_url
    ∧ (∀ w, run_result (scrape_embedded_video U E embed_url url w) = Ok (Some u))
    ∧ u ≠ "".

(** ** Video delivery *)

(** The file name of a single send. *)
Definition filename_of (kw : kwargs) : option string :=
  match kw !! "filename" with
  | Some (VStr f) => Some f
  | _ => None
  end.

(** The single-video attempts of a trace, oldest first: the bytes and
    the file name of each. *)
Definition sent_videos (t : list event) : list (option (list byte) * option string) :=
  omap (fun e => match e with
                 | Send send_video kw _ => Some (video_of kw, filename_of kw)
                 | _ => None
                 end) t.

(** What [send_videos] sends for a URL: what was downloaded, under the
    file name made from the URL; nothing when the download fails. *)
Definition video_payload (U : UrlLib) (E : Env) (referer url : string)
    : option (option (list byte) * option string) :=
  match get_content E url referer, video_filename U E url with
  | Some content, Returns filename => Some (Some content, Some filename)
  | _, _ => None
  end.

(** [send_videos] stops at a URL that downloads but whose file name
    cannot be made: [urlparse] raises outside the [try] of the loop. *)
Definition unnamed (U : UrlLib) (E : Env) (referer url : string) : bool :=
  bool_decide (downloaded E referer url)
  && match video_filename U E url with
     | Returns _ => false
     | ValueError _ => true
     end.

(** The URLs whose turn is completed, and those that are reached. *)
Definition served (U : UrlLib) (E : Env) (referer : string) (urls : list string)
    : list string :=
  take_while (fun u => negb (unnamed U E referer u)) urls.

Definition reached (U : UrlLib) (E : Env) (referer : string) (urls : list string)
    : list string :=
  take (S (length (served U E referer urls))) urls.

(** How the loop ends when nobody cancels: normally, or with the
    exception of the URL it stopped at. *)
Definition videos_result (U : UrlLib) (E : Env) (referer : string) (urls : list string)
    : result unit :=
  match urls !! length (served U E referer urls) with
  | Some u =>
      match video_filename U E u with
      | Returns _ => Ok tt
      | ValueError msg => Raise (Exception msg)
      end
  | None => Ok tt
  end.

(** Every video that downloads has a file name. *)
Definition all_named (U : UrlLib) (E : Env) (referer : string) (urls : list string) : Prop :=
  ∀ u, u ∈ urls → downloaded E referer u → ∃ f, video_filename U E u = Returns f.


(** Two videos, the second of which does not download, and a channel
    that raises something that is not a Telegram error. *)
Definition failing_channel_env : Env :=
  with_channel (fun _ _ _ => {| outcome := OtherError "boom"; consumed := 3 |})
    (with_contents (fun url _ => if bool_decide (url = "http://cdn/b.mp4") then None
                                 else Some [x2a; x2b]%byte) quiet).

(** ** Cancellation during image delivery *)

(** The same environment with nobody asking for cancellation. *)
Definition no_cancel (E : Env) : Env := with_cancel (fun _ => false) E.

(** A run that is cut short by the flag after it returned. *)
Definition cancel_after {A B} (r : result A * World * list event)
    : result B * World * list event :=
  match run_result r with
  | Ok _ => (Raise CancelledError, polled (run_world r), run_trace r)
  | Raise e => (Raise e, run_world r, run_trace r)
  end.

(** Twelve pictures that all download; the flag is raised while the
    eleventh is being handled, so that the reading before the twelfth is
    the first to see it. *)
Definition cancel_at_twelfth : Env :=
  with_cancel (fun n => bool_decide (11 ≤ n))
    (with_contents (fun _ _ => Some [x2a]%byte) quiet).

(** ** A job that nobody cancels *)


(** Two seeds, the second without a scheme; each page shows one image. *)
Definition two_seeds : Env :=
  with_contents (fun _ _ => Some [x2a]%byte)
    (with_soups
       (fun url =>
          if bool_decide (url = "http://site/a")
          then Some [tag "img" [("src", "http://cdn/a.jpg")]]
          else if bool_decide (url = "https://site/b")
          then Some [tag "img" [("src", "http://cdn/b.jpg")]]
          else None)
       quiet).

(** ** Videos are sent as soon as they are marked *)

(** What follows an [Add u] in a run of the video loop: at once an
    attempt to send a video whose bytes are what was downloaded from
    [u], under the file name made from [u]; or nothing at all when that
    file name cannot be made, the run ending there with the exception. *)
Definition add_followed (U : UrlLib) (E : Env) (referer : string)
    (run : result unit * World * list event) (i : nat) (u : string) : Prop :=
  match video_filename U E u with
  | Returns filename =>
      ∃ kw o, run_trace run !! S i = Some (Send send_video kw o)
              ∧ is_Some (video_of kw) ∧ video_of kw = get_content E u referer
              ∧ filename_of kw = Some filename
  | ValueError msg =>
      run_trace run !! S i = None ∧ run_result run = Raise (Exception msg)
      ∧ is_Some (get_content E u referer)
  end.

(** ** The handlers *)

(** What reaches the bot: a message, [/cancel], a button, or the end of
    a chat's job (its [finally] block). *)
Inductive update :=
| on_message (chat_id : Z) (msg : Message)
| on_cancel (chat_id : Z)
| on_button (chat_id : Z) (data : string)
| on_job_end (chat_id : Z).

Definition handle (u : update) (s : Session) : Session * list action :=
  match u with
  | on_message chat_id msg => message_handler chat_id msg s
  | on_cancel chat_id => cancel_command chat_id s
  | on_button chat_id data => button_callback chat_id data s
  | on_job_end chat_id => (job_finally chat_id s, [])
  end.

(** The session after a sequence of updates. *)
Definition session_after (us : list update) (s : Session) : Session :=
  foldl (fun s u => (handle u s).1) s us.

(** The dicts as the program starts with them. *)
Definition no_session : Session :=
  {| user_modes := ∅; processing_tasks := ∅; cancellation_flags := ∅ |}.

Definition job_urls (j : job) : list string :=
  match j with
  | video_links_job urls => urls
  | media_scraper_job urls => urls
  end.

(** A cancel flag is there only for a chat with a registered job; the
    modes are the two the buttons set; a registered job has URLs. *)
Definition session_ok (s : Session) : Prop :=
  (∀ c, is_Some (cancellation_flags s !! c) → is_Some (processing_tasks s !! c))
  ∧ (∀ c mode, user_modes s !! c = Some mode → mode = "video_links" ∨ mode = "media_scraper")
  ∧ (∀ c j, processing_tasks s !! c = Some j → job_urls j ≠ []).

(** A chat that chose the media scraper and then sends a text with one
    URL. *)
Definition scraper_chat : Session := session_after [on_button 7 "mode_media_scraper"] no_session.

Definition one_url_message : Message :=
  {| message_text := Some "get www.a.b/x.jpg now"; message_document := None |}.

(** * Properties *)

(* stdpp's solvers clear hypotheses that may be absent. *)
Set Warnings "-clear-no-such-hyp".

Local Arguments reset_file_pointers : simpl never.

(** ** Running the helpers *)

Example endswith_ex : Py.endswith "http://h/A.JPG" ".JPG" = true.
Proof. reflexivity. Qed.

Example strip_ex : Py.strip "  Next
 " = "Next".
Proof. reflexivity. Qed.

Example replace_ex :
Py.replace "http:\/\/cdn\/v.mp4" "\/" "/" = "http://cdn/v.mp4".
Proof. reflexivity. Qed.

Example contains_ex :
Py.contains "http://h/avatars/x.png" "/avatars/" = true.
Proof. reflexivity. Qed.

Example simple_path : SimpleUrl.path "http://cdn/d/a.JPG?x=1#f" = "/d/a.JPG".
Proof. reflexivity. Qed.

(** ** Invariants of runs *)

Section Keeps.

Context (R : World → World → list event → Prop) (HR : compositional R).

Lemma keeps_ret {A} (a : A) : keeps R (ret a).
Proof. intros w. apply HR. Qed.

Lemma keeps_raise {A} e : keeps R (@raise A e).
Proof. intros w. apply HR. Qed.

Lemma keeps_bind {A B} (m : M A) (f : A → M B) :
  keeps R m → (∀ a, keeps R (f a)) → keeps R (bind m f).
Proof.
  intros Hm Hf w. specialize (Hm w). unfold bind, run_world, run_trace in *.
  destruct (m w) as [[[a|e] w1] t1]; cbn in *; [|done].
  specialize (Hf a w1). destruct (f a w1) as [[r w2] t2]; cbn in *.
  by eapply comp_app.
Qed.

Lemma keeps_try_except {A} (m : M A) (h : string → M A) :
  keeps R m → (∀ msg, keeps R (h msg)) → keeps R (try_except m h).
Proof.
  intros Hm Hh w. specialize (Hm w). unfold try_except, run_world, run_trace in *.
  destruct (m w) as [[[a|[|msg]] w1] t1]; cbn in *; [done..|].
  specialize (Hh msg w1). destruct (h msg w1) as [[r w2] t2]; cbn in *.
  by eapply comp_app.
Qed.

Lemma keeps_if {A} (b : bool) (m1 m2 : M A) :
  keeps R m1 → keeps R m2 → keeps R (if b then m1 else m2).
Proof. by destruct b. Qed.

End Keeps.

Lemma prepend_result {A} t0 (x : result A * World * list event) :
  run_result (prepend t0 x) = run_result x.
Proof. done. Qed.

Lemma prepend_world {A} t0 (x : result A * World * list event) :
  run_world (prepend t0 x) = run_world x.
Proof. done. Qed.

Lemma prepend_trace {A} t0 (x : result A * World * list event) :
  run_trace (prepend t0 x) = t0 ++ run_trace x.
Proof. done. Qed.

Lemma prepend_nil {A} (x : result A * World * list event) : prepend [] x = x.
Proof. by destruct x as [[??]?]. Qed.

Lemma prepend_prepend {A} t1 t2 (x : result A * World * list event) :
  prepend t1 (prepend t2 x) = prepend (t1 ++ t2) x.
Proof. unfold prepend. cbn. by rewrite app_assoc. Qed.

Lemma run_eta {A} (x : result A * World * list event) :
  x = (run_result x, run_world x, run_trace x).
Proof. by destruct x as [[??]?]. Qed.

(** How [bind] runs. *)
Lemma bind_run {A B} (m : M A) (f : A → M B) w :
  bind m f w =
  match m w with
  | (Ok a, w1, t1) => prepend t1 (f a w1)
  | (Raise e, w1, t1) => (Raise e, w1, t1)
  end.
Proof.
  unfold bind, prepend.
  destruct (m w) as [[[a|e] w1] t1]; [|done]. by destruct (f a w1) as [[??]?].
Qed.

Lemma bind_ok {A B} (m : M A) (f : A → M B) w a w1 t1 :
  m w = (Ok a, w1, t1) → bind m f w = prepend t1 (f a w1).
Proof. intros H. by rewrite bind_run, H. Qed.

Lemma bind_raise {A B} (m : M A) (f : A → M B) w e w1 t1 :
  m w = (Raise e, w1, t1) → bind m f w = (Raise e, w1, t1).
Proof. intros H. by rewrite bind_run, H. Qed.

(** ** The retry wrapper *)

Lemma bytes_of_seek_val v : bytes_of_val (seek_val v) = bytes_of_val v.
Proof. by destruct v. Qed.

Lemma seek_media_idemp m : seek_media (seek_media m) = seek_media m.
Proof. by destruct m. Qed.

Lemma bytes_of_seek_media_list v : bytes_of_val (seek_media_list v) = bytes_of_val v.
Proof.
  destruct v; simpl; try done.
  f_equal. rewrite <- list_fmap_compose. apply list_fmap_ext. intros _ x _.
  apply seek_media_idemp.
Qed.

Lemma bytes_of_read_val n v : bytes_of_val (read_val n v) = bytes_of_val v.
Proof.
  destruct v; simpl; try done.
  f_equal. rewrite <- list_fmap_compose. apply list_fmap_ext. intros _ [b|s] _; done.
Qed.

Lemma payload_alter f key kw :
  (∀ v, bytes_of_val (f v) = bytes_of_val v) → payload (alter f key kw) = payload kw.
Proof.
  intros Hf. unfold payload. apply map_eq. intros k.
  rewrite !lookup_fmap. destruct (decide (key = k)) as [->|Hne].
  - rewrite lookup_alter_eq. destruct (kw !! k); simpl; by rewrite ?Hf.
  - by rewrite lookup_alter_ne.
Qed.

Lemma payload_reset kw : payload (reset_file_pointers kw) = payload kw.
Proof.
  unfold reset_file_pointers. simpl.
  rewrite payload_alter by apply bytes_of_seek_media_list.
  rewrite !payload_alter by apply bytes_of_seek_val. done.
Qed.

Lemma payload_read n kw : payload (read_val n <$> kw) = payload kw.
Proof.
  unfold payload. rewrite <- map_fmap_compose. apply map_fmap_ext.
  intros. apply bytes_of_read_val.
Qed.

Lemma rewound_reset kw : rewound (reset_file_pointers kw).
Proof.
  unfold reset_file_pointers. simpl. split.
  - intros key b Hkey Hl.
    assert (key ≠ "media") as Hm
      by (intros ->; repeat (apply elem_of_cons in Hkey as [?|Hkey]; [done|]); inversion Hkey).
    rewrite lookup_alter_ne in Hl by done.
    assert (∀ k (m : kwargs), (alter seek_val k m) !! k = Some (VBytes b) → tell b = 0) as Hsame.
    { intros k m0. rewrite lookup_alter_eq. destruct (m0 !! k) as [[]|]; simpl; intros; simplify_eq. done. }
    destruct (decide (key = "thumbnail")) as [->|H1]; [by eapply Hsame|].
    rewrite lookup_alter_ne in Hl by done.
    destruct (decide (key = "animation")) as [->|H2]; [by eapply Hsame|].
    rewrite lookup_alter_ne in Hl by done.
    destruct (decide (key = "video")) as [->|H3]; [by eapply Hsame|].
    repeat (apply elem_of_cons in Hkey as [?|Hkey]; [done|]). inversion Hkey.
  - intros items b. rewrite lookup_alter_eq.
    match goal with |- context [ ?m !! "media" ] => destruct (m !! "media") as [[]|] end;
      simpl; intros; simplify_eq.
    apply list_elem_of_fmap in H0 as ([b'|s] & Heq & _); simpl in Heq; simplify_eq. done.
Qed.

Section Retry.

Context (E : Env) (m : send_method).

Lemma send_attempts_cons a rest kw w :
  send_attempts E (a :: rest) m kw w =
  let kw0 := reset_file_pointers kw in
  let r := channel E (sends w) m kw0 in
  let w1 := attempted w in
  let kw1 := read_val (consumed r) <$> kw0 in
  match outcome r with
  | Sent => (Ok tt, w1, [Send m kw0 Sent; Sleep 2])
  | RetryAfter s =>
      match send_attempts E rest m kw1 w1 with
      | (res, w2, t) => (res, w2, Send m kw0 (RetryAfter s) :: Sleep s :: t)
      end
  | TelegramError =>
      if bool_decide (a = 2) then (Ok tt, w1, [Send m kw0 TelegramError])
      else match send_attempts E rest m kw1 w1 with
           | (res, w2, t) => (res, w2, Send m kw0 TelegramError :: Sleep 5 :: t)
           end
  | OtherError msg => (Raise (Exception msg), w1, [Send m kw0 (OtherError msg)])
  end.
Proof.
  cbn [send_attempts]. unfold bind, call_send, sleep, emit, ret, raise. cbn.
  destruct (outcome _) eqn:Ho; cbn; try done.
  - by destruct (send_attempts _ _ _ _ _) as [[??]?].
  - case_bool_decide; [done|]. cbn. by destruct (send_attempts _ _ _ _ _) as [[??]?].
Qed.

End Retry.

Ltac index_cases i :=
  destruct i as [|[|[|[|[|[|[|i]]]]]]]; cbn; intros; simplify_eq.

Ltac payload_ok :=
  repeat first [ rewrite payload_reset | rewrite payload_read ]; reflexivity.

Ltac answer_ok :=
  rewrite ?Nat.add_0_r, ?Nat.add_1_r; 
  repeat match goal with
         | |- context [ (?a + 2)%nat ] => replace (a + 2)%nat with (S (S a)) by lia
         end;
  congruence.

Ltac next_attempt :=
  rewrite send_attempts_cons; cbn zeta; cbn [sends polls SENT_MEDIA_URLS attempted];
  match goal with
  | |- context [ outcome (channel ?E ?n ?m ?k) ] =>
      let H := fresh "Hanswer" in
      destruct (outcome (channel E n m k)) eqn:H
  end;
  repeat (case_bool_decide; try lia).

(** What the "Reset file pointers" block does to each keyword argument:
    a [BytesIO] under [video], [animation] or [thumbnail] is rewound,
    the [BytesIO] media of the items under [media] are rewound, and
    every other argument is left as it is. *)
Lemma reset_file_pointers_lookup (kw : kwargs) (key : string) :
  reset_file_pointers kw !! key
  = if bool_decide (key ∈ ["video"; "animation"; "thumbnail"]) then
      match kw !! key with
      | Some (VBytes b) => Some (VBytes (seek0 b))
      | other => other
      end
    else if bool_decide (key = "media") then
      match kw !! key with
      | Some (VMedia items) => Some (VMedia (seek_media <$> items))
      | other => other
      end
    else kw !! key.
Proof.
  unfold reset_file_pointers. cbn [foldl].
  assert (∀ k (m0 : kwargs), alter seek_val k m0 !! k
            = match m0 !! k with Some (VBytes b) => Some (VBytes (seek0 b)) | o => o end) as Hs.
  { intros k m0. rewrite lookup_alter_eq. by destruct (m0 !! k) as [[]|]. }
  destruct (decide (key = "media")) as [->|Hm].
  - rewrite lookup_alter_eq, !lookup_alter_ne by done.
    rewrite bool_decide_eq_false_2 by (by apply (bool_decide_unpack _)).
    rewrite bool_decide_eq_true_2 by done. by destruct (kw !! "media") as [[]|].
  - rewrite lookup_alter_ne by done.
    destruct (decide (key = "thumbnail")) as [->|H1].
    { rewrite Hs, !lookup_alter_ne by done. by rewrite bool_decide_eq_true_2 by set_solver. }
    rewrite lookup_alter_ne by done.
    destruct (decide (key = "animation")) as [->|H2].
    { rewrite Hs, !lookup_alter_ne by done. by rewrite bool_decide_eq_true_2 by set_solver. }
    rewrite lookup_alter_ne by done.
    destruct (decide (key = "video")) as [->|H3].
    { rewrite Hs. by rewrite bool_decide_eq_true_2 by set_solver. }
    rewrite lookup_alter_ne by done.
    rewrite bool_decide_eq_false_2 by set_solver. by rewrite bool_decide_eq_false_2.
Qed.

Ltac given_ok :=
  eexists; split; [reflexivity|]; split;
  [ intros; simplify_eq; try reflexivity
  | let j := fresh "j" in
    intros j; intros; simplify_eq; cbn in *; simplify_eq;
    rewrite ?Nat.add_0_r, ?Nat.add_1_r; reflexivity ].

(** C2 (amended). The wrapper makes between one and three attempts in
    all, whatever the answers: each one with the method and the payload
    it was given, the cursors of [video], [animation], [thumbnail] and of
    the [media] items back at 0, and each answered by the channel in
    turn.  The arguments of an attempt are those the wrapper was given
    (for the first attempt) or those the attempt before left behind,
    after the "Reset file pointers" block, which rewinds the [BytesIO]
    values under these four keys and leaves every other argument as it
    is.  An accepted attempt is followed by a pause of 2 seconds and
    ends the wrapper.  A rate-limit answer is followed by the pause the
    channel asked for and then by the next attempt, except on the third
    attempt, where the wrapper returns after the pause and the item is
    dropped.  A Telegram error is followed by a pause of 5 seconds and
    the next attempt, except on the third attempt, where the wrapper
    returns at once and the item is dropped.  Any other exception of the
    send leaves the wrapper at once. *)
Theorem send_with_retry_policy (E : Env) (m : send_method) (kw : kwargs) (w : World) :
  let run := _send_with_retry E m kw w in
  let t := run_trace run in
  let n := length (attempts_of t) in
  (1 ≤ n ≤ 3)
  ∧ same_world_but_sends w (run_world run) n
  ∧ (∀ i m' kw' o, attempts_of t !! i = Some (m', kw', o) →
        m' = m ∧ rewound kw' ∧ payload kw' = payload kw
        ∧ o = outcome (channel E (sends w + i) m kw'))
  ∧ (∀ i m' kw' o, attempts_of t !! i = Some (m', kw', o) →
        ∃ given, kw' = reset_file_pointers given
          ∧ (i = 0 → given = kw)
          ∧ (∀ j m'' kw'' o'', i = S j → attempts_of t !! j = Some (m'', kw'', o'') →
               given = read_val (consumed (channel E (sends w + j) m kw'')) <$> kw''))
  ∧ (∀ given key,
        reset_file_pointers given !! key
        = if bool_decide (key ∈ ["video"; "animation"; "thumbnail"]) then
            match given !! key with
            | Some (VBytes b) => Some (VBytes (seek0 b))
            | other => other
            end
          else if bool_decide (key = "media") then
            match given !! key with
            | Some (VMedia items) => Some (VMedia (seek_media <$> items))
            | other => other
            end
          else given !! key)
  ∧ (∀ i kw', t !! i = Some (Send m kw' Sent) →
        drop (S i) t = [Sleep 2] ∧ run_result run = Ok tt)
  ∧ (∀ i kw' s, t !! i = Some (Send m kw' (RetryAfter s)) →
        if bool_decide (length (attempts_of (take i t)) = 2)
        then drop (S i) t = [Sleep s] ∧ run_result run = Ok tt
        else ∃ kw'' o rest, drop (S i) t = Sleep s :: Send m kw'' o :: rest)
  ∧ (∀ i kw', t !! i = Some (Send m kw' TelegramError) →
        if bool_decide (length (attempts_of (take i t)) = 2)
        then drop (S i) t = [] ∧ run_result run = Ok tt
        else ∃ kw'' o rest, drop (S i) t = Sleep 5 :: Send m kw'' o :: rest)
  ∧ (∀ i kw' msg, t !! i = Some (Send m kw' (OtherError msg)) →
        drop (S i) t = [] ∧ run_result run = Raise (Exception msg)).
Proof.
  unfold _send_with_retry, same_world_but_sends. cbn [seq].
  next_attempt; [ | next_attempt; [ | next_attempt | next_attempt | ]
                  | next_attempt; [ | next_attempt | next_attempt | ] | ].
  all: unfold attempted; cbn.
  all: split; [lia|].
  all: split; [f_equal; lia|].
  all: split; [intros i; index_cases i;
               (split; [done|]); (split; [apply rewound_reset|]);
               (split; [payload_ok | answer_ok])|].
  all: split; [intros i; index_cases i; given_ok|].
  all: split; [intros; apply reset_file_pointers_lookup|].
  all: split; [intros i; index_cases i; done|].
  all: split; [intros i; index_cases i; case_bool_decide; simplify_eq;
               first [done | do 3 eexists; reflexivity]|].
  all: split; [intros i; index_cases i; case_bool_decide; simplify_eq;
               first [done | do 3 eexists; reflexivity]|].
  all: intros i; index_cases i; done.
Qed.

(** ** Image delivery in batches *)

Lemma media_content_seek m : media_content (seek_media m) = media_content m.
Proof. by destruct m. Qed.

Lemma group_of_payload kw1 kw2 : payload kw1 = payload kw2 → group_of kw1 = group_of kw2.
Proof.
  intros H. assert (payload kw1 !! "media" = payload kw2 !! "media") as Hl by by rewrite H.
  unfold payload in Hl. rewrite !lookup_fmap in Hl. unfold group_of.
  assert (∀ items : list media_val,
            omap media_content (seek_media <$> items) = omap media_content items) as Hs.
  { induction items as [|x items IH]; [done|]. cbn.
    rewrite media_content_seek, IH. done. }
  destruct (kw1 !! "media") as [[]|], (kw2 !! "media") as [[]|]; cbn in Hl; simplify_eq; try done.
  rewrite <- (Hs items), <- (Hs items0). by f_equal.
Qed.

Lemma group_of_reset kw : group_of (reset_file_pointers kw) = group_of kw.
Proof. apply group_of_payload, payload_reset. Qed.

Lemma group_of_read n kw : group_of (read_val n <$> kw) = group_of kw.
Proof. apply group_of_payload, payload_read. Qed.

(** A grouped send is tried one to three times on the same group and
    changes nothing but the attempt counter. *)
Lemma send_group_with_retry E kw w :
  telegram_errors_only E →
  ∃ k, 1 ≤ k ≤ 3
    ∧ _send_with_retry E send_media_group kw w
      = (Ok tt,
         {| SENT_MEDIA_URLS := SENT_MEDIA_URLS w; polls := polls w; sends := sends w + k |},
         run_trace (_send_with_retry E send_media_group kw w))
    ∧ sent_groups (run_trace (_send_with_retry E send_media_group kw w))
      = replicate k (group_of kw)
    ∧ adds (run_trace (_send_with_retry E send_media_group kw w)) = []
    ∧ downloads (run_trace (_send_with_retry E send_media_group kw w)) = []
    ∧ (always_accepts E → k = 1).
Proof.
  intros Hch. unfold _send_with_retry. cbn [seq].
  next_attempt; [ | next_attempt; [ | next_attempt | next_attempt | ]
                  | next_attempt; [ | next_attempt | next_attempt | ] | ].
  all: try (exfalso; eapply Hch; eassumption).
  all: unfold attempted; cbn; repeat (rewrite group_of_reset || rewrite group_of_read).
  all: first [ exists 1; split; [lia|]; rewrite ?Nat.add_succ_r, Nat.add_0_r; done
             | exists 2; split; [lia|]; rewrite ?Nat.add_succ_r, Nat.add_0_r;
               repeat (split; [done|]); intros Hacc; rewrite Hacc in *; done
             | exists 3; split; [lia|]; rewrite ?Nat.add_succ_r, Nat.add_0_r;
               repeat (split; [done|]); intros Hacc; rewrite Hacc in *; done ].
Qed.

(** One turn of the loop of [send_images]. *)
Lemma send_images_loop_cons E url rest referer mg w :
  send_images_loop E (url :: rest) referer mg w =
  if cancel_requested E (polls w) then (Raise CancelledError, polled w, [])
  else
    match get_content E url referer with
    | None =>
        prepend [Download url referer false]
          (send_images_loop E rest referer mg (polled w))
    | Some content =>
        match image_payload E referer url with
        | None =>
            prepend [Download url referer true; Add url]
              (send_images_loop E rest referer mg (marked url (polled w)))
        | Some bytes =>
            let mg' := mg ++ [MBytes {| getvalue := bytes; tell := 0 |}] in
            prepend [Download url referer true; Add url]
              (if bool_decide (length mg' = 10)
               then bind (_send_with_retry E send_media_group (media_group_kwargs E mg'))
                         (fun _ => send_images_loop E rest referer [])
                         (marked url (polled w))
               else send_images_loop E rest referer mg' (marked url (polled w)))
        end
    end.
Proof.
  cbn [send_images_loop]. unfold image_payload.
  erewrite bind_ok by reflexivity. rewrite prepend_nil.
  destruct (cancel_requested E (polls w)); [done|].
  unfold download_media_as_bytes.
  destruct (get_content E url referer) as [content|].
  - erewrite bind_ok by reflexivity. cbv beta iota.
    erewrite (bind_ok (ledger_add url)) by reflexivity.
    rewrite prepend_prepend. cbn [app getvalue].
    destruct (Py.endswith (Py.lower url) ".webp"); [destruct (webp_to_jpeg E content)|];
      cbn zeta; try done; by case_bool_decide.
  - by erewrite bind_ok by reflexivity.
Qed.

Lemma downloaded_Some E referer url content :
  get_content E url referer = Some content → downloaded E referer url.
Proof. unfold downloaded. intros ->. by eexists. Qed.

Lemma downloaded_None E referer url :
  get_content E url referer = None → ¬ downloaded E referer url.
Proof. unfold downloaded. intros -> [? ?]. done. Qed.

Lemma group_of_media_group E mg :
  group_of (media_group_kwargs E mg) = omap media_content mg.
Proof. unfold group_of, media_group_kwargs. by rewrite lookup_insert_eq. Qed.

Lemma omap_media_content_bytes (bs : list BytesIO) :
  omap media_content (MBytes <$> bs) = getvalue <$> bs.
Proof. induction bs as [|b bs IH]; [done|]. cbn. by rewrite IH. Qed.

Lemma image_payload_None E referer url :
  get_content E url referer = None → image_payload E referer url = None.
Proof. unfold image_payload. by intros ->. Qed.

Lemma sent_groups_app t1 t2 : sent_groups (t1 ++ t2) = sent_groups t1 ++ sent_groups t2.
Proof. apply omap_app. Qed.

Lemma adds_app t1 t2 : adds (t1 ++ t2) = adds t1 ++ adds t2.
Proof. apply omap_app. Qed.

Lemma downloads_app t1 t2 : downloads (t1 ++ t2) = downloads t1 ++ downloads t2.
Proof. apply omap_app. Qed.

Lemma omap_cons_Some {A B} (f : A → option B) x y l :
  f x = Some y → omap f (x :: l) = y :: omap f l.
Proof. cbn. by intros ->. Qed.

Lemma omap_cons_None {A B} (f : A → option B) x l :
  f x = None → omap f (x :: l) = omap f l.
Proof. cbn. by intros ->. Qed.

Section Batches.

Context (E : Env) (referer : string).

Hypothesis Hcancel : never_cancelled E.

Hypothesis Hchannel : telegram_errors_only E.

Lemma send_images_loop_batches urls : ∀ bs w,
  length bs < 10 →
  ∃ bs' full ks,
    let run := send_images_loop E urls referer (MBytes <$> bs) w in
    run_result run = Ok (MBytes <$> bs')
    ∧ length bs' < 10
    ∧ Forall (fun g => length g = 10) full
    ∧ Forall2 (fun k _ => 1 ≤ k ≤ 3) ks full
    ∧ concat full ++ (getvalue <$> bs')
      = (getvalue <$> bs) ++ omap (image_payload E referer) urls
    ∧ sent_groups (run_trace run) = concat (zip_with replicate ks full)
    ∧ adds (run_trace run) = filter (downloaded E referer) urls
    ∧ downloads (run_trace run)
      = (fun u => (u, bool_decide (downloaded E referer u))) <$> urls
    ∧ SENT_MEDIA_URLS (run_world run)
      = SENT_MEDIA_URLS w ∪ list_to_set (filter (downloaded E referer) urls)
    ∧ polls (run_world run) = polls w + length urls
    ∧ (always_accepts E → Forall (fun k => k = 1) ks).
Proof.
  induction urls as [|url rest IH]; intros bs w Hbs.
  - exists bs, [], []. cbn. rewrite app_nil_r.
    repeat split; try done; try constructor; try lia.
    by rewrite (right_id_L ∅ (∪)).
  - cbn zeta. rewrite send_images_loop_cons, Hcancel.
    destruct (get_content E url referer) as [content|] eqn:Hget.
    + pose proof (downloaded_Some _ _ _ _ Hget) as Hok.
      rewrite (filter_cons_True _ _ _ Hok), fmap_cons, (bool_decide_eq_true_2 _ Hok).
      destruct (image_payload E referer url) as [bytes|] eqn:Hpay.
      * rewrite (omap_cons_Some _ _ _ _ Hpay).
        cbn zeta. case_bool_decide as Hlen.
        -- (* the batch is full: send it and start a new one *)
           destruct (send_group_with_retry E
                       (media_group_kwargs E
                          ((MBytes <$> bs) ++ [MBytes {| getvalue := bytes; tell := 0 |}]))
                       (marked url (polled w)) Hchannel)
             as (k & Hk & Hrun & Hsent & Hadds & Hdl & Hone).
           rewrite bind_run, Hrun.
           destruct (IH [] {| SENT_MEDIA_URLS := SENT_MEDIA_URLS (marked url (polled w));
                              polls := polls (marked url (polled w));
                              sends := sends (marked url (polled w)) + k |})
             as (bs' & full & ks & Hres & Hbs' & Hfull & Hks & Hcat & Hsg & Had & Hdo & Hled & Hpo & Hse);
             [cbn; lia|].
           cbn zeta in *.
           change (MBytes <$> []) with (@nil media_val) in Hres, Hsg, Had, Hdo, Hled, Hpo.
           change (getvalue <$> []) with (@nil (list byte)) in Hcat.
           exists bs', (((getvalue <$> bs) ++ [bytes]) :: full), (k :: ks).
           rewrite !prepend_result, !prepend_world, !prepend_trace.
           rewrite !sent_groups_app, !adds_app, !downloads_app.
           rewrite Hres, Hled, Hpo, Hsg, Had, Hdo, Hsent, Hadds, Hdl.
           rewrite group_of_media_group, omap_app, omap_media_content_bytes.
           rewrite length_app, length_fmap in Hlen.
           cbn in Hlen, Hcat |- *.
           split; [done|]. split; [done|].
           split; [constructor; [|done]; rewrite length_app, length_fmap; cbn; lia|].
           split; [by constructor|].
           split; [rewrite <- !app_assoc; cbn; by rewrite Hcat|].
           split; [done|]. split; [done|]. split; [done|].
           split; [by rewrite (assoc_L (∪)), (comm_L (∪) {[url]})|].
           split; [lia|]. intros Hacc. constructor; auto.
        -- (* the batch is not full yet *)
           destruct (IH (bs ++ [{| getvalue := bytes; tell := 0 |}]) (marked url (polled w)))
             as (bs' & full & ks & Hres & Hbs' & Hfull & Hks & Hcat & Hsg & Had & Hdo & Hled & Hpo & Hse).
           { rewrite length_app, length_fmap in Hlen. rewrite length_app. cbn in *. lia. }
           cbn zeta in *. rewrite fmap_app in Hres, Hsg, Had, Hdo, Hled, Hpo.
           cbn [fmap list_fmap] in Hres, Hsg, Had, Hdo, Hled, Hpo.
           exists bs', full, ks.
           rewrite !prepend_result, !prepend_world, !prepend_trace.
           rewrite !adds_app, !downloads_app, !sent_groups_app.
           rewrite Hres, Hled, Hpo, Hsg, Had, Hdo.
           cbn.
           repeat split; try done; try lia;
             try (by rewrite (assoc_L (∪)), (comm_L (∪) {[url]}));
             try (rewrite Hcat, fmap_app, <- app_assoc; done).
      * (* downloaded, but the transcoding failed: marked, not enqueued *)
        rewrite (omap_cons_None _ _ _ Hpay).
        destruct (IH bs (marked url (polled w)) Hbs)
          as (bs' & full & ks & Hres & Hbs' & Hfull & Hks & Hcat & Hsg & Had & Hdo & Hled & Hpo & Hse).
        cbn zeta in *. exists bs', full, ks.
        rewrite !prepend_result, !prepend_world, !prepend_trace.
        rewrite !adds_app, !downloads_app, !sent_groups_app.
        rewrite Hres, Hled, Hpo, Hsg, Had, Hdo.
        cbn.
        repeat split; try done; try lia;
          try (by rewrite (assoc_L (∪)), (comm_L (∪) {[url]})).
    + (* the download failed: skipped *)
      pose proof (downloaded_None _ _ _ Hget) as Hko.
      rewrite (filter_cons_False _ _ _ Hko), fmap_cons, (bool_decide_eq_false_2 _ Hko).
      rewrite (omap_cons_None _ _ _ (image_payload_None _ _ _ Hget)).
      destruct (IH bs (polled w) Hbs)
        as (bs' & full & ks & Hres & Hbs' & Hfull & Hks & Hcat & Hsg & Had & Hdo & Hled & Hpo & Hse).
      cbn zeta in *. exists bs', full, ks.
      rewrite !prepend_result, !prepend_world, !prepend_trace.
      rewrite !adds_app, !downloads_app, !sent_groups_app.
      rewrite Hres, Hled, Hpo, Hsg, Had, Hdo.
      cbn.
      repeat split; try done; lia.
Qed.

End Batches.

(** Full groups followed by a shorter rest are the chunks of their
    concatenation. *)
Lemma chunks_go_full_rest {A} (n : nat) (full : list (list A)) (last : list A) :
  0 < n → Forall (fun g => length g = n) full → length last < n →
  ∀ fuel, length (concat full ++ last) ≤ fuel →
  chunks_go fuel n (concat full ++ last)
  = full ++ (match last with [] => [] | _ => [last] end).
Proof.
  intros Hn Hfull Hlast. induction Hfull as [|g full Hg Hfull IH]; intros fuel Hfuel.
  - cbn in *. destruct last as [|x last]; [by destruct fuel|].
    destruct fuel as [|fuel]; [cbn in Hfuel; lia|].
    cbn [chunks_go]. rewrite take_ge, drop_ge by lia. by destruct fuel.
  - cbn [concat] in *. rewrite <- app_assoc in *.
    destruct fuel as [|fuel]; [rewrite length_app in Hfuel; lia|].
    destruct g as [|x g]; [cbn in Hg; lia|].
    cbn [chunks_go app].
    change (x :: g ++ concat full ++ last) with ((x :: g) ++ concat full ++ last).
    rewrite take_app_length' by done. rewrite drop_app_length' by done.
    cbn [app]. f_equal. apply IH.
    rewrite !length_app in *. cbn in *. lia.
Qed.

Lemma chunks_full_rest {A} (n : nat) (full : list (list A)) (last : list A) :
  0 < n → Forall (fun g => length g = n) full → length last < n →
  chunks n (concat full ++ last) = full ++ (match last with [] => [] | _ => [last] end).
Proof. intros. by apply chunks_go_full_rest. Qed.

Lemma zip_with_replicate_ones {A} (ks : list nat) (gs : list A) :
  Forall2 (fun k _ => 1 ≤ k ≤ 3) ks gs → Forall (fun k => k = 1) ks →
  concat (zip_with replicate ks gs) = gs.
Proof.
  induction 1 as [|k g ks gs _ _ IH]; [done|].
  intros Hone. apply Forall_cons in Hone as [-> Hone]. cbn. by rewrite IH.
Qed.

Lemma image_payload_plain E referer urls :
  Forall (downloaded E referer) urls →
  Forall (fun u => Py.endswith (Py.lower u) ".webp" = false) urls →
  length (omap (image_payload E referer) urls) = length urls.
Proof.
  induction urls as [|u urls IH]; [done|].
  intros [Hd Hds]%Forall_cons [Hw Hws]%Forall_cons.
  destruct Hd as [content Hc]. cbn. unfold image_payload at 1.
  rewrite Hc, Hw. cbn. by rewrite IH.
Qed.

(** What [send_images] does when nobody cancels and the channel raises
    only Telegram errors. *)
Lemma send_images_groups (E : Env) (urls : list string) (referer : string) (w : World) :
  never_cancelled E → telegram_errors_only E →
  let run := send_images E urls referer w in
  let groups := chunks 10 (omap (image_payload E referer) urls) in
  run_result run = Ok tt
  ∧ Forall (fun g => 1 ≤ length g ≤ 10) groups
  ∧ concat groups = omap (image_payload E referer) urls
  ∧ (∃ ks, Forall2 (fun k _ => 1 ≤ k ≤ 3) ks groups
           ∧ sent_groups (run_trace run) = concat (zip_with replicate ks groups))
  ∧ (always_accepts E → sent_groups (run_trace run) = groups)
  ∧ downloads (run_trace run) = (fun u => (u, bool_decide (downloaded E referer u))) <$> urls
  ∧ adds (run_trace run) = filter (downloaded E referer) urls
  ∧ SENT_MEDIA_URLS (run_world run)
    = SENT_MEDIA_URLS w ∪ list_to_set (filter (downloaded E referer) urls)
  ∧ (length urls = 25 → Forall (downloaded E referer) urls →
     Forall (fun u => Py.endswith (Py.lower u) ".webp" = false) urls →
     length <$> groups = [10; 10; 5]).
Proof.
  intros Hcancel Hchannel run groups.
  destruct (send_images_loop_batches E referer Hcancel Hchannel urls [] w)
    as (bs' & full & ks & Hres & Hbs' & Hfull & Hks & Hcat & Hsg & Had & Hdo & Hled & Hpo & Hone);
    [cbn; lia|].
  cbn zeta in *. change (MBytes <$> []) with (@nil media_val) in *.
  change (getvalue <$> []) with (@nil (list byte)) in Hcat. cbn [app] in Hcat.
  assert (groups = full ++ match getvalue <$> bs' with [] => [] | _ => [getvalue <$> bs'] end)
    as Hgroups.
  { subst groups. rewrite <- Hcat. apply chunks_full_rest; [lia|done|by rewrite length_fmap]. }
  assert (Forall (fun g : list (list byte) => 1 ≤ length g ≤ 10) groups
          ∧ concat groups = omap (image_payload E referer) urls) as [Hsizes Hconcat].
  { rewrite Hgroups, <- Hcat. split.
    - apply Forall_app. split; [eapply Forall_impl; [exact Hfull|]; cbn; intros; lia|].
      destruct bs' as [|b bs']; [constructor|]. constructor; [|constructor].
      rewrite length_fmap in *. cbn in *. lia.
    - rewrite concat_app. f_equal. destruct bs'; [done|]. cbn. by rewrite app_nil_r. }
  assert (length urls = 25 → Forall (downloaded E referer) urls →
          Forall (fun u => Py.endswith (Py.lower u) ".webp" = false) urls →
          length <$> groups = [10; 10; 5]) as H25.
  { intros Hlen Hd Hw. pose proof (image_payload_plain E referer urls Hd Hw) as Hitems.
    rewrite Hlen in Hitems. subst groups.
    destruct (omap (image_payload E referer) urls) as [|x0 items]; [done|].
    do 24 (destruct items as [|? items]; [done|]).
    destruct items; [reflexivity|done]. }
  assert (run = match urls with
                | [] => (Ok tt, w, [])
                | _ => bind (send_images_loop E urls referer [])
                         (fun media_group =>
                            match media_group with
                            | [] => ret tt
                            | _ => _send_with_retry E send_media_group
                                     (media_group_kwargs E media_group)
                            end) w
                end) as Hrun by (subst run; by destruct urls).
  destruct urls as [|u0 urls'].
  { (* nothing to send *)
    rewrite Hrun. subst groups. cbn.
    repeat split; try done; try constructor.
    all: try (exists []; split; [constructor|done]).
    all: by rewrite (right_id_L ∅ (∪)). }
  remember (u0 :: urls') as urls eqn:Hurls.
  assert (Hrun' : run = bind (send_images_loop E urls referer [])
                         (fun media_group =>
                            match media_group with
                            | [] => ret tt
                            | _ => _send_with_retry E send_media_group
                                     (media_group_kwargs E media_group)
                            end) w) by (rewrite Hrun, Hurls; done).
  clear Hrun. rewrite bind_run in Hrun'.
  rewrite (run_eta (send_images_loop E urls referer [] w)), Hres in Hrun'.
  remember (run_trace (send_images_loop E urls referer [] w)) as t1 eqn:Ht1.
  remember (run_world (send_images_loop E urls referer [] w)) as w1 eqn:Hw1.
  clear Ht1 Hw1 Hres.
  destruct bs' as [|b bs'].
  - (* no partial batch left *)
    cbn in Hgroups. rewrite app_nil_r in Hgroups.
    cbv beta iota in Hrun'. unfold prepend, ret in Hrun'. cbn [fst snd fmap list_fmap] in Hrun'.
    rewrite app_nil_r in Hrun'.
    rewrite Hrun'. unfold run_result, run_world, run_trace. cbn [fst snd].
    rewrite <- Hgroups in *. repeat split; try done.
    + exists ks. done.
    + intros Hacc. rewrite Hsg. apply zip_with_replicate_ones; auto.
  - (* the last, partial batch is sent *)
    change (MBytes <$> b :: bs') with (MBytes b :: (MBytes <$> bs')) in Hrun'.
    cbv beta iota in Hrun'.
    destruct (send_group_with_retry E
                (media_group_kwargs E (MBytes b :: (MBytes <$> bs'))) w1 Hchannel)
      as (k & Hk & Hswr & Hsent & Hadds & Hdl & Hk1).
    rewrite Hswr in Hrun'.
    rewrite group_of_media_group in Hsent.
    pose proof (omap_media_content_bytes (b :: bs')) as Hcontent.
    cbn [fmap list_fmap] in Hcontent. rewrite Hcontent in Hsent. clear Hcontent.
    change (getvalue b :: list_fmap BytesIO (list byte) getvalue bs')
      with (getvalue <$> (b :: bs')) in Hsent.
    remember (run_trace (_send_with_retry E send_media_group
                (media_group_kwargs E (MBytes b :: (MBytes <$> bs'))) w1)) as t2 eqn:Ht2.
    clear Ht2 Hswr.
    cbn [fmap list_fmap] in Hgroups.
    change (getvalue b :: list_fmap BytesIO (list byte) getvalue bs')
      with (getvalue <$> (b :: bs')) in Hgroups.
    unfold prepend in Hrun'. cbn [fst snd] in Hrun'.
    rewrite Hrun'. unfold run_result, run_world, run_trace. cbn [fst snd SENT_MEDIA_URLS].
    rewrite sent_groups_app, adds_app, downloads_app.
    rewrite Hsent, Hadds, Hdl, !app_nil_r, Hsg, Had, Hdo, Hled.
    assert (concat (zip_with replicate (ks ++ [k]) groups)
            = concat (zip_with replicate ks full) ++ replicate k (getvalue <$> b :: bs')) as Hz.
    { rewrite Hgroups, zip_with_app by (by eapply Forall2_length).
      rewrite concat_app. cbn. by rewrite app_nil_r. }
    repeat split; try done.
    + exists (ks ++ [k]). split; [|by rewrite Hz].
      rewrite Hgroups. apply Forall2_app; [done|]. by constructor.
    + intros Hacc. rewrite (Hk1 Hacc). rewrite Hgroups.
      rewrite zip_with_replicate_ones; auto.
Qed.

(** C6 (amended). When no cancel request is seen and the channel raises
    only Telegram errors, [send_images] downloads every URL once, in
    order; enqueues the payload of each URL that downloaded (and
    transcoded, for .webp); sends these payloads in consecutive groups
    of 10, the last group holding the rest, each group tried one to
    three times by the retry wrapper and exactly once when the channel
    accepts every attempt; and adds to the ledger exactly the URLs whose
    download succeeded.  For 25 URLs that all download and need no
    transcoding the groups have sizes 10, 10 and 5, and on a channel
    that accepts every attempt exactly these three sends are made. *)
Theorem send_images_batches (E : Env) (urls : list string) (referer : string) (w : World) :
  never_cancelled E → telegram_errors_only E →
  let run := send_images E urls referer w in
  let groups := chunks 10 (omap (image_payload E referer) urls) in
  run_result run = Ok tt
  ∧ Forall (fun g => 1 ≤ length g ≤ 10) groups
  ∧ concat groups = omap (image_payload E referer) urls
  ∧ (∃ ks, Forall2 (fun k _ => 1 ≤ k ≤ 3) ks groups
           ∧ sent_groups (run_trace run) = concat (zip_with replicate ks groups))
  ∧ (always_accepts E → sent_groups (run_trace run) = groups)
  ∧ downloads (run_trace run) = (fun u => (u, bool_decide (downloaded E referer u))) <$> urls
  ∧ adds (run_trace run) = filter (downloaded E referer) urls
  ∧ SENT_MEDIA_URLS (run_world run)
    = SENT_MEDIA_URLS w ∪ list_to_set (filter (downloaded E referer) urls)
  ∧ (length urls = 25 → Forall (downloaded E referer) urls →
     Forall (fun u => Py.endswith (Py.lower u) ".webp" = false) urls →
     length <$> groups = [10; 10; 5]
     ∧ (∃ k1 k2 k3, 1 ≤ k1 ≤ 3 ∧ 1 ≤ k2 ≤ 3 ∧ 1 ≤ k3 ≤ 3
          ∧ length <$> sent_groups (run_trace run)
            = replicate k1 10 ++ replicate k2 10 ++ replicate k3 5)
     ∧ (always_accepts E → length <$> sent_groups (run_trace run) = [10; 10; 5])).
Proof.
  intros Hcancel Hchannel run groups.
  destruct (send_images_groups E urls referer w Hcancel Hchannel)
    as (Hres & Hsizes & Hcat & (ks & Hks & Hsent) & Hacc & Hdown & Hadds & Hled & H25).
  fold run groups in Hres, Hsizes, Hcat, Hks, Hsent, Hacc, Hdown, Hadds, Hled, H25.
  do 3 (split; [done|]). split; [by exists ks|]. do 4 (split; [done|]).
  intros Hlen Hd Hw. specialize (H25 Hlen Hd Hw). split; [done|]. split.
  - rewrite Hsent. clear Hsent Hacc.
    destruct groups as [|g1 [|g2 [|g3 [|]]]]; try discriminate.
    injection H25 as H1 H2 H3.
    apply Forall2_cons_inv_r in Hks as (k1 & ks1 & Hk1 & Hks & ->).
    apply Forall2_cons_inv_r in Hks as (k2 & ks2 & Hk2 & Hks & ->).
    apply Forall2_cons_inv_r in Hks as (k3 & ks3 & Hk3 & Hks & ->).
    apply Forall2_nil_inv_r in Hks as ->.
    exists k1, k2, k3. do 3 (split; [done|]).
    cbn [zip_with concat]. rewrite app_nil_r, !fmap_app, !fmap_replicate.
    by rewrite H1, H2, H3.
  - intros Ha. by rewrite (Hacc Ha).
Qed.

(** ** Delivery and the ledger *)

Lemma ledger_grows_compositional : compositional ledger_grows.
Proof.
  split.
  - intros w. unfold ledger_grows. cbn. by rewrite (right_id_L ∅ (∪)).
  - intros w1 w2 w3 t1 t2 (H1 & ? & ?) (H2 & ? & ?). unfold ledger_grows.
    rewrite adds_app, list_to_set_app_L, H2, H1, (assoc_L (∪)). repeat split; lia.
Qed.

Lemma adds_follow_downloads_app referer t1 t2 :
  adds_follow_downloads referer t1 → adds_follow_downloads referer t2 →
  adds_follow_downloads referer (t1 ++ t2).
Proof.
  intros H1 H2 i u Hi. destruct (decide (i < length t1)) as [Hlt|Hge].
  - rewrite lookup_app_l in Hi by done. destruct (H1 i u Hi) as (j & -> & Hj).
    exists j. split; [done|]. rewrite lookup_app_l by lia. done.
  - rewrite lookup_app_r in Hi by lia. destruct (H2 _ u Hi) as (j & Hij & Hj).
    exists (length t1 + j). split; [lia|].
    rewrite lookup_app_r by lia. by replace (length t1 + j - length t1) with j by lia.
Qed.

Lemma channel_steps_no_add referer t :
  Forall channel_step t → adds_follow_downloads referer t.
Proof.
  intros Ht i u Hi. eapply Forall_lookup_1 in Ht; [|exact Hi]. done.
Qed.

Lemma channel_steps_adds t : Forall channel_step t → adds t = [].
Proof.
  induction 1 as [|e t He _ IH]; [done|]. destruct e; try done.
Qed.

Lemma attempt_step_channel m p e : attempt_step m p e → channel_step e.
Proof. by destruct e. Qed.

(** The retry wrapper only talks to the channel, always about the same
    payload. *)
Lemma send_attempts_channel_steps E m attempts : ∀ kw w,
  Forall (attempt_step m (payload kw)) (run_trace (send_attempts E attempts m kw w))
  ∧ SENT_MEDIA_URLS (run_world (send_attempts E attempts m kw w)) = SENT_MEDIA_URLS w
  ∧ polls (run_world (send_attempts E attempts m kw w)) = polls w
  ∧ sends w ≤ sends (run_world (send_attempts E attempts m kw w))
  ∧ run_result (send_attempts E attempts m kw w) ≠ Raise CancelledError.
Proof.
  induction attempts as [|a rest IH]; intros kw w.
  - cbn. repeat split; try done; try constructor.
  - rewrite send_attempts_cons. cbn zeta.
    assert (∀ n, attempt_step m (payload kw) (Sleep n)) as Hsleep by done.
    assert (∀ o, attempt_step m (payload kw) (Send m (reset_file_pointers kw) o)) as Hsend.
    { intros o. split; [done|apply payload_reset]. }
    pose proof (IH (read_val (consumed (channel E (sends w) m (reset_file_pointers kw)))
                      <$> reset_file_pointers kw) (attempted w)) as IH'.
    rewrite payload_read, payload_reset in IH'.
    destruct (send_attempts E rest m _ (attempted w)) as [[r w2] t].
    unfold run_trace, run_world, run_result in *. cbn [fst snd] in *.
    destruct IH' as (Ht & Hl & Hp & Hs & Hr). cbn [attempted sends polls SENT_MEDIA_URLS] in *.
    destruct (outcome _); [|..|]; try case_bool_decide; cbn [fst snd attempted sends polls SENT_MEDIA_URLS].
    all: split; [repeat (apply Forall_cons_2; [auto|]); auto using Forall_nil_2|].
    all: repeat split; try done; try lia.
Qed.

Lemma send_with_retry_attempt_steps E m kw w :
  Forall (attempt_step m (payload kw)) (run_trace (_send_with_retry E m kw w)).
Proof. apply send_attempts_channel_steps. Qed.

Lemma send_with_retry_channel_steps E m kw w :
  Forall channel_step (run_trace (_send_with_retry E m kw w))
  ∧ SENT_MEDIA_URLS (run_world (_send_with_retry E m kw w)) = SENT_MEDIA_URLS w
  ∧ polls (run_world (_send_with_retry E m kw w)) = polls w
  ∧ sends w ≤ sends (run_world (_send_with_retry E m kw w))
  ∧ run_result (_send_with_retry E m kw w) ≠ Raise CancelledError.
Proof.
  destruct (send_attempts_channel_steps E m (seq 0 3) kw w) as (H & ?).
  split; [|done]. eapply Forall_impl; [exact H|]. apply attempt_step_channel.
Qed.

Lemma send_with_retry_ledger_grows E m kw : keeps ledger_grows (_send_with_retry E m kw).
Proof.
  intros w. destruct (send_with_retry_channel_steps E m kw w) as (Ht & Hl & Hp & Hs & _).
  unfold ledger_grows. rewrite (channel_steps_adds _ Ht), Hl, Hp.
  split; [by rewrite list_to_set_nil, (right_id_L ∅ (∪))|]. split; [lia|exact Hs].
Qed.

(** ** The extractor *)

(** *** [append_new] builds [uniq] *)

Lemma mem_true x l : Py.mem x l = true ↔ x ∈ l.
Proof. unfold Py.mem. by rewrite bool_decide_eq_true. Qed.

Lemma append_new_in x l : x ∈ l → append_new x l = l.
Proof. intros H. unfold append_new. by rewrite (proj2 (mem_true x l) H). Qed.

Lemma append_new_notin x l : x ∉ l → append_new x l = l ++ [x].
Proof.
  intros H. unfold append_new. destruct (Py.mem x l) eqn:Hm; [|done].
  by apply mem_true in Hm.
Qed.

Lemma filter_all {A} (P : A → Prop) `{∀ x, Decision (P x)} (l : list A) :
  Forall P l → filter P l = l.
Proof.
  induction 1 as [|x l Hx _ IH]; [done|]. by rewrite filter_cons_True, IH.
Qed.

Lemma filter_notin_cons (acc : list string) x (l : list string) :
  x ∈ acc →
  filter (fun y => y ∉ acc) (filter (fun y => y ≠ x) l) = filter (fun y => y ∉ acc) l.
Proof.
  intros Hx. induction l as [|y l IH]; [done|].
  destruct (decide (y = x)) as [->|Hne].
  - rewrite (filter_cons_False (fun y => y ≠ x)) by (by intros ?).
    rewrite (filter_cons_False (fun y => y ∉ acc)) by (by intros ?). done.
  - rewrite (filter_cons_True (fun y => y ≠ x)) by done.
    destruct (decide (y ∈ acc)).
    + rewrite !(filter_cons_False (fun y => y ∉ acc)) by (by intros ?). done.
    + rewrite !(filter_cons_True (fun y => y ∉ acc)) by done. by rewrite IH.
Qed.

Lemma filter_notin_snoc (acc : list string) x (l : list string) :
  filter (fun y => y ∉ acc ++ [x]) l
  = filter (fun y => y ∉ acc) (filter (fun y => y ≠ x) l).
Proof.
  induction l as [|y l IH]; [done|].
  destruct (decide (y = x)) as [->|Hne].
  - rewrite (filter_cons_False (fun y => y ≠ x)) by (by intros ?).
    rewrite filter_cons_False; [done|].
    rewrite elem_of_app, list_elem_of_singleton. tauto.
  - rewrite (filter_cons_True (fun y => y ≠ x)) by done.
    destruct (decide (y ∈ acc)).
    + rewrite (filter_cons_False (fun y => y ∉ acc)) by (by intros ?).
      rewrite filter_cons_False; [done|].
      rewrite elem_of_app, list_elem_of_singleton. tauto.
    + rewrite (filter_cons_True (fun y => y ∉ acc)) by done.
      rewrite filter_cons_True; [by rewrite IH|].
      rewrite elem_of_app, list_elem_of_singleton. tauto.
Qed.

Lemma foldl_append_new l : ∀ acc,
  foldl (fun acc x => append_new x acc) acc l = acc ++ filter (fun y => y ∉ acc) (uniq l).
Proof.
  induction l as [|x l IH]; intros acc; cbn [foldl uniq].
  - by rewrite app_nil_r.
  - rewrite IH. destruct (decide (x ∈ acc)) as [Hin|Hnotin].
    + rewrite append_new_in by done.
      rewrite filter_cons_False by (by intros ?). by rewrite filter_notin_cons.
    + rewrite append_new_notin by done.
      rewrite filter_cons_True by done. rewrite <- app_assoc. cbn.
      by rewrite filter_notin_snoc.
Qed.

Lemma foldl_append_new_nil l : foldl (fun acc x => append_new x acc) [] l = uniq l.
Proof.
  rewrite foldl_append_new. cbn. apply filter_all.
  apply Forall_forall. intros y _. apply not_elem_of_nil.
Qed.

Lemma uniq_elem_of x l : x ∈ uniq l ↔ x ∈ l.
Proof.
  induction l as [|y l IH]; [done|]. cbn.
  rewrite !elem_of_cons, list_elem_of_filter, IH.
  destruct (decide (x = y)); naive_solver.
Qed.

Lemma uniq_NoDup l : NoDup (uniq l).
Proof.
  induction l as [|y l IH]; cbn; [constructor|].
  constructor; [|by apply NoDup_filter].
  rewrite list_elem_of_filter. naive_solver.
Qed.

Lemma uniq_id l : NoDup l → uniq l = l.
Proof.
  induction 1 as [|x l Hx Hl IH]; [done|]. cbn. rewrite IH. f_equal.
  apply filter_all, Forall_forall. intros y Hy ->. done.
Qed.

(** *** The scan of a page builds the per-kind lists *)

Lemma visit_link_candidate U url link m :
  visit_link U url link m
  = (if readable U url link then add_link_media U url m link else m, readable U url link).
Proof.
  unfold visit_link, readable, add_link_media, candidate, add_candidate, kind_of, is_ignored.
  destruct (urljoin U url link) as [full_url|]; [|done].
  destruct (Py.any _ IGNORED_MEDIA_PATTERNS); [done|]. cbn [orb].
  destruct (urlparse U full_url) as [parsed|]; [|done]. cbn zeta.
  destruct (Py.any _ image_exts); [done|].
  destruct (Py.endswith _ ".gif"); [done|].
  by destruct (Py.any _ video_exts).
Qed.

Lemma for_each_ext {A S} (f g : S → A → S * bool) (l : list A) :
  (∀ s x, f s x = g s x) → ∀ s, for_each f s l = for_each g s l.
Proof.
  intros Hfg. induction l as [|x l IH]; intros s; [done|]. cbn. rewrite Hfg.
  destruct (g s x) as [s' []]; [apply IH|done].
Qed.

Lemma for_each_app {A S} (f : S → A → S * bool) (l1 l2 : list A) : ∀ s,
  for_each f s (l1 ++ l2)
  = (let (s', ok) := for_each f s l1 in if ok then for_each f s' l2 else (s', false)).
Proof.
  induction l1 as [|x l1 IH]; intros s; cbn; [done|].
  destruct (f s x) as [s' []]; [apply IH|done].
Qed.

Lemma for_each_omap {A B S} (f : S → B → S * bool) (h : A → option B) (l : list A) : ∀ s,
  for_each (fun s x => match h x with Some y => f s y | None => (s, true) end) s l
  = for_each f s (omap h l).
Proof.
  induction l as [|x l IH]; intros s; [done|]. cbn.
  destruct (h x) as [y|]; cbn; [|apply IH].
  destruct (f s y) as [s' []]; [apply IH|done].
Qed.

Lemma for_each_bind {A B S} (f : S → B → S * bool) (g : A → list B) (l : list A) : ∀ s,
  for_each (fun s x => for_each f s (g x)) s l = for_each f s (l ≫= g).
Proof.
  induction l as [|x l IH]; intros s; [done|].
  cbn. rewrite for_each_app.
  destruct (for_each f s (g x)) as [s' []]; [apply IH|done].
Qed.

(** A loop that stops at the first element failing a test has done the
    elements before it. *)
Lemma for_each_take_while {A S} (f : S → A → S) (ok : A → bool) (l : list A) : ∀ s,
  for_each (fun s x => (if ok x then f s x else s, ok x)) s l
  = (foldl f s (take_while ok l), forallb ok l).
Proof.
  induction l as [|x l IH]; intros s; [done|]. cbn.
  destruct (ok x); [apply IH|done].
Qed.

Lemma foldl_ext {A B} (f g : A → B → A) (l : list B) :
  (∀ a x, f a x = g a x) → ∀ a, foldl f a l = foldl g a l.
Proof.
  intros Hfg. induction l as [|x l IH]; intros a; [done|]. cbn. by rewrite Hfg, IH.
Qed.

Lemma foldl_omap {A B C} (f : A → C → A) (h : B → option C) (l : list B) : ∀ a,
  foldl (fun a x => match h x with Some y => f a y | None => a end) a l
  = foldl f a (omap h l).
Proof.
  induction l as [|x l IH]; intros a; [done|]. cbn. rewrite IH. by destruct (h x).
Qed.

Lemma scan_tags_candidates U url soup :
  scan_tags U url soup
  = (foldl (add_candidate U) no_media (page_candidates U url soup),
     scan_completes U url soup).
Proof.
  unfold scan_tags, page_candidates, links_read, scan_completes, page_links.
  rewrite (for_each_ext (visit_tag U url)
             (fun m tag => for_each (fun m link => visit_link U url link m) m (tag_links tag))).
  2:{ intros m tag. unfold visit_tag, tag_links.
      rewrite <- for_each_omap. apply for_each_ext. intros m' attr.
      by destruct (nonempty (tag_get tag attr)). }
  rewrite for_each_bind.
  rewrite (for_each_ext _ (fun m link =>
             (if readable U url link then add_link_media U url m link else m,
              readable U url link))) by (intros; apply visit_link_candidate).
  rewrite for_each_take_while. f_equal.
  unfold add_link_media. apply foldl_omap.
Qed.

Lemma foldl_add_candidate U l : ∀ m,
  foldl (add_candidate U) m l
  = {| images := foldl (fun acc x => append_new x acc) (images m) (of_kind U Image l);
       videos := foldl (fun acc x => append_new x acc) (videos m) (of_kind U Video l);
       gifs := foldl (fun acc x => append_new x acc) (gifs m) (of_kind U Gif l) |}.
Proof.
  induction l as [|x l IH]; intros m; [by destruct m|].
  cbn [foldl]. rewrite IH. unfold of_kind, add_candidate.
  destruct (kind_of U x) as [[]|] eqn:Hk.
  - rewrite (filter_cons_True (fun u => kind_of U u = Some Image)) by done.
    rewrite !(filter_cons_False _ x) by congruence. done.
  - rewrite (filter_cons_True (fun u => kind_of U u = Some Gif)) by done.
    rewrite !(filter_cons_False _ x) by congruence. done.
  - rewrite (filter_cons_True (fun u => kind_of U u = Some Video)) by done.
    rewrite !(filter_cons_False _ x) by congruence. done.
  - rewrite !(filter_cons_False _ x) by congruence. done.
Qed.

Lemma scan_tags_uniq U url soup :
  scan_tags U url soup
  = ({| images := uniq (of_kind U Image (page_candidates U url soup));
        videos := uniq (of_kind U Video (page_candidates U url soup));
        gifs := uniq (of_kind U Gif (page_candidates U url soup)) |},
     scan_completes U url soup).
Proof. rewrite scan_tags_candidates, foldl_add_candidate. cbn. by rewrite !foldl_append_new_nil. Qed.

(** *** The embed resolver and the scan of the iframes *)

Lemma scrape_embedded_video_run U E embed_url referer w :
  scrape_embedded_video U E embed_url referer w
  = (Ok (resolve_embed U E embed_url referer), w,
     [GetEmbed embed_url referer (bool_decide (is_Some (get_text E embed_url referer)))]).
Proof.
  unfold scrape_embedded_video, resolve_embed.
  destruct (get_text E embed_url referer) as [text|]; [|done].
  destruct (first_match embed_patterns text) as [video_url|]; [|done].
  by destruct (urljoin U embed_url video_url).
Qed.

Lemma scan_iframes_run U E url iframes : ∀ m w,
  let srcs := omap (fun iframe => nonempty (tag_get iframe "src")) iframes in
  let joins := fun src => bool_decide (is_Some (joined U url src)) in
  let embeds := omap (joined U url) (take_while joins srcs) in
  scan_iframes U E url iframes m w
  = (Ok ({| images := images m;
            videos := foldl (fun acc x => append_new x acc) (videos m)
                        (omap (fun embed_url => nonempty (resolve_embed U E embed_url url))
                              embeds);
            gifs := gifs m |},
         forallb joins srcs),
     w,
     (fun embed_url =>
        GetEmbed embed_url url (bool_decide (is_Some (get_text E embed_url url))))
     <$> embeds).
Proof.
  cbn zeta. induction iframes as [|iframe rest IH]; intros m w; [by destruct m|].
  cbn [scan_iframes omap list_omap].
  destruct (nonempty (tag_get iframe "src")) as [src|]; [|apply IH].
  cbn [take_while forallb].
  destruct (urljoin U url src) as [embed_url|msg] eqn:Hjoin.
  - assert (joined U url src = Some embed_url) as Hj by (unfold joined; by rewrite Hjoin).
    rewrite Hj, bool_decide_eq_true_2 by eauto. cbn [omap list_omap andb]. rewrite Hj.
    cbn [omap list_omap fmap list_fmap].
    erewrite bind_ok by apply scrape_embedded_video_run.
    destruct (nonempty (resolve_embed U E embed_url url)) as [v|];
      rewrite IH; unfold prepend; cbn; done.
  - assert (joined U url src = None) as Hj by (unfold joined; by rewrite Hjoin).
    rewrite Hj, bool_decide_eq_false_2 by (by intros [??]). by destruct m.
Qed.

(** The extractor computes [page_media] and [page_next], changes nothing
    in the world and makes the fetches of [page_fetches]. *)
Lemma extract_media_from_page_run U E url w :
  extract_media_from_page U E url w
  = (Ok (page_media U E url, None, page_next U E url), w, page_fetches U E url).
Proof.
  unfold extract_media_from_page, page_media, found_media, page_next, page_fetches.
  destruct (get_soup E url) as [soup|]; [|done].
  erewrite bind_ok by reflexivity. cbv beta.
  rewrite scan_tags_uniq.
  unfold embed_videos, embed_fetches, embeds_read, iframes_complete, iframe_srcs.
  destruct (scan_completes U url soup); cbn [andb].
  - erewrite bind_ok by apply scan_iframes_run.
    unfold prepend, ret. cbn [fst snd images videos gifs]. rewrite app_nil_r.
    by rewrite <- (foldl_append_new_nil (of_kind U Video _)), <- foldl_app,
         foldl_append_new_nil.
  - unfold prepend, ret. cbn. by rewrite !app_nil_r.
Qed.

Lemma uniq_sublist l : uniq l `sublist_of` l.
Proof.
  induction l as [|x l IH]; cbn; [constructor|].
  apply sublist_skip. etrans; [apply sublist_filter|done].
Qed.

Lemma NoDup_take_uniq n l : NoDup (take n (uniq l)).
Proof. exact (sublist_NoDup _ _ (uniq_NoDup l) (sublist_take (uniq l) n)). Qed.

Lemma take_while_all {A} (ok : A → bool) (l : list A) :
  Forall (fun x => ok x = true) l → take_while ok l = l.
Proof. induction 1 as [|x l Hx _ IH]; cbn; [done|]. by rewrite Hx, IH. Qed.

Lemma take_while_stop {A} (ok : A → bool) (l1 l2 : list A) (x : A) :
  Forall (fun x => ok x = true) l1 → ok x = false →
  take_while ok (l1 ++ x :: l2) = l1 ∧ forallb ok (l1 ++ x :: l2) = false.
Proof.
  intros Hl1 Hx. induction Hl1 as [|y l1 Hy _ [IH1 IH2]]; cbn.
  - by rewrite Hx.
  - by rewrite Hy, IH1, IH2.
Qed.

(** C7. The extractor never fails; each of its lists is capped (50
    images, 20 videos, 10 gifs) and free of duplicates; and each list is
    the start of the page's candidates of that kind in discovery order,
    every candidate kept at its first occurrence only (for videos: the
    direct links, then the resolved embeds).  In particular a page whose
    image candidates are at least 50 distinct URLs, 1000 say, yields
    exactly the first 50 of them.  The candidates are those of all the
    links of the page when none of them makes [urljoin] or [urlparse]
    raise; otherwise they are those of the links before the first such
    link, and neither an embedded video nor a next page is returned. *)
Theorem extract_media_caps (U : UrlLib) (E : Env) (url : string) (w : World) :
  ∃ media next,
    run_result (extract_media_from_page U E url w) = Ok (media, None, next)
    ∧ length (images media) ≤ 50 ∧ length (videos media) ≤ 20 ∧ length (gifs media) ≤ 10
    ∧ NoDup (images media) ∧ NoDup (videos media) ∧ NoDup (gifs media)
    ∧ (get_soup E url = None → media = no_media)
    ∧ (∀ soup, get_soup E url = Some soup →
         let c := page_candidates U url soup in
         images media = take 50 (uniq (of_kind U Image c))
         ∧ videos media = take 20 (uniq (of_kind U Video c ++ embed_videos U E url soup))
         ∧ gifs media = take 10 (uniq (of_kind U Gif c))
         ∧ images media `sublist_of` of_kind U Image c
         ∧ gifs media `sublist_of` of_kind U Gif c
         ∧ (NoDup (of_kind U Image c) → 50 ≤ length (of_kind U Image c) →
            images media = take 50 (of_kind U Image c))
         ∧ (Forall (fun link => readable U url link = true) (page_links soup) →
            c = omap (candidate U url) (page_links soup))
         ∧ (∀ l1 link l2,
              page_links soup = l1 ++ link :: l2 →
              Forall (fun link => readable U url link = true) l1 →
              readable U url link = false →
              c = omap (candidate U url) l1
              ∧ embed_videos U E url soup = [] ∧ next = None)).
Proof.
  exists (page_media U E url), (page_next U E url).
  rewrite extract_media_from_page_run. split; [done|].
  unfold page_media, page_next, found_media, limit.
  destruct (get_soup E url) as [soup|]; cbn [images videos gifs].
  - rewrite !length_take.
    do 3 (split; [lia|]).
    do 3 (split; [apply NoDup_take_uniq|]).
    split; [done|].
    intros soup' [= <-]. cbn zeta.
    do 3 (split; [done|]).
    do 2 (split; [etrans; [apply sublist_take|apply uniq_sublist]|]).
    split; [intros Hnd _; by rewrite uniq_id|].
    unfold page_candidates, links_read. split.
    + intros Hall. by rewrite take_while_all.
    + intros l1 link l2 Hlinks Hl1 Hlink.
      destruct (take_while_stop (readable U url) l1 l2 link Hl1 Hlink) as [Htake Hall].
      unfold embed_videos, embeds_read, iframes_complete, scan_completes.
      by rewrite Hlinks, Htake, Hall.
  - cbn. do 3 (split; [lia|]). do 3 (split; [constructor|]). done.
Qed.

(** ** What a pattern can match *)

Lemma append_cons c (a b : string) : String c a +:+ b = String c (a +:+ b).
Proof. reflexivity. Qed.

Lemma append_nil_l (b : string) : "" +:+ b = b.
Proof. reflexivity. Qed.

Lemma string_of_list_ascii_app (a b : list ascii) :
  string_of_list_ascii (a ++ b) = string_of_list_ascii a +:+ string_of_list_ascii b.
Proof. induction a as [|c a IH]; [done|]. cbn [app string_of_list_ascii]. by rewrite IH. Qed.

Lemma list_ascii_of_string_app (a b : string) :
  list_ascii_of_string (a +:+ b) = list_ascii_of_string a ++ list_ascii_of_string b.
Proof.
  induction a as [|c a IH]; [done|]. rewrite append_cons. cbn [list_ascii_of_string app].
  by rewrite IH.
Qed.

Lemma repeat_go_sound {R} icase (greedy : bool) (r : Re.regex)
    (star : Re.regex) (k : list ascii → option (list ascii) → option R) :
  (∀ b, matches icase star [] ∧
        ∀ a, matches icase r a → matches icase star b → matches icase star (a ++ b)) →
  (∀ s cap (k' : list ascii → option (list ascii) → option R) res,
     Re.rmatch icase r s cap k' = Some res →
     ∃ m s' cap', s = m ++ s' ∧ matches icase r m ∧ k' s' cap' = Some res
                  ∧ (groupless r = true → cap' = cap)) →
  ∀ fuel s cap res,
    Re.repeat_go greedy (Re.rmatch icase r) k fuel s cap = Some res →
    ∃ m s' cap', s = m ++ s' ∧ matches icase star m ∧ k s' cap' = Some res
                 ∧ (groupless r = true → cap' = cap).
Proof.
  intros Hstar IH. induction fuel as [|fuel IHf]; intros s cap res H.
  - cbn in H. exists [], s, cap. split; [done|]. split; [apply (Hstar [])|done].
  - cbn [Re.repeat_go] in H.
    assert (∀ res',
      Re.rmatch icase r s cap
        (fun s' cap' => if (length s' <? length s)%nat
                        then Re.repeat_go greedy (Re.rmatch icase r) k fuel s' cap'
                        else None) = Some res' →
      ∃ m s' cap', s = m ++ s' ∧ matches icase star m ∧ k s' cap' = Some res'
                   ∧ (groupless r = true → cap' = cap)) as Hmore.
    { intros res' Hm. apply IH in Hm as (m1 & s1 & cap1 & -> & Hm1 & Hk1 & Hc1).
      destruct (length s1 <? length (m1 ++ s1))%nat; [|done].
      apply IHf in Hk1 as (m2 & s2 & cap2 & -> & Hm2 & Hk2 & Hc2).
      exists (m1 ++ m2), s2, cap2. split; [by rewrite app_assoc|].
      split; [by apply Hstar|]. split; [done|].
      intros Hg. by rewrite Hc2, Hc1. }
    assert (∀ res', k s cap = Some res' →
      ∃ m s' cap', s = m ++ s' ∧ matches icase star m ∧ k s' cap' = Some res'
                   ∧ (groupless r = true → cap' = cap)) as Hstop.
    { intros res' Hk. exists [], s, cap. split; [done|]. split; [apply (Hstar [])|done]. }
    destruct greedy; unfold Re.orelse in H.
    + destruct (Re.rmatch icase r s cap _) as [res'|] eqn:Hm.
      * injection H as <-. by apply Hmore.
      * by apply Hstop.
    + destruct (k s cap) as [res'|] eqn:Hk.
      * injection H as <-. by apply Hstop.
      * by apply Hmore.
Qed.

(** The matcher is sound: when it succeeds, it has split its input into
    a match of the pattern and a rest on which the continuation
    succeeded, with the group it was given when the pattern has none. *)
Lemma rmatch_sound_cap {R} icase (r : Re.regex) :
  ∀ s cap (k : list ascii → option (list ascii) → option R) res,
    Re.rmatch icase r s cap k = Some res →
    ∃ m s' cap', s = m ++ s' ∧ matches icase r m ∧ k s' cap' = Some res
                 ∧ (groupless r = true → cap' = cap).
Proof.
  induction r as [|cc|r1 IH1 r2 IH2|r1 IH1 r2 IH2|r1 IH1|r1 IH1|r1 IH1|];
    intros s cap k res H; cbn [Re.rmatch] in H; cbn [groupless].
  - exists [], s, cap. split; [done|]. split; [constructor|done].
  - destruct s as [|x s]; [done|]. destruct (Re.cmatch icase cc x) eqn:Hx; [|done].
    exists [x], s, cap. split; [done|]. split; [by constructor|done].
  - apply IH1 in H as (m1 & s1 & cap1 & -> & Hm1 & H & Hc1).
    apply IH2 in H as (m2 & s2 & cap2 & -> & Hm2 & H & Hc2).
    exists (m1 ++ m2), s2, cap2. split; [by rewrite app_assoc|].
    split; [by constructor|]. split; [done|].
    intros [Hg1 Hg2]%andb_true_iff. by rewrite Hc2, Hc1.
  - unfold Re.orelse in H. destruct (Re.rmatch icase r1 s cap k) as [res'|] eqn:H1.
    + injection H as <-. apply IH1 in H1 as (m & s' & cap' & -> & Hm & Hk & Hc).
      exists m, s', cap'. split; [done|]. split; [by apply matches_Alt_l|].
      split; [done|]. intros [Hg1 Hg2]%andb_true_iff. auto.
    + apply IH2 in H as (m & s' & cap' & -> & Hm & Hk & Hc).
      exists m, s', cap'. split; [done|]. split; [by apply matches_Alt_r|].
      split; [done|]. intros [Hg1 Hg2]%andb_true_iff. auto.
  - eapply (repeat_go_sound icase true r1 (Re.Star r1)); [|exact IH1|exact H].
    intros b. split; [constructor|]. intros a Ha Hb. by constructor.
  - eapply (repeat_go_sound icase false r1 (Re.LazyStar r1)); [|exact IH1|exact H].
    intros b. split; [constructor|]. intros a Ha Hb. by constructor.
  - apply IH1 in H as (m & s' & cap' & -> & Hm & Hk & _).
    exists m, s', (Some (take (length (m ++ s') - length s') (m ++ s'))).
    split; [done|]. split; [by constructor|done].
  - destruct s as [|c [|]]; [| |done].
    + exists [], [], cap. split; [done|]. split; [constructor|done].
    + case_bool_decide; [|done]. exists [], [c], cap. split; [done|].
      split; [constructor|done].
Qed.

Lemma rmatch_sound {R} icase (r : Re.regex) :
  ∀ s cap (k : list ascii → option (list ascii) → option R) res,
    Re.rmatch icase r s cap k = Some res →
    ∃ m s' cap', s = m ++ s' ∧ matches icase r m ∧ k s' cap' = Some res.
Proof.
  intros s cap k res H. apply rmatch_sound_cap in H as (m & s' & cap' & Hs & Hm & Hk & _).
  by exists m, s', cap'.
Qed.

(** What is searched is found somewhere in the text. *)
Lemma search_from_sound p : ∀ s cap rest,
  Re.search_from p s = Some (cap, rest) →
  ∃ before s', s = before ++ s' ∧ Re.match_here p s' = Some (cap, rest).
Proof.
  induction s as [|x s IH]; intros cap rest H; cbn [Re.search_from] in H;
    unfold Re.orelse in H.
  - destruct (Re.match_here p []) as [res|] eqn:Hm; [|done].
    injection H as ->. by exists [], [].
  - destruct (Re.match_here p (x :: s)) as [res|] eqn:Hm.
    + injection H as ->. by exists [], (x :: s).
    + apply IH in H as (before & s' & -> & H). by exists (x :: before), s'.
Qed.

(** A pattern with its group between two parts that have none: the
    match is a match of the first part, the group, and a match of the
    last part. *)
Lemma search_group_sound (p : Re.pattern) icase (pre r post : Re.regex) (text g : string) :
  Re.anchored p = false →
  (∀ s, Re.match_here p s
        = Re.rmatch icase (Re.Seq pre (Re.Seq (Re.Group r) post)) s None
            (fun s' cap => Some (cap, s'))) →
  groupless pre = true → groupless post = true →
  Re.search p text = Some g →
  ∃ before a m b after,
    list_ascii_of_string text = before ++ a ++ m ++ b ++ after
    ∧ matches icase pre a ∧ matches icase r m ∧ matches icase post b
    ∧ g = string_of_list_ascii m.
Proof.
  intros Hanch Hbody Hpre Hpost. unfold Re.search. rewrite Hanch.
  destruct (Re.search_from _ _) as [[cap rest]|] eqn:Hs; [|done]. intros [= <-].
  apply search_from_sound in Hs as (before & s' & Htext & Hm).
  rewrite Hbody in Hm. cbn [Re.rmatch] in Hm.
  apply rmatch_sound_cap in Hm as (a & s1 & cap1 & -> & Ha & Hm & _).
  apply rmatch_sound_cap in Hm as (m & s2 & cap2 & -> & Hr & Hm & _).
  apply rmatch_sound_cap in Hm as (b & s3 & cap3 & -> & Hb & Hm & Hcap).
  injection Hm as <- <-. rewrite (Hcap Hpost).
  exists before, a, m, b, s3. split; [done|]. do 3 (split; [done|]).
  cbn [Re.group1]. f_equal. rewrite !length_app.
  replace (length m + (length b + length s3) - (length b + length s3)) with (length m) by lia.
  by rewrite take_app_length.
Qed.

(** A match of a pattern whose body is one group around [r]: the group
    is the match, and the rest is what follows it. *)
Lemma match_here_group icase r s cap rest :
  Re.match_here {| Re.body := Re.Group r; Re.anchored := false; Re.ignorecase := icase |} s
  = Some (cap, rest) →
  ∃ m, s = m ++ rest ∧ matches icase r m ∧ cap = Some m.
Proof.
  unfold Re.match_here. cbn [Re.body Re.ignorecase Re.rmatch]. intros H.
  apply rmatch_sound in H as (m & s' & cap' & -> & Hm & H).
  injection H as <- <-. exists m. split; [done|]. split; [done|].
  f_equal. rewrite length_app. replace (length m + length s' - length s') with (length m) by lia.
  by rewrite take_app_length.
Qed.

(** What [findall] returns for such a pattern: matches of [r] that
    stand in the text. *)
Lemma findall_go_group icase r g : ∀ fuel s,
  g ∈ Re.findall_go fuel
        {| Re.body := Re.Group r; Re.anchored := false; Re.ignorecase := icase |} s →
  ∃ before m after, s = before ++ m ++ after ∧ matches icase r m
                    ∧ g = string_of_list_ascii m.
Proof.
  induction fuel as [|fuel IH]; intros s Hg; cbn [Re.findall_go] in Hg.
  - by apply elem_of_nil in Hg.
  - assert (∀ x s', s = x :: s' →
              g ∈ Re.findall_go fuel
                    {| Re.body := Re.Group r; Re.anchored := false;
                       Re.ignorecase := icase |} s' →
              ∃ before m after, s = before ++ m ++ after ∧ matches icase r m
                                ∧ g = string_of_list_ascii m) as Hnext.
    { intros x s' -> Hin. apply IH in Hin as (before & m & after & -> & Hm & ->).
      exists (x :: before), m, after. done. }
    destruct (Re.match_here _ s) as [[cap rest]|] eqn:Hhere.
    + apply match_here_group in Hhere as (m & -> & Hm & ->).
      apply elem_of_cons in Hg as [->|Hg].
      * exists [], m, rest. done.
      * destruct (length rest <? length (m ++ rest))%nat.
        -- apply IH in Hg as (before & m' & after & -> & Hm' & ->).
           exists (m ++ before), m', after. split; [by rewrite <- app_assoc|done].
        -- destruct (m ++ rest) as [|x s'] eqn:Hs; [by apply elem_of_nil in Hg|].
           rewrite <- Hs. rewrite <- Hs in Hnext. by eapply Hnext.
    + destruct s as [|x s']; [by apply elem_of_nil in Hg|]. by eapply Hnext.
Qed.

Lemma matches_Lit icase : ∀ lit m,
  matches icase (Re.Lit lit) m →
  length m = String.length lit
  ∧ Forall2 (fun c x => Re.ceq icase c x = true) (list_ascii_of_string lit) m.
Proof.
  induction lit as [|c lit IH]; intros m H.
  - cbn in H. inversion H. done.
  - destruct lit as [|c' lit].
    + cbn in H. inversion H as [|cc x Hx| | | | | | | | |]; subst. cbn in Hx.
      split; [done|]. cbn. by repeat constructor.
    + change (Re.Lit (String c (String c' lit)))
        with (Re.Seq (Re.Chr (Re.CChar c)) (Re.Lit (String c' lit))) in H.
      inversion H as [| |r1 r2 a b Ha Hb| | | | | | | |]; subst.
      inversion Ha as [|cc x Hx| | | | | | | | |]; subst. cbn in Hx.
      apply IH in Hb as [Hlen Hall]. split; [cbn in *; lia|].
      cbn. constructor; done.
Qed.

(** With case respected, a literal matches itself only. *)
Lemma matches_Lit_exact lit m :
  matches false (Re.Lit lit) m → m = list_ascii_of_string lit.
Proof.
  intros H. apply matches_Lit in H as [_ H].
  induction H as [|c x l m Hc _ IH]; [done|].
  cbn in Hc. apply bool_decide_eq_true in Hc. by subst.
Qed.

Lemma matches_Star_Chr icase cc m :
  matches icase (Re.Star (Re.Chr cc)) m → Forall (fun x => Re.cmatch icase cc x = true) m.
Proof.
  intros H. remember (Re.Star (Re.Chr cc)) as r eqn:Hr.
  induction H as [| | | | | |r' a b Ha _ Hb IH| | | |]; try discriminate.
  - constructor.
  - injection Hr as ->. apply Forall_app. split; [|by apply IH].
    inversion Ha; subst. by repeat constructor.
Qed.

Lemma matches_Plus_Chr icase cc m :
  matches icase (Re.Plus (Re.Chr cc)) m →
  m ≠ [] ∧ Forall (fun x => Re.cmatch icase cc x = true) m.
Proof.
  unfold Re.Plus. intros H. inversion H as [| |r1 r2 a b Ha Hb| | | | | | | |]; subst.
  inversion Ha; subst. apply matches_Star_Chr in Hb. split; [done|].
  cbn. by constructor.
Qed.

Lemma isspace_spec c : Py.isspace c = true ↔ nat_of_ascii c ∈ white_space.
Proof.
  unfold Py.isspace, white_space. generalize (nat_of_ascii c). intros n.
  rewrite !orb_true_iff, !andb_true_iff, !Nat.leb_le, !Nat.eqb_eq.
  rewrite !elem_of_cons, elem_of_nil. lia.
Qed.

Lemma link_char_class c :
  Re.cmatch false (Re.CSet true true ["<"; ">"; dquote]%char) c = true ↔ is_link_char c.
Proof.
  unfold is_link_char. rewrite <- isspace_spec. cbn [Re.cmatch Re.ceq existsb].
  rewrite !not_elem_of_cons.
  destruct (Py.isspace c); cbn; [split; [done|by intros [? _]]|].
  repeat case_bool_decide; cbn; split; try done; try (intros (_ & ? & ? & ? & _); congruence).
  intros _. repeat split; try congruence. apply not_elem_of_nil.
Qed.

Lemma matches_LazyStar_Chr icase cc m :
  matches icase (Re.LazyStar (Re.Chr cc)) m → Forall (fun x => Re.cmatch icase cc x = true) m.
Proof.
  intros H. remember (Re.LazyStar (Re.Chr cc)) as r eqn:Hr.
  induction H as [| | | | | | | |r' a b Ha _ Hb IH| |]; try discriminate.
  - constructor.
  - injection Hr as ->. apply Forall_app. split; [|by apply IH].
    inversion Ha; subst. by repeat constructor.
Qed.

Lemma matches_Chr_exact c m : matches false (Re.Chr (Re.CChar c)) m → m = [c].
Proof.
  intros H. inversion H as [|cc x Hx| | | | | | | | |]; subst. cbn in Hx.
  apply bool_decide_eq_true in Hx. by subst.
Qed.

(** A search with a pattern that is one group around [r]. *)
Lemma search_whole_sound icase r text g :
  Re.search {| Re.body := Re.Group r; Re.anchored := false; Re.ignorecase := icase |} text
  = Some g →
  ∃ before m after,
    list_ascii_of_string text = before ++ m ++ after ∧ matches icase r m
    ∧ g = string_of_list_ascii m.
Proof.
  unfold Re.search. cbn [Re.anchored].
  destruct (Re.search_from _ _) as [[cap rest]|] eqn:Hs; [|done]. intros [= <-].
  apply search_from_sound in Hs as (before & s' & Htext & Hm).
  apply match_here_group in Hm as (m & -> & Hm & ->).
  by exists before, m, rest.
Qed.

Lemma chars_inj (a b : string) : list_ascii_of_string a = list_ascii_of_string b → a = b.
Proof.
  intros H. rewrite <- (string_of_list_ascii_of_string a), <- (string_of_list_ascii_of_string b).
  by rewrite H.
Qed.

(** ** The embed resolver *)

(** The first pattern that matches decides; later patterns are not
    consulted. *)
Lemma first_match_first patterns text : ∀ i pattern g,
  patterns !! i = Some pattern →
  Re.search pattern text = Some g →
  (∀ j p', j < i → patterns !! j = Some p' → Re.search p' text = None) →
  first_match patterns text = Some (Py.replace (Py.strip g) "\/" "/").
Proof.
  induction patterns as [|p ps IH]; intros i pattern g Hi Hg Hbefore; [done|].
  destruct i as [|i]; cbn in Hi; simplify_eq.
  - cbn. by rewrite Hg.
  - cbn. rewrite (Hbefore 0 p) by (done || lia).
    apply (IH i pattern g Hi Hg). intros j p' Hj Hp'.
    apply (Hbefore (S j) p'); [lia|done].
Qed.

Lemma first_match_none patterns text :
  (∀ p, p ∈ patterns → Re.search p text = None) → first_match patterns text = None.
Proof.
  induction patterns as [|p ps IH]; intros Hnone; [done|].
  cbn. rewrite Hnone by left. apply IH. intros p' Hp'. apply Hnone. by right.
Qed.

(** *** White space *)

Lemma rev_app_chars (a b : string) :
  list_ascii_of_string (String.rev_app a b)
  = reverse (list_ascii_of_string a) ++ list_ascii_of_string b.
Proof.
  revert b. induction a as [|c a IH]; intros b; [done|].
  cbn [String.rev_app list_ascii_of_string]. rewrite IH, reverse_cons, <- app_assoc. done.
Qed.

Lemma rev_chars (a : string) :
  list_ascii_of_string (String.rev a) = reverse (list_ascii_of_string a).
Proof. unfold String.rev. rewrite rev_app_chars. cbn. by rewrite app_nil_r. Qed.

Lemma string_rev_app (a b : string) :
  String.rev (a +:+ b) = String.rev b +:+ String.rev a.
Proof.
  apply chars_inj.
  by rewrite list_ascii_of_string_app, !rev_chars, list_ascii_of_string_app, reverse_app.
Qed.

Lemma string_rev_rev (a : string) : String.rev (String.rev a) = a.
Proof. apply chars_inj. by rewrite !rev_chars, reverse_involutive. Qed.

Lemma blank_rev (s : string) : blank s → blank (String.rev s).
Proof. unfold blank. rewrite rev_chars. apply Forall_reverse. Qed.

Lemma lstrip_blank (l x : string) : blank l → Py.lstrip (l +:+ x) = Py.lstrip x.
Proof.
  unfold blank. induction l as [|c l IH]; intros Hl; [done|].
  cbn [list_ascii_of_string] in Hl. apply Forall_cons in Hl as [Hc Hl].
  rewrite append_cons. cbn [Py.lstrip]. rewrite Hc. by apply IH.
Qed.

Lemma lstrip_first (v : string) :
  (∀ c r, v = String c r → Py.isspace c = false) → Py.lstrip v = v.
Proof. intros Hv. destruct v as [|c r]; [done|]. cbn. by rewrite (Hv c r). Qed.

Lemma append_nil_r (s : string) : s +:+ "" = s.
Proof. induction s as [|c s IH]; [done|]. by rewrite append_cons, IH. Qed.

Lemma append_assoc (a b c : string) : (a +:+ b) +:+ c = a +:+ (b +:+ c).
Proof. induction a as [|x a IH]; [done|]. by rewrite !append_cons, IH. Qed.

(** [strip] removes the white space around a text that has none at
    either end. *)
Lemma strip_spec (l v r : string) :
  blank l → blank r → trimmed v → Py.strip (l +:+ v +:+ r) = v.
Proof.
  intros Hl Hr [Hfirst Hlast]. unfold Py.strip. rewrite lstrip_blank by done.
  destruct v as [|c v'].
  - rewrite append_nil_l.
    rewrite <- (append_nil_r r), lstrip_blank by done. done.
  - rewrite (lstrip_first (String c v' +:+ r)).
    2:{ intros c' r' Heq. rewrite append_cons in Heq. injection Heq as <- _.
        by apply (Hfirst c v'). }
    rewrite string_rev_app, lstrip_blank by (by apply blank_rev).
    rewrite (lstrip_first (String.rev (String c v'))); [apply string_rev_rev|].
    intros c' r' Heq. apply (Hlast (String.rev r') c').
    rewrite <- (string_rev_rev (String c v')), Heq.
    change (String c' r') with ((String c' "") +:+ r').
    by rewrite string_rev_app.
Qed.

(** *** Unescaping *)

(** Enough fuel is as good as more. *)
Lemma replace_go_fuel old new : old ≠ "" → ∀ f1 f2 s,
  String.length s ≤ f1 → String.length s ≤ f2 →
  Py.replace_go f1 s old new = Py.replace_go f2 s old new.
Proof.
  intros Hold. induction f1 as [|f1 IH]; intros f2 s H1 H2.
  - destruct s; [|cbn in H1; lia]. by destruct f2.
  - destruct s as [|c r]; [by destruct f2|].
    destruct f2 as [|f2]; [cbn in H2; lia|].
    cbn [Py.replace_go]. destruct (String.prefix old (String c r)).
    + f_equal. destruct old as [|o old']; [done|]. cbn [String.length Py.skip].
      assert (∀ n s, String.length (Py.skip n s) ≤ String.length s) as Hskip.
      { induction n as [|n IHn]; intros [|??]; cbn; try lia. specialize (IHn s). lia. }
      pose proof (Hskip (String.length old') r). cbn in H1, H2. apply IH; lia.
    + f_equal. cbn in H1, H2. apply IH; lia.
Qed.

Lemma replace_go_step f c r old new :
  Py.replace_go (S f) (String c r) old new
  = if String.prefix old (String c r)
    then new +:+ Py.replace_go f (Py.skip (String.length old) (String c r)) old new
    else String c (Py.replace_go f r old new).
Proof. done. Qed.

Lemma prefix_escaped_slash (s : string) :
  String.prefix "\/" s = true → ∃ b, s = "\/" +:+ b.
Proof.
  destruct s as [|c1 [|c2 r]]; cbn [String.prefix]; try done.
  - by destruct (Ascii.ascii_dec "\" c1).
  - destruct (Ascii.ascii_dec "\" c1) as [<-|]; [|done].
    destruct (Ascii.ascii_dec "/" c2) as [<-|]; [|done]. by exists r.
Qed.

Lemma no_escaped_slash_cons c s :
  no_escaped_slash (String c s) → String.prefix "\/" (String c s) = false ∧ no_escaped_slash s.
Proof.
  intros Hs. split.
  - destruct (String.prefix "\/" (String c s)) eqn:Hp; [|done].
    apply prefix_escaped_slash in Hp as [b Hb]. by destruct (Hs "" b).
  - intros a b ->. by apply (Hs (String c a) b).
Qed.

(** A text without an escaped separator is left as it is. *)
Lemma replace_none (s : string) :
  no_escaped_slash s → Py.replace s "\/" "/" = s.
Proof.
  unfold Py.replace. induction s as [|c s IH]; intros Hs; [done|].
  apply no_escaped_slash_cons in Hs as [Hp Hs].
  cbn [String.length]. rewrite replace_go_step, Hp. f_equal. by apply IH.
Qed.

(** The first escaped separator becomes a plain slash, and the
    replacement goes on behind it. *)
Lemma replace_escaped_slash (a b : string) :
  no_escaped_slash a →
  Py.replace (a +:+ "\/" +:+ b) "\/" "/" = a +:+ "/" +:+ Py.replace b "\/" "/".
Proof.
  unfold Py.replace. induction a as [|c a IH]; intros Ha.
  - rewrite !append_nil_l, !append_cons, append_nil_l. cbn [String.length].
    rewrite replace_go_step.
    replace (String.prefix "\/" (String "\" (String "/" b))) with true by (by destruct b).
    rewrite append_cons, append_nil_l. f_equal. cbn [Py.skip String.length].
    apply replace_go_fuel; [done|lia..].
  - apply no_escaped_slash_cons in Ha as [Hp Ha].
    rewrite !(append_cons c). cbn [String.length]. rewrite replace_go_step.
    replace (String.prefix "\/" (String c (a +:+ "\/" +:+ b))) with false.
    2:{ symmetry. destruct (String.prefix "\/" (String c (a +:+ "\/" +:+ b))) eqn:Hp'; [|done].
        exfalso. apply prefix_escaped_slash in Hp' as [b' Hb'].
        rewrite !append_cons, append_nil_l in Hb'. injection Hb' as -> Hb'.
        destruct a as [|c' a]; [done|]. rewrite append_cons in Hb'. injection Hb' as -> _.
        cbn in Hp. by destruct a. }
    f_equal. by apply IH.
Qed.

(** *** What the patterns find *)

Lemma string_of_chars_eq (text : string) (l : list ascii) :
  list_ascii_of_string text = l → text = string_of_list_ascii l.
Proof. intros <-. by rewrite string_of_list_ascii_of_string. Qed.

(** Equality of texts, through their characters. *)
Ltac chars_norm :=
  rewrite ?list_ascii_of_string_app; cbn [list_ascii_of_string];
  rewrite ?list_ascii_of_string_app, ?list_ascii_of_string_of_list_ascii;
  cbn [list_ascii_of_string];
  repeat (rewrite <- ?app_assoc; cbn [app]); rewrite ?app_nil_r.

Ltac chars_eq H := apply chars_inj; rewrite ?H; chars_norm.

Lemma not_dquote_class (m : list ascii) :
  Forall (fun x => Re.cmatch false (Re.CSet true false [dquote]) x = true) m → dquote ∉ m.
Proof.
  intros Hm Hin. rewrite Forall_forall in Hm. specialize (Hm _ Hin).
  cbn in Hm. by rewrite bool_decide_eq_true_2 in Hm.
Qed.

Lemma matches_quoted_value (m : list ascii) :
  matches false (Re.Plus not_dquote) m → quoted_value (string_of_list_ascii m).
Proof.
  intros [Hne Hm]%matches_Plus_Chr. split; [by destruct m|].
  rewrite list_ascii_of_string_of_list_ascii. by apply not_dquote_class.
Qed.

Lemma space_class (m : list ascii) :
  Forall (fun x => Re.cmatch false Re.CSpace x = true) m → blank (string_of_list_ascii m).
Proof. intros Hm. unfold blank. by rewrite list_ascii_of_string_of_list_ascii. Qed.

Lemma pat_file_sound text g : Re.search pat_file text = Some g → embed_match 0 text g.
Proof.
  intros H.
  apply (search_group_sound pat_file false
           (Re.seqs [Re.Lit "file:"; Re.Star (Re.Chr Re.CSpace); Re.Chr (Re.CChar dquote)])
           (Re.Plus not_dquote) (Re.Chr (Re.CChar dquote))) in H; [|done..].
  destruct H as (before & a & m & b & after & Htext & Ha & Hm & Hb & ->).
  unfold Re.seqs in Ha. cbn [foldr] in Ha.
  inversion Ha as [| |? ? a1 b1 H1 Hb1| | | | | | | |]; subst; clear Ha.
  inversion Hb1 as [| |? ? a2 b2 H2 Hb2| | | | | | | |]; subst; clear Hb1.
  inversion Hb2 as [| |? ? a3 b3 H3 Hb3| | | | | | | |]; subst; clear Hb2.
  inversion Hb3; subst; clear Hb3.
  apply (matches_Lit_exact "file:") in H1. apply matches_Star_Chr in H2.
  apply matches_Chr_exact in H3, Hb. subst.
  exists (string_of_list_ascii before), (string_of_list_ascii a2), (string_of_list_ascii after).
  split; [|split; [by apply space_class|by apply matches_quoted_value]].
  unfold quoted. by chars_eq Htext.
Qed.

Lemma pat_source_sound text g : Re.search pat_source text = Some g → embed_match 1 text g.
Proof.
  intros H.
  apply (search_group_sound pat_source false
           (Re.seqs [Re.Lit "<source"; Re.Plus (Re.Chr Re.CSpace); Re.Lit "src=";
                     Re.Chr (Re.CChar dquote)])
           (Re.Plus not_dquote) (Re.Chr (Re.CChar dquote))) in H; [|done..].
  destruct H as (before & a & m & b & after & Htext & Ha & Hm & Hb & ->).
  unfold Re.seqs in Ha. cbn [foldr] in Ha.
  inversion Ha as [| |? ? a1 b1 H1 Hb1| | | | | | | |]; subst; clear Ha.
  inversion Hb1 as [| |? ? a2 b2 H2 Hb2| | | | | | | |]; subst; clear Hb1.
  inversion Hb2 as [| |? ? a3 b3 H3 Hb3| | | | | | | |]; subst; clear Hb2.
  inversion Hb3 as [| |? ? a4 b4 H4 Hb4| | | | | | | |]; subst; clear Hb3.
  inversion Hb4; subst; clear Hb4.
  apply (matches_Lit_exact "<source") in H1. apply matches_Plus_Chr in H2 as [Hne2 H2].
  apply (matches_Lit_exact "src=") in H3.
  apply matches_Chr_exact in H4, Hb. subst.
  exists (string_of_list_ascii before), (string_of_list_ascii a2), (string_of_list_ascii after).
  split; [|split; [by apply space_class|split; [by destruct a2|by apply matches_quoted_value]]].
  unfold quoted. by chars_eq Htext.
Qed.

Lemma pat_fileURL_sound text g : Re.search pat_fileURL text = Some g → embed_match 2 text g.
Proof.
  intros H.
  apply (search_group_sound pat_fileURL false
           (Re.seqs [Re.Chr (Re.CChar dquote); Re.Lit "fileURL"; Re.Chr (Re.CChar dquote);
                     Re.Lit ":"; Re.Chr (Re.CChar dquote)])
           (Re.Plus not_dquote) (Re.Chr (Re.CChar dquote))) in H; [|done..].
  destruct H as (before & a & m & b & after & Htext & Ha & Hm & Hb & ->).
  unfold Re.seqs in Ha. cbn [foldr] in Ha.
  inversion Ha as [| |? ? a1 b1 H1 Hb1| | | | | | | |]; subst; clear Ha.
  inversion Hb1 as [| |? ? a2 b2 H2 Hb2| | | | | | | |]; subst; clear Hb1.
  inversion Hb2 as [| |? ? a3 b3 H3 Hb3| | | | | | | |]; subst; clear Hb2.
  inversion Hb3 as [| |? ? a4 b4 H4 Hb4| | | | | | | |]; subst; clear Hb3.
  inversion Hb4 as [| |? ? a5 b5 H5 Hb5| | | | | | | |]; subst; clear Hb4.
  inversion Hb5; subst; clear Hb5.
  apply (matches_Lit_exact "fileURL") in H2. apply (matches_Lit_exact ":") in H4.
  apply matches_Chr_exact in H1, H3, H5, Hb. subst.
  exists (string_of_list_ascii before), (string_of_list_ascii after).
  split; [|by apply matches_quoted_value].
  unfold quoted. by chars_eq Htext.
Qed.

Lemma url_char_class (m : list ascii) :
  Forall (fun x => Re.cmatch false
                     (Re.CSet true true [dquote; "'"; "<"; ">"; "`"]%char) x = true) m →
  url_text (string_of_list_ascii m).
Proof.
  intros Hm. unfold url_text. rewrite list_ascii_of_string_of_list_ascii.
  eapply Forall_impl; [exact Hm|]. intros c. cbn [Re.cmatch Re.ceq existsb].
  rewrite !not_elem_of_cons.
  destruct (Py.isspace c); cbn; [done|].
  repeat case_bool_decide; cbn; try done.
  intros _. repeat split; try congruence. apply not_elem_of_nil.
Qed.

Lemma pat_bare_sound text g : Re.search pat_bare text = Some g → embed_match 3 text g.
Proof.
  intros H. apply search_whole_sound in H as (before & m & after & Htext & Hm & ->).
  unfold Re.seqs in Hm. cbn [foldr] in Hm.
  inversion Hm as [| |? ? a1 b1 H1 Hb1| | | | | | | |]; subst; clear Hm.
  inversion Hb1 as [| |? ? a2 b2 H2 Hb2| | | | | | | |]; subst; clear Hb1.
  inversion Hb2 as [| |? ? a3 b3 H3 Hb3| | | | | | | |]; subst; clear Hb2.
  inversion Hb3 as [| |? ? a4 b4 H4 Hb4| | | | | | | |]; subst; clear Hb3.
  inversion Hb4 as [| |? ? a5 b5 H5 Hb5| | | | | | | |]; subst; clear Hb4.
  inversion Hb5 as [| |? ? a6 b6 H6 Hb6| | | | | | | |]; subst; clear Hb5.
  inversion Hb6 as [| |? ? a7 b7 H7 Hb7| | | | | | | |]; subst; clear Hb6.
  inversion Hb7; subst; clear Hb7.
  apply (matches_Lit_exact "http") in H1. apply (matches_Lit_exact "://") in H3.
  apply matches_Chr_exact in H5. apply matches_Star_Chr in H7.
  unfold Re.LazyPlus in H4.
  inversion H4 as [| |? ? c4 d4 Hc4 Hd4| | | | | | | |]; subst; clear H4.
  apply matches_LazyStar_Chr in Hd4.
  inversion Hc4 as [|? x Hx| | | | | | | | |]; subst; clear Hc4.
  assert (Forall (fun x => Re.cmatch false
                     (Re.CSet true true [dquote; "'"; "<"; ">"; "`"]%char) x = true)
                 ([x] ++ d4)) as Hhost by (by constructor).
  assert (a2 = [] ∨ a2 = ["s"%char]) as Hs.
  { unfold Re.Opt in H2. inversion H2 as [| | |? ? ? Hs|? ? ? He| | | | | |]; subst.
    - right. by apply matches_Chr_exact in Hs.
    - left. by inversion He. }
  assert (a6 ∈ [list_ascii_of_string "mp4"; list_ascii_of_string "m3u8";
                list_ascii_of_string "mkv"; list_ascii_of_string "webm"]) as Hext.
  { unfold Re.alts in H6. cbn [foldl] in H6.
    inversion H6 as [| | |? ? ? H6a|? ? ? H6b| | | | | |]; subst; clear H6.
    - inversion H6a as [| | |? ? ? H6c|? ? ? H6d| | | | | |]; subst; clear H6a.
      + inversion H6c as [| | |? ? ? H6e|? ? ? H6f| | | | | |]; subst; clear H6c.
        * apply (matches_Lit_exact "mp4") in H6e. subst. set_solver.
        * apply (matches_Lit_exact "m3u8") in H6f. subst. set_solver.
      + apply (matches_Lit_exact "mkv") in H6d. subst. set_solver.
    - apply (matches_Lit_exact "webm") in H6b. subst. set_solver. }

  exists (string_of_list_ascii before), (string_of_list_ascii after),
         (string_of_list_ascii (list_ascii_of_string "http" ++ a2)),
         (string_of_list_ascii ([x] ++ d4)), (string_of_list_ascii a6),
         (string_of_list_ascii a7).
  split; [by chars_eq Htext|].
  split; [apply chars_inj; by chars_norm|].
  split; [destruct Hs as [-> | ->]; cbn; set_solver|].
  split.
  { rewrite !elem_of_cons, elem_of_nil in Hext.
    destruct Hext as [->|[->|[->|[->|[]]]]]; cbn; set_solver. }
  split; [done|]. split; by apply url_char_class.
Qed.

Lemma embed_patterns_sound i pattern text g :
  embed_patterns !! i = Some pattern → Re.search pattern text = Some g →
  embed_match i text g.
Proof.
  intros Hi Hg. destruct i as [|[|[|[|i]]]]; cbn in Hi; simplify_eq.
  - by apply pat_file_sound.
  - by apply pat_source_sound.
  - by apply pat_fileURL_sound.
  - by apply pat_bare_sound.
Qed.

(** C8. The embed resolver always returns, raising nothing and changing
    nothing, after one fetch: no result when the fetch fails; otherwise
    the result of the first pattern, in the listed order, that finds
    something in the body: what it found, stripped of the white space
    around it, with every backslash-slash replaced by a slash, and
    resolved against the embed-page URL with [urljoin] (no result when
    [urljoin] raises); no result when no pattern finds anything.  The
    four patterns find what [embed_match] says; [strip] and the
    replacement are those of Python. *)
Theorem scrape_embedded_video_spec (U : UrlLib) (E : Env) (embed_url referer : string)
    (w : World) :
  let run := scrape_embedded_video U E embed_url referer w in
  (∃ r, run_result run = Ok r)
  ∧ run_world run = w
  ∧ run_trace run
    = [GetEmbed embed_url referer (bool_decide (is_Some (get_text E embed_url referer)))]
  ∧ (get_text E embed_url referer = None → run_result run = Ok None)
  ∧ (∀ text, get_text E embed_url referer = Some text →
       (∀ i pattern g,
          embed_patterns !! i = Some pattern →
          Re.search pattern text = Some g →
          (∀ j p', j < i → embed_patterns !! j = Some p' → Re.search p' text = None) →
          run_result run
          = Ok (joined U embed_url (Py.replace (Py.strip g) "\/" "/"))
          ∧ embed_match i text g)
       ∧ ((∀ p, p ∈ embed_patterns → Re.search p text = None) →
          run_result run = Ok None))
  ∧ length embed_patterns = 4
  ∧ (∀ l v r, blank l → blank r → trimmed v → Py.strip (l +:+ v +:+ r) = v)
  ∧ (∀ s, no_escaped_slash s → Py.replace s "\/" "/" = s)
  ∧ (∀ a b, no_escaped_slash a →
       Py.replace (a +:+ "\/" +:+ b) "\/" "/" = a +:+ "/" +:+ Py.replace b "\/" "/")
  ∧ (∀ c, Py.isspace c = true ↔ nat_of_ascii c ∈ white_space).
Proof.
  cbn zeta. rewrite scrape_embedded_video_run.
  unfold run_result, run_world, run_trace. cbn [fst snd].
  split; [eauto|]. split; [done|]. split; [done|].
  unfold resolve_embed. split; [by intros ->|]. split.
  - intros text ->. split.
    + intros i pattern g Hi Hg Hbefore.
      rewrite (first_match_first _ _ i pattern g Hi Hg Hbefore).
      split; [done|]. by eapply embed_patterns_sound.
    + intros Hnone. by rewrite (first_match_none _ _ Hnone).
  - split; [done|]. split; [apply strip_spec|]. split; [apply replace_none|].
    split; [apply replace_escaped_slash|apply isspace_spec].
Qed.

(** ** Delivery steps and the scraper job *)

Lemma video_of_payload kw1 kw2 : payload kw1 = payload kw2 → video_of kw1 = video_of kw2.
Proof.
  intros H. assert (payload kw1 !! "video" = payload kw2 !! "video") as Hl by by rewrite H.
  unfold payload in Hl. rewrite !lookup_fmap in Hl. unfold video_of.
  destruct (kw1 !! "video") as [[]|], (kw2 !! "video") as [[]|];
    cbn in Hl; unfold seek0 in Hl; simplify_eq; congruence.
Qed.

Lemma sent_from_payload E urls referer m kw1 kw2 :
  payload kw1 = payload kw2 →
  sent_from E urls referer m kw2 → sent_from E urls referer m kw1.
Proof.
  intros H. unfold sent_from. destruct m.
  - by rewrite (group_of_payload _ _ H).
  - by rewrite (video_of_payload _ _ H).
Qed.

Lemma delivery_run_prepend {A} E urls referer w w1 t0 (run : result A * World * list event) :
  ledger_grows w w1 t0 → adds_follow_downloads referer t0 →
  Forall (delivery_step E urls referer) t0 →
  delivery_run E urls referer w1 run →
  delivery_run E urls referer w (prepend t0 run).
Proof.
  intros Hl Ha Hs (Hl' & Ha' & Hs'). unfold delivery_run.
  rewrite prepend_world, prepend_trace. split; [|split].
  - eapply (comp_app _ ledger_grows_compositional); eauto.
  - by apply adds_follow_downloads_app.
  - by apply Forall_app.
Qed.

Lemma delivery_run_send_with_retry E urls referer m kw w :
  sent_from E urls referer m kw →
  delivery_run E urls referer w (_send_with_retry E m kw w).
Proof.
  intros Hfrom. pose proof (send_with_retry_attempt_steps E m kw w) as Ht.
  split; [apply send_with_retry_ledger_grows|]. split.
  - apply channel_steps_no_add. eapply Forall_impl; [exact Ht|]. apply attempt_step_channel.
  - eapply Forall_impl; [exact Ht|]. intros [] He; cbn in *; try done.
    destruct He as [-> Hp]. by eapply sent_from_payload.
Qed.

Lemma delivery_run_bind {A B} E urls referer w (m : M A) (f : A → M B) :
  delivery_run E urls referer w (m w) →
  (∀ a w1, run_result (m w) = Ok a → delivery_run E urls referer w1 (f a w1)) →
  delivery_run E urls referer w (bind m f w).
Proof.
  intros Hm Hf. rewrite bind_run. destruct (m w) as [[[a|e] w1] t1] eqn:Hmw; [|done].
  destruct Hm as (Hl & Ha & Hs). unfold run_world, run_trace in *. cbn [fst snd] in *.
  apply (delivery_run_prepend _ _ _ _ w1); auto.
Qed.

Lemma download_add_steps E urls referer url w :
  url ∈ urls →
  ledger_grows w (marked url (polled w)) [Download url referer true; Add url]
  ∧ adds_follow_downloads referer [Download url referer true; Add url]
  ∧ Forall (delivery_step E urls referer) [Download url referer true; Add url].
Proof.
  intros Hin. split; [|split].
  - unfold ledger_grows. cbn. split; [|lia].
    by rewrite (right_id_L ∅ (∪)), (comm_L (∪)).
  - intros [|[|i]] u Hi; cbn in Hi; simplify_eq. by exists 0.
  - repeat constructor; done.
Qed.

Lemma download_failed_steps E urls referer url w :
  url ∈ urls →
  ledger_grows w (polled w) [Download url referer false]
  ∧ adds_follow_downloads referer [Download url referer false]
  ∧ Forall (delivery_step E urls referer) [Download url referer false].
Proof.
  intros Hin. split; [|split].
  - unfold ledger_grows. cbn. split; [|lia]. by rewrite (right_id_L ∅ (∪)).
  - intros [|i] u Hi; cbn in Hi; simplify_eq.
  - repeat constructor; done.
Qed.

Lemma delivery_run_nil {A} E urls referer w (r : result A) :
  delivery_run E urls referer w (r, w, []).
Proof.
  split; [apply ledger_grows_compositional|]. split; [by intros [|?] ??|constructor].
Qed.

Lemma delivery_run_polled {A} E urls referer w (r : result A) :
  delivery_run E urls referer w (r, polled w, []).
Proof.
  split; [|split; [by intros [|?] ??|constructor]].
  unfold ledger_grows, run_world, run_trace. cbn. split; [|lia].
  by rewrite (right_id_L ∅ (∪)).
Qed.

Lemma gathered_snoc E urls referer mg url bytes :
  gathered E urls referer mg → url ∈ urls → image_payload E referer url = Some bytes →
  gathered E urls referer (mg ++ [MBytes {| getvalue := bytes; tell := 0 |}]).
Proof.
  intros Hmg Hin Hpay b. rewrite omap_app, elem_of_app. intros [Hb|Hb]; [by apply Hmg|].
  cbn in Hb. apply list_elem_of_singleton in Hb as ->. eauto.
Qed.

(** Every run of the image loop is a delivery run on its URLs. *)
Lemma send_images_loop_delivery E referer all urls : ∀ mg w,
  urls ⊆ all → gathered E all referer mg →
  delivery_run E all referer w (send_images_loop E urls referer mg w)
  ∧ ∀ mg', run_result (send_images_loop E urls referer mg w) = Ok mg' →
           gathered E all referer mg'.
Proof.
  induction urls as [|url rest IH]; intros mg w Hsub Hmg.
  - split; [apply delivery_run_nil|]. by intros mg' [= <-].
  - assert (url ∈ all) as Hin by (apply Hsub; left).
    assert (rest ⊆ all) as Hrest by (intros x Hx; apply Hsub; by right).
    rewrite send_images_loop_cons.
    destruct (cancel_requested E (polls w)); [split; [apply delivery_run_polled|done]|].
    destruct (get_content E url referer) as [content|].
    + destruct (download_add_steps E all referer url w Hin) as (H1 & H2 & H3).
      destruct (image_payload E referer url) as [bytes|] eqn:Hpay.
      * cbn zeta.
        pose proof (gathered_snoc _ _ _ _ _ _ Hmg Hin Hpay) as Hmg'.
        case_bool_decide.
        -- split.
           ++ apply (delivery_run_prepend _ _ _ _ (marked url (polled w))); auto.
              apply delivery_run_bind.
              ** apply delivery_run_send_with_retry. cbn. by rewrite group_of_media_group.
              ** intros _ w1 _. apply IH; [done|]. by intros ? ?%elem_of_nil.
           ++ rewrite prepend_result, bind_run.
              destruct (_send_with_retry _ _ _ _) as [[[[]|e] w1] t1]; [|done].
              rewrite prepend_result. apply IH; [done|]. by intros ? ?%elem_of_nil.
        -- destruct (IH _ (marked url (polled w)) Hrest Hmg') as [Hd Hg]. split; [|done].
           apply (delivery_run_prepend _ _ _ _ (marked url (polled w))); auto.
      * destruct (IH _ (marked url (polled w)) Hrest Hmg) as [Hd Hg]. split; [|done].
        apply (delivery_run_prepend _ _ _ _ (marked url (polled w))); auto.
    + destruct (download_failed_steps E all referer url w Hin) as (H1 & H2 & H3).
      destruct (IH _ (polled w) Hrest Hmg) as [Hd Hg]. split; [|done].
      apply (delivery_run_prepend _ _ _ _ (polled w)); auto.
Qed.

Lemma send_images_delivery E referer urls w :
  delivery_run E urls referer w (send_images E urls referer w).
Proof.
  unfold send_images. destruct urls as [|u urls]; [apply delivery_run_nil|].
  destruct (send_images_loop_delivery E referer (u :: urls) (u :: urls) [] w) as [Hd Hg];
    [done|by intros ? ?%elem_of_nil|].
  apply delivery_run_bind; [done|].
  intros [|m mg] w1 Hres; [apply delivery_run_nil|].
  apply delivery_run_send_with_retry. cbn. rewrite group_of_media_group. by apply Hg.
Qed.

(** One turn of the loop of [send_videos]. *)
Lemma send_videos_loop_cons U E url rest referer w :
  send_videos_loop U E (url :: rest) referer w =
  if cancel_requested E (polls w) then (Raise CancelledError, polled w, [])
  else
    match get_content E url referer with
    | None =>
        prepend [Download url referer false]
          (send_videos_loop U E rest referer (polled w))
    | Some content =>
        prepend [Download url referer true; Add url]
          match video_filename U E url with
          | Returns filename =>
              bind (try_except
                      (_send_with_retry E send_video
                         (video_kwargs E {| getvalue := content; tell := 0 |} filename))
                      (fun _ => ret tt))
                   (fun _ => send_videos_loop U E rest referer)
                   (marked url (polled w))
          | ValueError msg => (Raise (Exception msg), marked url (polled w), [])
          end
    end.
Proof.
  cbn [send_videos_loop].
  erewrite bind_ok by reflexivity. rewrite prepend_nil.
  destruct (cancel_requested E (polls w)); [done|].
  unfold download_media_as_bytes.
  destruct (get_content E url referer) as [content|].
  - erewrite bind_ok by reflexivity. cbv beta iota.
    erewrite (bind_ok (ledger_add url)) by reflexivity.
    rewrite prepend_prepend. f_equal.
    destruct (video_filename U E url) as [filename|msg].
    + erewrite bind_ok by reflexivity. by rewrite prepend_nil.
    + done.
  - by erewrite bind_ok by reflexivity.
Qed.

Lemma delivery_run_try_except {A} E urls referer w (m : M A) (h : string → M A) :
  delivery_run E urls referer w (m w) →
  (∀ msg w1, delivery_run E urls referer w1 (h msg w1)) →
  delivery_run E urls referer w (try_except m h w).
Proof.
  intros Hm Hh. unfold try_except.
  destruct (m w) as [[[a|[|msg]] w1] t1] eqn:Hmw; [done..|].
  destruct Hm as (Hl & Ha & Hs). unfold run_world, run_trace in *. cbn [fst snd] in *.
  specialize (Hh msg w1). destruct (h msg w1) as [[r w2] t2].
  change (r, w2, t1 ++ t2) with (prepend t1 (r, w2, t2)).
  apply (delivery_run_prepend _ _ _ _ w1); auto.
Qed.

Lemma video_of_video_kwargs E b filename : video_of (video_kwargs E b filename) = Some (getvalue b).
Proof.
  unfold video_of, video_kwargs.
  rewrite !lookup_insert_ne by done. by rewrite lookup_insert_eq.
Qed.

Lemma send_videos_loop_delivery U E referer all urls : ∀ w,
  urls ⊆ all →
  delivery_run E all referer w (send_videos_loop U E urls referer w).
Proof.
  induction urls as [|url rest IH]; intros w Hsub.
  - apply delivery_run_nil.
  - assert (url ∈ all) as Hin by (apply Hsub; left).
    assert (rest ⊆ all) as Hrest by (intros x Hx; apply Hsub; by right).
    rewrite send_videos_loop_cons.
    destruct (cancel_requested E (polls w)); [apply delivery_run_polled|].
    destruct (get_content E url referer) as [content|] eqn:Hget.
    + destruct (download_add_steps E all referer url w Hin) as (H1 & H2 & H3).
      apply (delivery_run_prepend _ _ _ _ (marked url (polled w))); auto.
      destruct (video_filename U E url) as [filename|msg]; [|apply delivery_run_nil].
      apply delivery_run_bind.
      * apply delivery_run_try_except; [|intros; apply delivery_run_nil].
        apply delivery_run_send_with_retry. cbn. exists url, content.
        by rewrite video_of_video_kwargs.
      * intros _ w1 _. by apply IH.
    + destruct (download_failed_steps E all referer url w Hin) as (H1 & H2 & H3).
      apply (delivery_run_prepend _ _ _ _ (polled w)); auto.
Qed.

Lemma send_videos_delivery U E referer urls w :
  delivery_run E urls referer w (send_videos U E urls referer w).
Proof. by apply send_videos_loop_delivery. Qed.

(** *** The scraper loop, one seed at a time *)

Lemma bind_assoc_run {A B C} (m : M A) (f : A → M B) (g : B → M C) w :
  bind (bind m f) g w = bind m (fun a => bind (f a) g) w.
Proof.
  unfold bind. destruct (m w) as [[[a|e] w1] t1]; [|done].
  destruct (f a w1) as [[[b|e] w2] t2]; [|done].
  destruct (g b w2) as [[r w3] t3]. by rewrite app_assoc.
Qed.

Lemma bind_ext_run {A B} (m : M A) (f g : A → M B) w :
  (∀ a w1, f a w1 = g a w1) → bind m f w = bind m g w.
Proof.
  intros Hfg. unfold bind. destruct (m w) as [[[a|e] w1] t1]; [|done]. by rewrite Hfg.
Qed.

Lemma scraper_loop_cons U E n i url rest w :
  scraper_loop U E n i (url :: rest) w =
  if cancel_requested E (polls w) then (Ok tt, polled w, [])
  else
    let page := with_scheme url in
    prepend (Status (Processing (i + 1) n (Py.slice_to 50 page)) :: page_fetches U E page)
      (bind (deliver_page U E n i page (SENT_MEDIA_URLS w))
            (fun _ => scraper_loop U E n (S i) rest) (polled w)).
Proof.
  cbn [scraper_loop].
  erewrite bind_ok by reflexivity. rewrite prepend_nil.
  destruct (cancel_requested E (polls w)); [done|]. cbn zeta.
  erewrite bind_ok by reflexivity.
  erewrite bind_ok by apply extract_media_from_page_run.
  rewrite prepend_prepend. cbn [app fst snd].
  erewrite (bind_ok ledger) by reflexivity. rewrite prepend_nil.
  f_equal. unfold deliver_page. cbn [SENT_MEDIA_URLS polled]. cbn zeta.
  rewrite bind_assoc_run. apply bind_ext_run. intros _ w1.
  by rewrite bind_assoc_run.
Qed.

Lemma job_step_mono U E seeds seeds' sent0 sent0' e :
  seeds ⊆ seeds' → sent0' ⊆ sent0 →
  job_step U E seeds sent0 e → job_step U E seeds' sent0' e.
Proof.
  intros Hs Hl. assert (with_scheme <$> seeds ⊆ with_scheme <$> seeds') as Hs'.
  { intros x (y & -> & Hy)%list_elem_of_fmap. apply list_elem_of_fmap. eauto. }
  unfold job_step, listed. destruct e; try done.
  - intros Hp. by apply Hs'.
  - intros (Hn & Hr & Hm). split; [|split]; auto.
  - intros (Hn & r & Hr & Hm). split; [auto|]. exists r. split; auto.
  - intros (page & urls & Hp & Hu & Hf). exists page, urls. split; [auto|]. split; [|done].
    intros u Hin. destruct (Hu u Hin) as (Hn & Hr & Hm). split; [auto|]. split; auto.
Qed.

Lemma page_fetches_shape U E page :
  ∃ ok rest, page_fetches U E page = GetPage page ok :: rest
             ∧ Forall (fun e => ∃ u r b, e = GetEmbed u r b) rest.
Proof.
  unfold page_fetches. destruct (get_soup E page) as [soup|].
  - eexists _, _. split; [done|]. unfold embed_fetches.
    apply Forall_fmap, Forall_forall. intros embed_url _. cbn. eauto.
  - eexists _, _. split; [done|constructor].
Qed.

(** The steps of the delivery part of one page. *)
Lemma deliver_page_steps U E n i seeds page sent w :
  page ∈ with_scheme <$> seeds → sent ⊆ SENT_MEDIA_URLS w →
  let run := deliver_page U E n i page sent w in
  ledger_grows w (run_world run) (run_trace run)
  ∧ Forall (job_step U E seeds sent) (run_trace run)
  ∧ Forall not_page_fetch (run_trace run).
Proof.
  intros Hpage Hsent run.
  assert (∀ (A : Type) urls w1 (r : result A * World * list event),
            (∀ u, u ∈ urls → (u ∉ sent) ∧ listed U E seeds u page) →
            delivery_run E urls page w1 r →
            ledger_grows w1 (run_world r) (run_trace r)
            ∧ Forall (job_step U E seeds sent) (run_trace r)
            ∧ Forall not_page_fetch (run_trace r)) as Hdel.
  { intros A urls w1 r Hurls (Hl & _ & Hs). split; [done|].
    split; (eapply Forall_impl; [exact Hs|]); intros [] He; cbn in *; try done.
    - destruct He as [Hu ->]. by apply Hurls.
    - split; [by apply Hurls|]. exists page. by apply Hurls.
    - exists page, urls. done. }
  assert (∀ w1, ledger_grows w1 w1 []
                ∧ Forall (job_step U E seeds sent) []
                ∧ Forall not_page_fetch []) as Hnil.
  { intros w1. split; [apply ledger_grows_compositional|]. split; constructor. }
  assert (∀ {A B} (m : M A) (f : A → M B) w0,
            (ledger_grows w0 (run_world (m w0)) (run_trace (m w0))
             ∧ Forall (job_step U E seeds sent) (run_trace (m w0))
             ∧ Forall not_page_fetch (run_trace (m w0))) →
            (∀ a w1, ledger_grows w1 (run_world (f a w1)) (run_trace (f a w1))
                     ∧ Forall (job_step U E seeds sent) (run_trace (f a w1))
                     ∧ Forall not_page_fetch (run_trace (f a w1))) →
            ledger_grows w0 (run_world (bind m f w0)) (run_trace (bind m f w0))
            ∧ Forall (job_step U E seeds sent) (run_trace (bind m f w0))
            ∧ Forall not_page_fetch (run_trace (bind m f w0))) as Hbind.
  { intros A B m f w0 (Hl & Hj & Hp) Hf. rewrite bind_run.
    destruct (m w0) as [[[a|e] w1] t1]; [|done].
    unfold run_world, run_trace in *. cbn [fst snd] in *.
    destruct (Hf a w1) as (Hl' & Hj' & Hp'). cbn [prepend fst snd].
    split; [eapply (comp_app _ ledger_grows_compositional); eauto|].
    split; apply Forall_app; auto. }
  subst run. unfold deliver_page. cbn zeta.
  apply Hbind; [|intros _ w1; apply Hbind; [|intros _ w2]].
  - destruct (not_sent sent (images (page_media U E page))) as [|u0 l] eqn:Hnew; [apply Hnil|].
    eapply Hdel; [|apply send_images_delivery].
    intros u Hu. rewrite <- Hnew in Hu. apply list_elem_of_filter in Hu as [Hn Hi].
    split; [done|]. split; auto.
  - destruct (not_sent sent (videos (page_media U E page))) as [|u0 l] eqn:Hnew; [apply Hnil|].
    eapply Hdel; [|apply send_videos_delivery].
    intros u Hu. rewrite <- Hnew in Hu. apply list_elem_of_filter in Hu as [Hn Hi].
    split; [done|]. split; auto.
  - case_bool_decide; [|apply Hnil].
    split; [|split; repeat constructor].
    unfold ledger_grows. cbn. split; [by rewrite (right_id_L ∅ (∪))|lia].
Qed.

Lemma adds_elem_of t u : u ∈ adds t ↔ Add u ∈ t.
Proof.
  unfold adds. rewrite list_elem_of_omap. split.
  - intros ([] & Hin & Heq); simplify_eq. done.
  - intros Hin. exists (Add u). done.
Qed.

Lemma pages_fetched_none t : Forall not_page_fetch t → pages_fetched t = [].
Proof. induction 1 as [|[] t He _ IH]; cbn; try done. Qed.

(** What holds of every run of the scraper loop on [urls]. *)
Lemma scraper_loop_steps U E n urls : ∀ i w,
  let run := scraper_loop U E n i urls w in
  ledger_grows w (run_world run) (run_trace run)
  ∧ Forall (job_step U E urls (SENT_MEDIA_URLS w)) (run_trace run)
  ∧ pages_fetched (run_trace run) `prefix_of` (with_scheme <$> urls)
  ∧ no_redownload (run_trace run).
Proof.
  induction urls as [|url rest IH]; intros i w run; subst run.
  - cbn. split; [apply ledger_grows_compositional|]. split; [constructor|].
    split; [done|]. intros ? ? ? ? ? ? ? ? _ _ H. by rewrite lookup_nil in H.
  - rewrite scraper_loop_cons.
    destruct (cancel_requested E (polls w)).
    { unfold run_world, run_trace. cbn [fst snd].
      split; [unfold ledger_grows; cbn; split; [by rewrite (right_id_L ∅ (∪))|lia]|].
      split; [constructor|]. split; [apply prefix_nil|].
      intros ? ? ? ? ? ? ? ? _ _ H. by rewrite lookup_nil in H. }
    cbn zeta. set (page := with_scheme url).
    assert (page ∈ with_scheme <$> url :: rest) as Hpage by (cbn; left).
    destruct (page_fetches_shape U E page) as (ok & embeds & Hfetch & Hembeds).
    rewrite Hfetch.
    destruct (deliver_page_steps U E n i (url :: rest) page (SENT_MEDIA_URLS w) (polled w)
                Hpage) as (Hl & Hj & Hp); [done|].
    rewrite bind_run.
    destruct (deliver_page U E n i page (SENT_MEDIA_URLS w) (polled w))
      as [[[[]|e] w1] t1] eqn:Hdeliver;
      unfold run_world, run_trace in Hl, Hj, Hp; cbn [fst snd] in Hl, Hj, Hp.
    + (* the page was delivered: on to the next seed *)
      specialize (IH (S i) w1). cbn zeta in IH. destruct IH as (Hl' & Hj' & Hp' & Hn').
      rewrite prepend_prepend, prepend_world, prepend_trace.
      set (seg := (Status (Processing (i + 1) n (Py.slice_to 50 page))
                   :: GetPage page ok :: embeds) ++ t1).
      assert (ledger_grows w w1 seg) as Hseg.
      { destruct Hl as (Hs & ? & ?). unfold ledger_grows. subst seg.
        rewrite adds_app. cbn [app adds omap list_omap].
        replace (omap _ embeds) with (@nil string).
        2:{ clear -Hembeds. induction Hembeds as [|e l (?&?&?&->) _ IH]; [done|]. cbn. done. }
        cbn in Hs |- *. rewrite Hs. split; [done|]. cbn in *. lia. }
      assert (SENT_MEDIA_URLS w ⊆ SENT_MEDIA_URLS w1) as Hmono.
      { destruct Hseg as (-> & _). apply union_subseteq_l. }
      split; [eapply (comp_app _ ledger_grows_compositional); eauto|].
      split; [|split].
      * apply Forall_app. split.
        -- subst seg. apply Forall_app. split; [|done].
           constructor; [done|]. constructor; [done|].
           eapply Forall_impl; [exact Hembeds|]. by intros ? (?&?&?&->).
        -- eapply Forall_impl; [exact Hj'|]. intros e.
           apply job_step_mono; [|done]. intros x Hx. by right.
      * subst seg. unfold pages_fetched. rewrite !omap_app. cbn [app omap list_omap].
        replace (omap _ embeds) with (@nil string).
        2:{ clear -Hembeds. induction Hembeds as [|e l (?&?&?&->) _ IH]; [done|]. cbn. done. }
        fold (pages_fetched t1). rewrite (pages_fetched_none _ Hp). cbn.
        by apply prefix_cons.
      * (* no download of a URL after a later page fetch *)
        intros a j k u pg okp r ok' Haj Hjk Ha Hj0 Hk.
        assert (∀ x, x < length seg → seg !! x = Some (GetPage pg okp) → x = 1) as Hone.
        { intros x Hx Hsx. subst seg. destruct x as [|[|x]]; [done..|]. exfalso.
          cbn in Hsx. apply list_elem_of_lookup_2 in Hsx.
          apply elem_of_app in Hsx as [Hin|Hin].
          - eapply Forall_forall in Hembeds; [|exact Hin]. by destruct Hembeds as (?&?&?&?).
          - eapply Forall_forall in Hp; [|exact Hin]. done. }
        destruct (decide (j < length seg)) as [Hjs|Hjs].
        { rewrite lookup_app_l in Hj0 by done. pose proof (Hone j Hjs Hj0) as ->.
          assert (a = 0) as -> by lia. rewrite lookup_app_l in Ha by lia.
          subst seg. done. }
        rewrite lookup_app_r in Hk by lia.
        destruct (decide (a < length seg)) as [Has|Has].
        -- rewrite lookup_app_l in Ha by done.
           assert (u ∈ SENT_MEDIA_URLS w1) as Hu.
           { destruct Hseg as (-> & _). apply elem_of_union_r, elem_of_list_to_set.
             apply adds_elem_of. by eapply list_elem_of_lookup_2. }
           eapply Forall_lookup_1 in Hj'; [|exact Hk]. cbn in Hj'. by destruct Hj'.
        -- rewrite lookup_app_r in Ha, Hj0 by lia.
           eapply (Hn' (a - length seg) (j - length seg) (k - length seg)); eauto; lia.
    + (* the delivery raised: the loop ends here *)
      rewrite prepend_world, prepend_trace. cbn [run_world run_trace fst snd].
      set (seg := (Status (Processing (i + 1) n (Py.slice_to 50 page))
                   :: GetPage page ok :: embeds) ++ t1).
      change ((Status (Processing (i + 1) n (Py.slice_to 50 page))
               :: GetPage page ok :: embeds) ++ t1) with seg.
      assert (ledger_grows w w1 seg) as Hseg.
      { destruct Hl as (Hs & ? & ?). unfold ledger_grows. subst seg.
        rewrite adds_app. cbn [app adds omap list_omap].
        replace (omap _ embeds) with (@nil string).
        2:{ clear -Hembeds. induction Hembeds as [|e' l (?&?&?&->) _ IH]; [done|]. cbn. done. }
        cbn in Hs |- *. rewrite Hs. split; [done|]. cbn in *. lia. }
      split; [done|]. split; [|split].
      * subst seg. apply Forall_app. split; [|done].
        constructor; [done|]. constructor; [done|].
        eapply Forall_impl; [exact Hembeds|]. by intros ? (?&?&?&->).
      * subst seg. unfold pages_fetched. rewrite !omap_app. cbn [app omap list_omap].
        replace (omap _ embeds) with (@nil string).
        2:{ clear -Hembeds. induction Hembeds as [|e' l (?&?&?&->) _ IH]; [done|]. cbn. done. }
        fold (pages_fetched t1). rewrite (pages_fetched_none _ Hp). cbn.
        apply prefix_cons, prefix_nil.
      * intros a j k u pg okp r ok' Haj Hjk Ha Hj0 Hk.
        assert (j = 1) as ->.
        { subst seg. destruct j as [|[|j]]; [done..|]. exfalso.
          cbn in Hj0. apply list_elem_of_lookup_2 in Hj0.
          apply elem_of_app in Hj0 as [Hin|Hin].
          - eapply Forall_forall in Hembeds; [|exact Hin]. by destruct Hembeds as (?&?&?&?).
          - eapply Forall_forall in Hp; [|exact Hin]. done. }
        assert (a = 0) as -> by lia. subst seg. done.
Qed.

(** *** The job around the loop *)

(** A job is its loop followed by the closing steps; how it ends is
    decided by how the loop ended. *)
Lemma process_media_scraper_run U E urls w :
  let loop := scraper_loop U E (length urls) 0 urls w in
  process_media_scraper U E urls w
  = (Ok (outcome_of E (run_result loop)), run_world loop,
     run_trace loop ++ closing_steps E (run_result loop)).
Proof.
  cbn zeta. unfold process_media_scraper, job_except. rewrite bind_run.
  destruct (scraper_loop U E (length urls) 0 urls w) as [[[[]|[|msg]] w1] t1]; [|done..].
  unfold prepend, bind, emit, sleep, step, closing_steps, outcome_of, run_result, run_world,
    run_trace. cbn [fst snd].
  destruct (delete_error E) as [msg|]; cbn; by rewrite <- ?app_assoc.
Qed.

Lemma closing_steps_plain E r :
  Forall (fun e => match e with Status _ | Sleep _ | DeleteStatus => True | _ => False end)
         (closing_steps E r).
Proof.
  unfold closing_steps. destruct r as [|[|]], (delete_error E); repeat constructor.
Qed.

(** What holds of every scraper job. *)
Lemma process_media_scraper_steps U E urls w :
  let run := process_media_scraper U E urls w in
  ledger_grows w (run_world run) (run_trace run)
  ∧ Forall (job_step U E urls (SENT_MEDIA_URLS w)) (run_trace run)
  ∧ pages_fetched (run_trace run) `prefix_of` (with_scheme <$> urls)
  ∧ no_redownload (run_trace run).
Proof.
  cbn zeta. rewrite process_media_scraper_run.
  destruct (scraper_loop_steps U E (length urls) urls 0 w) as (Hl & Hj & Hp & Hn).
  cbn zeta in *.
  destruct (scraper_loop U E (length urls) 0 urls w) as [[r w1] t].
  unfold run_world, run_trace, run_result in *. cbn [fst snd] in *.
  pose proof (closing_steps_plain E r) as Hc.
  set (c := closing_steps E r) in *.
  assert (adds c = [] ∧ pages_fetched c = []) as [Hca Hcp].
  { clear -Hc. induction Hc as [|[] l He _ [IH1 IH2]]; cbn; try done. }
  split; [|split; [|split]].
  - destruct Hl as (Hs & ? & ?). unfold ledger_grows.
    rewrite adds_app, Hca, app_nil_r. done.
  - apply Forall_app. split; [done|].
    eapply Forall_impl; [exact Hc|]. by intros [].
  - unfold pages_fetched in *. by rewrite omap_app, Hcp, app_nil_r.
  - intros a j k u pg okp rf ok' Haj Hjk Ha Hj0 Hk.
    assert (∀ x e, (t ++ c) !! x = Some e →
                   (∀ s, e ≠ Status s) → (∀ s, e ≠ Sleep s) → e ≠ DeleteStatus →
                   t !! x = Some e) as Hin.
    { intros x e Hx H1 H2 H3. destruct (decide (x < length t)) as [Hlt|Hge].
      - by rewrite lookup_app_l in Hx.
      - rewrite lookup_app_r in Hx by lia. eapply Forall_lookup_1 in Hc; [|exact Hx].
        destruct e; try done; exfalso; first [by eapply H1 | by eapply H2]. }
    pose proof (Hin _ _ Ha ltac:(done) ltac:(done) ltac:(done)) as Ha'.
    pose proof (Hin _ _ Hj0 ltac:(done) ltac:(done) ltac:(done)) as Hj'.
    pose proof (Hin _ _ Hk ltac:(done) ltac:(done) ltac:(done)) as Hk'.
    exact (Hn a j k u pg okp rf ok' Haj Hjk Ha' Hj' Hk').
Qed.

(** ** The dict of links *)

Lemma append_new_cons_ne x y l : x ≠ y → append_new x (y :: l) = y :: append_new x l.
Proof.
  intros Hne. destruct (decide (x ∈ l)) as [Hin|Hnotin].
  - rewrite !append_new_in; [done..|]. rewrite elem_of_cons. by right.
  - rewrite !append_new_notin; [done..|].
    rewrite elem_of_cons. tauto.
Qed.

Lemma dict_set_keys k v d : (dict_set k v d).*1 = append_new k (d.*1).
Proof.
  induction d as [|[k' v'] d IH]; [done|]. cbn [dict_set].
  case_bool_decide as Hk.
  - subst k'. cbn. rewrite append_new_in; [done|]. rewrite elem_of_cons. by left.
  - cbn. rewrite IH. by rewrite append_new_cons_ne.
Qed.

Lemma dict_items_snoc pairs k v :
  dict_items (pairs ++ [(k, v)]) = dict_set k v (dict_items pairs).
Proof. unfold dict_items. by rewrite foldl_app. Qed.

(** The keys of the dict are the first components, each at its first
    occurrence. *)
Lemma dict_items_keys pairs : (dict_items pairs).*1 = uniq (pairs.*1).
Proof.
  rewrite <- foldl_append_new_nil.
  induction pairs as [|[k v] pairs IH] using rev_ind; [done|].
  rewrite dict_items_snoc, dict_set_keys, IH, fmap_app, foldl_app. done.
Qed.

Lemma elem_of_dict_set k v d k0 v0 :
  NoDup (d.*1) →
  (k, v) ∈ dict_set k0 v0 d ↔ (k = k0 ∧ v = v0) ∨ (k ≠ k0 ∧ (k, v) ∈ d).
Proof.
  induction d as [|[k' v'] d IH]; intros Hnd; cbn [dict_set].
  - rewrite list_elem_of_singleton, elem_of_nil. naive_solver.
  - cbn in Hnd. apply NoDup_cons in Hnd as [Hk' Hnd].
    case_bool_decide as Hk.
    + subst k'. rewrite !elem_of_cons. split.
      * intros [[= -> ->]|Hin]; [by left|].
        destruct (decide (k = k0)) as [->|Hne]; [|by right; split; [|right]].
        destruct Hk'. apply list_elem_of_fmap. by exists (k0, v).
      * intros [[-> ->]|[Hne [[= -> ->]|Hin]]]; [by left|done|by right].
    + rewrite !elem_of_cons, IH by done. split.
      * intros [[= -> ->]|[?|[? ?]]]; [right; split; [done|by left]|by left|].
        right. split; [done|by right].
      * intros [?|[Hne [[= -> ->]|Hin]]]; [right; by left|by left|].
        right. right. done.
Qed.

(** The value of a key is the second component of the last pair with
    that key. *)
Lemma dict_items_last pairs k v :
  (k, v) ∈ dict_items pairs ↔ last (filter (fun p => p.1 = k) pairs) = Some (k, v).
Proof.
  induction pairs as [|[k0 v0] pairs IH] using rev_ind.
  - cbn. rewrite elem_of_nil. naive_solver.
  - rewrite dict_items_snoc, elem_of_dict_set
      by (rewrite dict_items_keys; apply uniq_NoDup).
    rewrite filter_app. destruct (decide (k0 = k)) as [->|Hne].
    + rewrite (filter_cons_True (fun p => p.1 = k)) by done.
      rewrite filter_nil, last_snoc. naive_solver.
    + rewrite (filter_cons_False (fun p => p.1 = k)) by (cbn; congruence).
      rewrite filter_nil, app_nil_r, IH. naive_solver.
Qed.

(** ** The text of a "Next" anchor *)

Section Repeat.

Context {R : Type} (k : list ascii → option (list ascii) → option R).

(** Greedy repetition of white space succeeds exactly when the
    continuation succeeds after some run of leading white space. *)
Lemma repeat_spaces_is_Some cap : ∀ fuel s,
  length s ≤ fuel →
  is_Some (Re.repeat_go true (Re.rmatch true (Re.Chr Re.CSpace)) k fuel s cap)
  ↔ ∃ a r, s = a ++ r ∧ Forall (fun c => Py.isspace c = true) a ∧ is_Some (k r cap).
Proof.
  induction fuel as [|fuel IH]; intros s Hlen.
  - destruct s; [|cbn in Hlen; lia]. cbn. split.
    + intros H. exists [], []. done.
    + intros (a & r & Heq & _ & H). symmetry in Heq.
      apply app_eq_nil in Heq as [-> ->]. done.
  - cbn [Re.repeat_go Re.rmatch]. destruct s as [|x s].
    + cbn. split.
      * intros H. exists [], []. done.
      * intros (a & r & Heq & _ & H). symmetry in Heq.
        apply app_eq_nil in Heq as [-> ->]. done.
    + cbn [Re.cmatch length]. replace (length s <? S (length s))%nat with true
        by (symmetry; apply Nat.ltb_lt; lia).
      cbn in Hlen. specialize (IH s ltac:(lia)).
      destruct (Py.isspace x) eqn:Hx.
      * destruct (Re.repeat_go true _ k fuel s cap) as [res|] eqn:Hrec.
        -- cbn. split; [|by eauto]. intros _.
           destruct (proj1 IH ltac:(eauto)) as (a & r & -> & Ha & Hk).
           exists (x :: a), r. split; [done|]. split; [by constructor|done].
        -- cbn. split.
           ++ intros H. exists [], (x :: s). done.
           ++ intros (a & r & Heq & Ha & Hk). destruct a as [|y a].
              ** cbn in Heq. by subst.
              ** cbn in Heq. injection Heq as <- ->. apply Forall_cons in Ha as [_ Ha].
                 assert (is_Some (@None R)) as [? ?]; [|done].
                 apply IH. eauto.
      * cbn. split.
        -- intros H. exists [], (x :: s). done.
        -- intros (a & r & Heq & Ha & Hk). destruct a as [|y a].
           ++ cbn in Heq. by subst.
           ++ cbn in Heq. injection Heq as <- ->. apply Forall_cons in Ha as [Hy _].
              congruence.
Qed.

End Repeat.

Lemma lit_next_is_Some {R} (k : list ascii → option (list ascii) → option R) s cap :
  is_Some (Re.rmatch true (Re.Lit "Next") s cap k)
  ↔ ∃ w r, s = w ++ r ∧ Py.lower_ascii <$> w = ["n"; "e"; "x"; "t"]%char
           ∧ is_Some (k r cap).
Proof.
  assert (∀ c x, Re.ceq true c x = true ↔ Py.lower_ascii x = Py.lower_ascii c) as Hceq.
  { intros c x. unfold Re.ceq. rewrite bool_decide_eq_true. split; congruence. }
  split.
  - intros H. destruct s as [|c1 [|c2 [|c3 [|c4 r]]]]; cbn [Re.rmatch Re.Lit Re.cmatch] in H;
      try (by destruct H);
      repeat match type of H with
             | is_Some (if ?b then _ else _) =>
                 let Hb := fresh "Hb" in destruct b eqn:Hb; [|by destruct H]
             end; try (by destruct H).
    apply Hceq in Hb, Hb0, Hb1, Hb2. exists [c1; c2; c3; c4], r.
    split; [done|]. split; [|done]. cbn. by rewrite Hb, Hb0, Hb1, Hb2.
  - intros (w & r & -> & Hw & Hk).
    destruct w as [|c1 [|c2 [|c3 [|c4 [|]]]]]; cbn in Hw; try discriminate.
    injection Hw as H1 H2 H3 H4. cbn [Re.rmatch Re.Lit Re.cmatch app].
    rewrite (proj2 (Hceq "N"%char c1)), (proj2 (Hceq "e"%char c2)),
            (proj2 (Hceq "x"%char c3)), (proj2 (Hceq "t"%char c4)); done.
Qed.

(** The characters that a letter matches when case is ignored: the
    letter and its capital. *)
Lemma lower_is (C c x : ascii) :
  (65 ≤ nat_of_ascii C ≤ 90 ∧ nat_of_ascii c = nat_of_ascii C + 32) →
  Py.lower_ascii x = c ↔ x ∈ [C; c].
Proof.
  intros [HC Hc]. rewrite !elem_of_cons, elem_of_nil.
  assert (∀ a b : ascii, a = b ↔ nat_of_ascii a = nat_of_ascii b) as Hinj.
  { intros a b. split; [by intros ->|]. intros H.
    by rewrite <- (ascii_nat_embedding a), <- (ascii_nat_embedding b), H. }
  rewrite !Hinj. unfold Py.lower_ascii.
  pose proof (nat_ascii_bounded x) as Hx.
  destruct (_ || _) eqn:Hup.
  - rewrite nat_ascii_embedding.
    + rewrite orb_true_iff, !andb_true_iff, !Nat.leb_le, negb_true_iff, Nat.eqb_neq in Hup. lia.
    + rewrite orb_true_iff, !andb_true_iff, !Nat.leb_le, negb_true_iff, Nat.eqb_neq in Hup. lia.
  - rewrite orb_false_iff, !andb_false_iff, !Nat.leb_gt, negb_false_iff, Nat.eqb_eq in Hup. lia.
Qed.

Lemma spaces_then_end_is_Some s cap :
  is_Some (Re.rmatch true (Re.seqs [Re.Star (Re.Chr Re.CSpace); Re.Eol]) s cap
             (fun s' cap' => Some (cap', s')))
  ↔ Forall (fun c => Py.isspace c = true) s.
Proof.
  cbn [Re.seqs foldr Re.rmatch]. rewrite repeat_spaces_is_Some by done. split.
  - intros (a & r & -> & Ha & Hk). apply Forall_app. split; [done|].
    destruct r as [|c [|]]; [constructor| |by destruct Hk].
    cbn in Hk. case_bool_decide as Hc; [|by destruct Hk]. subst c. by repeat constructor.
  - intros Hs. exists s, []. rewrite app_nil_r. cbn. eauto.
Qed.

(** The pattern of the third search matches exactly the texts that read
    "Next". *)
Lemma next_text_pattern_reads_next s :
  is_Some (Re.search next_text_pattern s) ↔ reads_next s.
Proof.
  unfold Re.search, next_text_pattern, Re.match_here. cbn [Re.anchored Re.body Re.ignorecase].
  set (l := list_ascii_of_string s).
  assert (∀ o : option (option (list ascii) * list ascii),
            is_Some (match o with Some (cap, _) => Some (Re.group1 cap) | None => None end)
            ↔ is_Some o) as Hsome.
  { intros [[??]|]; split; intros [? ?]; by eauto. }
  rewrite Hsome. clear Hsome.
  change (Re.seqs [Re.Star (Re.Chr Re.CSpace); Re.Lit "Next";
                   Re.Star (Re.Chr Re.CSpace); Re.Eol])
    with (Re.Seq (Re.Star (Re.Chr Re.CSpace))
            (Re.Seq (Re.Lit "Next") (Re.seqs [Re.Star (Re.Chr Re.CSpace); Re.Eol]))).
  cbn [Re.rmatch]. rewrite repeat_spaces_is_Some by done.
  unfold reads_next. fold l. split.
  - intros (a & r & Hl & Ha & Hk). apply lit_next_is_Some in Hk as (w & b & -> & Hw & Hb).
    apply spaces_then_end_is_Some in Hb.
    destruct w as [|n [|e [|x [|t [|]]]]]; cbn in Hw; try discriminate.
    injection Hw as Hn He Hx Ht.
    apply (lower_is "N" "n") in Hn; [|vm_compute; lia]. apply (lower_is "E" "e") in He; [|vm_compute; lia].
    apply (lower_is "X" "x") in Hx; [|vm_compute; lia]. apply (lower_is "T" "t") in Ht; [|vm_compute; lia].
    by exists a, b, n, e, x, t.
  - intros (a & b & n & e & x & t & Hl & Ha & Hb & Hn & He & Hx & Ht).
    exists a, ([n; e; x; t] ++ b). split; [done|].
    split; [done|]. apply lit_next_is_Some. exists [n; e; x; t], b. split; [done|].
    split; [|by apply spaces_then_end_is_Some].
    apply (lower_is "N" "n") in Hn; [|vm_compute; lia]. apply (lower_is "E" "e") in He; [|vm_compute; lia].
    apply (lower_is "X" "x") in Hx; [|vm_compute; lia]. apply (lower_is "T" "t") in Ht; [|vm_compute; lia].
    cbn. by rewrite Hn, He, Hx, Ht.
Qed.

(** ** C10: the next-page link *)

Lemma head_filter_Some {A} (P : A → Prop) `{∀ x, Decision (P x)} (l : list A) a :
  head (filter P l) = Some a
  ↔ ∃ before after, l = before ++ a :: after ∧ P a ∧ Forall (fun t => ¬ P t) before.
Proof.
  induction l as [|x l IH].
  - split; [done|]. intros (b & ? & Heq & _). by destruct b.
  - destruct (decide (P x)) as [Hx|Hx].
    + rewrite filter_cons_True by done. cbn. split.
      * intros [= ->]. exists [], l. done.
      * intros ([|y b] & after & Heq & Ha & Hb).
        -- by injection Heq as -> _.
        -- injection Heq as -> _. by apply Forall_cons in Hb as [? _].
    + rewrite filter_cons_False by done. rewrite IH. split.
      * intros (b & after & -> & Ha & Hb). exists (x :: b), after. split; [done|].
        split; [done|]. by constructor.
      * intros ([|y b] & after & Heq & Ha & Hb).
        -- by injection Heq as -> _.
        -- injection Heq as -> ->. apply Forall_cons in Hb as [_ Hb]. eauto.
Qed.

Lemma head_filter_None {A} (P : A → Prop) `{∀ x, Decision (P x)} (l : list A) :
  head (filter P l) = None ↔ Forall (fun t => ¬ P t) l.
Proof.
  induction l as [|x l IH]; [by split; [constructor|]|].
  destruct (decide (P x)) as [Hx|Hx].
  - rewrite filter_cons_True by done. cbn. split; [done|].
    by intros [? _]%Forall_cons.
  - rewrite filter_cons_False by done. rewrite IH. split.
    + by constructor.
    + by intros [_ ?]%Forall_cons.
Qed.

Lemma string_matches_next t :
  string_matches next_text_pattern t = true ↔ ∃ s, tag_string t = Some s ∧ reads_next s.
Proof.
  unfold string_matches. destruct (tag_string t) as [s|].
  - rewrite bool_decide_eq_true, next_text_pattern_reads_next. split; [eauto|].
    by intros (s' & [= <-] & H).
  - split; [done|]. by intros (? & ? & _).
Qed.

Lemma find_next_by_text_spec soup a :
  find_next_by_text soup = Some a ↔ first_such next_by_text soup a.
Proof.
  unfold find_next_by_text, first_such, next_by_text. rewrite head_filter_Some.
  split; intros (b & after & -> & [Hn Ha] & Hb); exists b, after;
    (split; [done|]); (split; [split; [done|]; by apply string_matches_next|]);
    (eapply Forall_impl; [exact Hb|]); intros t Ht [Hn' Ht']; apply Ht;
    (split; [done|]); by apply string_matches_next.
Qed.

(** *** The values of a multi-valued attribute *)

Lemma word_char_not_space c l : Forall word_char l → c ∈ l → space_char c → False.
Proof.
  intros Hl Hc Hs. rewrite Forall_forall in Hl. specialize (Hl c Hc).
  unfold word_char, space_char in *. congruence.
Qed.

(** A text without white space has one run: itself. *)
Lemma tokl_word (X run : list ascii) :
  Forall word_char X → word_of run X ↔ X ≠ [] ∧ run = X.
Proof.
  intros HX. split.
  - intros (Hne & Hrun & before & after & -> & Hb & Ha).
    destruct (last before) as [c|] eqn:Hlast.
    { exfalso. apply (word_char_not_space c _ HX); [|by apply Hb].
      apply elem_of_app. left. by apply last_Some_elem_of. }
    apply last_None in Hlast as ->.
    destruct after as [|c after].
    + rewrite app_nil_r. cbn. done.
    + exfalso. apply (word_char_not_space c _ HX); [|by apply Ha].
      cbn. apply elem_of_app. right. set_solver.
  - intros [Hne ->]. split; [done|]. split; [done|].
    exists [], []. rewrite app_nil_r. done.
Qed.

(** The runs of a text with white space after a first word: the word,
    and the runs of what follows. *)
Lemma tokl_space (X R run : list ascii) (c : ascii) :
  Forall word_char X → space_char c →
  word_of run (X ++ c :: R) ↔ (X ≠ [] ∧ run = X) ∨ word_of run R.
Proof.
  intros HX Hc. split.
  - intros (Hne & Hrun & before & after & Heq & Hb & Ha).
    apply List.app_eq_app in Heq as [l [[-> Heq]|[-> Heq]]].
    + (* the run starts within the word *)
      assert (before = []) as ->.
      { destruct (last before) as [c0|] eqn:Hlast; [|by apply last_None].
        exfalso. apply (word_char_not_space c0 _ HX); [|by apply Hb].
        apply elem_of_app. left. by apply last_Some_elem_of. }
      cbn in HX |- *. symmetry in Heq.
      apply List.app_eq_app in Heq as [l2 [[-> ->]|[-> Heq]]].
      * destruct l2 as [|c2 l2].
        -- left. rewrite app_nil_r in *. split; [by destruct run|done].
        -- exfalso. apply (word_char_not_space c2 _ HX); [set_solver|by apply Ha].
      * destruct l2 as [|c2 l2].
        -- left. rewrite app_nil_r in *. split; [by destruct l|done].
        -- exfalso. cbn in Heq. injection Heq as <- _.
           apply (word_char_not_space c _ Hrun); [set_solver|done].
    + (* the run starts after the word *)
      destruct l as [|c0 l].
      * exfalso. cbn in Heq. destruct run as [|r0 run]; [done|].
        injection Heq as <- _. apply (word_char_not_space c _ Hrun); [set_solver|done].
      * cbn in Heq. injection Heq as <- ->. right.
        split; [done|]. split; [done|]. exists l, after. split; [done|]. split; [|done].
        intros c1 Hl. apply Hb. rewrite last_app_cons.
        rewrite last_cons, Hl. done.
  - intros [[Hne ->]|(Hne & Hrun & before & after & -> & Hb & Ha)].
    + split; [done|]. split; [done|]. exists [], (c :: R). split; [done|].
      split; [done|]. by intros ? [= <-].
    + split; [done|]. split; [done|]. exists (X ++ c :: before), after.
      split; [by rewrite <- app_assoc|]. split; [|done].
      intros c1. rewrite last_app_cons, last_cons.
      destruct (last before) as [c2|] eqn:Hl; [intros [= <-]; by apply Hb|].
      by intros [= <-].
Qed.

Lemma split_go_tokl (s : string) : ∀ cur v,
  Forall word_char (list_ascii_of_string cur) →
  v ∈ split_go cur s
  ↔ word_of (list_ascii_of_string v)
         (reverse (list_ascii_of_string cur) ++ list_ascii_of_string s).
Proof.
  assert (∀ cur v, v = String.rev cur
            ↔ list_ascii_of_string v = reverse (list_ascii_of_string cur)) as Hrev.
  { intros cur v. rewrite <- rev_chars. split; [by intros ->|apply chars_inj]. }
  assert (∀ cur, cur = "" ↔ reverse (list_ascii_of_string cur) = []) as Hnil.
  { intros [|c cur]; [done|]. cbn [list_ascii_of_string]. rewrite reverse_cons.
    split; [done|]. by intros ?%app_eq_nil%proj2. }
  induction s as [|c r IH]; intros cur v Hcur; cbn [split_go list_ascii_of_string].
  - rewrite app_nil_r, tokl_word by (by apply Forall_reverse).
    case_bool_decide as Hc.
    + rewrite elem_of_nil. apply Hnil in Hc. tauto.
    + rewrite list_elem_of_singleton, Hrev. rewrite Hnil in Hc. tauto.
  - destruct (Py.isspace c) eqn:Hsp.
    + rewrite elem_of_app, tokl_space by (done || by apply Forall_reverse).
      rewrite (IH "" v) by constructor. cbn [list_ascii_of_string reverse app].
      change (reverse []) with (@nil ascii). cbn [app].
      case_bool_decide as Hc.
      * rewrite elem_of_nil. apply Hnil in Hc. tauto.
      * rewrite list_elem_of_singleton, Hrev. rewrite Hnil in Hc. tauto.
    + rewrite (IH (String c cur) v) by (by constructor).
      cbn [list_ascii_of_string]. by rewrite reverse_cons, <- app_assoc.
Qed.

(** The values the code reads from an attribute are its white-space
    separated values. *)
Lemma attr_values_token (t : Tag) (key v : string) :
  v ∈ attr_values t key ↔ has_token t key v.
Proof.
  unfold attr_values, has_token. destruct (tag_get t key) as [s|].
  - rewrite split_go_tokl by constructor. cbn. split.
    + intros H. by exists s.
    + by intros (s' & [= <-] & H).
  - rewrite elem_of_nil. split; [done|]. by intros (? & ? & _).
Qed.

Lemma find_next_by_class_spec soup a :
  find_next_by_class soup = Some a ↔ first_such next_by_class soup a.
Proof.
  unfold find_next_by_class, first_such, next_by_class. rewrite head_filter_Some.
  split; intros (b & after & -> & [Hn Ha] & Hb); exists b, after;
    (split; [done|]); (split; [split; [done|]; by apply attr_values_token|]);
    (eapply Forall_impl; [exact Hb|]); intros t Ht [Hn' Ht']; apply Ht;
    (split; [done|]); by apply attr_values_token.
Qed.

Lemma find_next_by_rel_spec soup a :
  find_next_by_rel soup = Some a ↔ first_such next_by_rel soup a.
Proof.
  unfold find_next_by_rel, first_such, next_by_rel. rewrite head_filter_Some.
  split; intros (b & after & -> & [Hn Ha] & Hb); exists b, after;
    (split; [done|]); (split; [split; [done|]; by apply attr_values_token|]);
    (eapply Forall_impl; [exact Hb|]); intros t Ht [Hn' Ht']; apply Ht;
    (split; [done|]); by apply attr_values_token.
Qed.

Lemma iframes_complete_spec U url soup :
  iframes_complete U url soup = true
  ↔ (∀ link, link ∈ page_links soup → readable U url link = true)
    ∧ (∀ src, src ∈ iframe_srcs soup → is_Some (joined U url src)).
Proof.
  unfold iframes_complete, scan_completes.
  rewrite andb_true_iff, !forallb_forall.
  setoid_rewrite <- list_elem_of_In. setoid_rewrite bool_decide_eq_true. done.
Qed.

(** C10. The extractor returns, as its third component, the next-page
    URL: the [href] of the anchor found by the first successful search
    among three (the first anchor with pageNav-jump--next among the
    values of its class; else the first anchor with next among the
    values of its rel; else the first anchor whose text reads "Next"
    apart from case and surrounding white space), resolved with
    [urljoin] against the page URL; nothing when that anchor has no
    [href], when no search finds an anchor, when the fetch fails, or
    when [urljoin] or [urlparse] raised on this link or on a link or an
    iframe before it.  The controller does not use it: the pages a job
    fetches are seeds of the job, in order, each with its scheme added
    when missing. *)
Theorem next_page_found_but_not_followed (U : UrlLib) (E : Env) :
  (∀ url w, ∃ media,
     run_result (extract_media_from_page U E url w) = Ok (media, None, page_next U E url))
  ∧ (∀ url, get_soup E url = None → page_next U E url = None)
  ∧ (∀ url soup, get_soup E url = Some soup →
       page_next U E url
       = if iframes_complete U url soup
         then next_anchor soup ≫= fun a => nonempty (tag_get a "href") ≫= joined U url
         else None)
  ∧ (∀ url soup,
       iframes_complete U url soup = true
       ↔ (∀ link, link ∈ page_links soup → readable U url link = true)
         ∧ (∀ src, src ∈ iframe_srcs soup → is_Some (joined U url src)))
  ∧ (∀ soup a, find_next_by_class soup = Some a ↔ first_such next_by_class soup a)
  ∧ (∀ soup a, find_next_by_rel soup = Some a ↔ first_such next_by_rel soup a)
  ∧ (∀ soup a, find_next_by_text soup = Some a ↔ first_such next_by_text soup a)
  ∧ (∀ soup a, next_anchor soup = Some a ↔
       find_next_by_class soup = Some a
       ∨ (find_next_by_class soup = None ∧ find_next_by_rel soup = Some a)
       ∨ (find_next_by_class soup = None ∧ find_next_by_rel soup = None
          ∧ find_next_by_text soup = Some a))
  ∧ (∀ c, Py.isspace c = true ↔ nat_of_ascii c ∈ white_space)
  ∧ (∀ urls w,
       pages_fetched (run_trace (process_media_scraper U E urls w))
       `prefix_of` (with_scheme <$> urls)).
Proof.
  split; [intros url w; exists (page_media U E url); by rewrite extract_media_from_page_run|].
  split; [intros url Hget; unfold page_next; by rewrite Hget|].
  split.
  { intros url soup Hget. unfold page_next, find_next_page, next_anchor. rewrite Hget.
    destruct (iframes_complete U url soup); [|done].
    destruct (or_else _ _) as [a|]; cbn; [|done].
    destruct (nonempty (tag_get a "href")) as [href|]; cbn; [|done].
    unfold joined. by destruct (urljoin U url href). }
  split; [intros; apply iframes_complete_spec|].
  split; [apply find_next_by_class_spec|].
  split; [apply find_next_by_rel_spec|].
  split; [apply find_next_by_text_spec|].
  split.
  { intros soup a. unfold next_anchor, or_else.
    destruct (find_next_by_class soup), (find_next_by_rel soup), (find_next_by_text soup);
      naive_solver. }
  split; [apply isspace_spec|].
  intros urls w. apply process_media_scraper_steps.
Qed.

Lemma next_page_found_but_not_followed_witness :
  get_soup paged_env "http://site/p1"
  = Some [tag "img" [("src", "http://cdn/a.jpg")];
          {| name := "a"; attrs := [("href", "http://site/p2")];
             tag_string := Some next_text |}]
  ∧ page_next SimpleUrl.lib paged_env "http://site/p1" = Some "http://site/p2"
  ∧ pages_fetched (run_trace (process_media_scraper SimpleUrl.lib paged_env
                                ["http://site/p1"] startup))
    `prefix_of` ["http://site/p1"].
Proof.
  destruct (next_page_found_but_not_followed SimpleUrl.lib paged_env)
    as (_ & _ & Hnext & _ & _ & _ & _ & _ & _ & Hfetch).
  split; [reflexivity|]. split.
  - rewrite (Hnext "http://site/p1" _ eq_refl). reflexivity.
  - apply (Hfetch ["http://site/p1"] startup).
Defined.

(** ** C3: when a URL enters the ledger *)

(** The claim of C3 fails: with a channel that refuses every attempt the
    URL is added to the ledger, and stays there, though nothing was ever
    delivered. *)
Lemma added_without_delivery : ¬ added_after_confirmed_send.
Proof.
  intros H. destruct (H refusing_env ["http://cdn/a.jpg"] "http://site/p" startup 1
                        "http://cdn/a.jpg" eq_refl) as (j & m & kw & Hj & Hs).
  destruct j as [|j]; [|lia]. vm_compute in Hs. discriminate.
Qed.

Example added_without_delivery_ledger :
  "http://cdn/a.jpg" ∈ SENT_MEDIA_URLS
     (run_world (send_images refusing_env ["http://cdn/a.jpg"] "http://site/p" startup))
  ∧ Forall (fun e => ∀ m kw, e ≠ Send m kw Sent)
      (run_trace (send_images refusing_env ["http://cdn/a.jpg"] "http://site/p" startup)).
Proof.
  split.
  - apply (bool_decide_unpack _). by vm_compute.
  - vm_compute. repeat constructor; intros; discriminate.
Qed.

(** C3 (amended). In both delivery operations a URL is added to the
    ledger right after its own successful download, before anything is
    sent for it: every [Add u] is a URL of the list handed to the
    operation, the step just before it is the successful download of
    [u], and [u] is in the ledger when the operation ends, whatever the
    channel answered. *)
Theorem ledger_add_follows_download (U : UrlLib) (E : Env) (urls : list string)
    (referer : string) (w : World) (run : result unit * World * list event)
    (i : nat) (u : string) :
  run = send_images E urls referer w ∨ run = send_videos U E urls referer w →
  run_trace run !! i = Some (Add u) →
  u ∈ urls
  ∧ (∃ j, i = S j ∧ run_trace run !! j = Some (Download u referer true))
  ∧ u ∈ SENT_MEDIA_URLS (run_world run).
Proof.
  intros Hrun Hi.
  assert (delivery_run E urls referer w run) as (Hl & Ha & Hs).
  { destruct Hrun as [-> | ->]; [apply send_images_delivery|apply send_videos_delivery]. }
  split; [|split].
  - eapply Forall_lookup_1 in Hs; [|exact Hi]. done.
  - by apply Ha.
  - destruct Hl as (-> & _). apply elem_of_union_r, elem_of_list_to_set, adds_elem_of.
    by eapply list_elem_of_lookup_2.
Qed.

Lemma ledger_add_follows_download_witness :
  run_trace (send_images refusing_env ["http://cdn/a.jpg"] "http://site/p" startup) !! 1
  = Some (Add "http://cdn/a.jpg")
  ∧ "http://cdn/a.jpg" ∈ ["http://cdn/a.jpg"]
  ∧ (∃ j, 1 = S j
          ∧ run_trace (send_images refusing_env ["http://cdn/a.jpg"] "http://site/p" startup) !! j
            = Some (Download "http://cdn/a.jpg" "http://site/p" true))
  ∧ "http://cdn/a.jpg" ∈ SENT_MEDIA_URLS
       (run_world (send_images refusing_env ["http://cdn/a.jpg"] "http://site/p" startup)).
Proof.
  split; [reflexivity|].
  apply (ledger_add_follows_download SimpleUrl.lib refusing_env ["http://cdn/a.jpg"]
           "http://site/p" startup _ 1 "http://cdn/a.jpg").
  - left. reflexivity.
  - reflexivity.
Defined.

(** ** C5: the ledger only grows *)

(** The claim of C5 fails: a page that shows a URL as an image and whose
    player resolves to the same URL delivers it twice, first in a photo
    group and then as a video, though it was marked in between. *)
Lemma downloaded_again_within_page : ¬ never_downloaded_again.
Proof.
  intros H.
  apply (H SimpleUrl.lib overlap_env ["http://site/p1"] startup 5 8
           "http://cdn/a.jpg" "http://site/p1" true); [lia|reflexivity..].
Qed.

Lemma same_ledger_compositional : compositional same_ledger.
Proof.
  split; [done|]. unfold same_ledger. intros ????? H1 H2. by rewrite H2.
Qed.

Lemma links_loop_same_ledger U E urls : ∀ acc, keeps same_ledger (links_loop U E urls acc).
Proof.
  induction urls as [|url rest IH]; intros acc.
  - by apply keeps_ret, same_ledger_compositional.
  - cbn [links_loop]. apply keeps_bind; [apply same_ledger_compositional|done|].
    intros [].
    + by apply keeps_ret, same_ledger_compositional.
    + apply keeps_bind; [apply same_ledger_compositional| |].
      * intros w. unfold extract_video_links. by destruct (requests_get E _).
      * intros links. apply keeps_bind; [apply same_ledger_compositional|done|].
        intros _. apply IH.
Qed.

Lemma step_same_ledger error e : keeps same_ledger (step error e).
Proof. intros w. unfold step. by destruct error. Qed.

Lemma job_except_same_ledger body :
  keeps same_ledger body → keeps same_ledger (job_except body).
Proof.
  intros H w. specialize (H w). unfold job_except, same_ledger, run_world in *.
  by destruct (body w) as [[[|[|]] ?] ?].
Qed.

Lemma process_video_links_same_ledger U E urls :
  keeps same_ledger (process_video_links U E urls).
Proof.
  unfold process_video_links.
  apply keeps_bind; [apply same_ledger_compositional| |].
  - apply job_except_same_ledger.
    apply keeps_bind; [apply same_ledger_compositional|apply links_loop_same_ledger|].
    intros all_links. unfold report_links. destruct all_links; [done|].
    apply keeps_bind; [apply same_ledger_compositional|apply step_same_ledger|].
    intros _. apply keeps_bind; [apply same_ledger_compositional|apply step_same_ledger|].
    intros _. apply step_same_ledger.
  - intros outcome. apply keeps_bind; [apply same_ledger_compositional|apply step_same_ledger|].
    intros _. by apply keeps_ret, same_ledger_compositional.
Qed.

Lemma job_downloads_not_sent U E urls w u r ok :
  u ∈ SENT_MEDIA_URLS w → Download u r ok ∉ run_trace (process_media_scraper U E urls w).
Proof.
  intros Hu Hin. destruct (process_media_scraper_steps U E urls w) as (_ & Hj & _).
  eapply Forall_forall in Hj; [|exact Hin]. cbn in Hj. by destruct Hj.
Qed.

(** C5 (amended). Nothing is ever removed from the ledger: a scraper job
    ends with the ledger it started with plus the URLs it added, and a
    link job leaves the ledger as it is.  A URL that is in the ledger
    when a job starts is not downloaded in that job, and every send of
    the job carries content downloaded from URLs that were not in the
    ledger then.  Within a job, a URL is not downloaded after a page fetch
    that follows its marking; and in any later job, started with a ledger
    that still holds what this job left, a URL marked by this job is in
    the ledger at the end and is never downloaded. *)
Theorem ledger_membership_permanent (U : UrlLib) (E : Env) (urls : list string) (w : World) :
  let run := process_media_scraper U E urls w in
  SENT_MEDIA_URLS (run_world run)
  = SENT_MEDIA_URLS w ∪ list_to_set (adds (run_trace run))
  ∧ SENT_MEDIA_URLS (run_world (process_video_links U E urls w)) = SENT_MEDIA_URLS w
  ∧ (∀ u r ok, u ∈ SENT_MEDIA_URLS w → Download u r ok ∉ run_trace run)
  ∧ (∀ m kw o, Send m kw o ∈ run_trace run →
       ∃ page us, (∀ u, u ∈ us → u ∉ SENT_MEDIA_URLS w) ∧ sent_from E us page m kw)
  ∧ no_redownload (run_trace run)
  ∧ (∀ (U' : UrlLib) (E' : Env) (urls' : list string) (later : World) (u : string),
       SENT_MEDIA_URLS (run_world run) ⊆ SENT_MEDIA_URLS later →
       Add u ∈ run_trace run →
       let run' := process_media_scraper U' E' urls' later in
       u ∈ SENT_MEDIA_URLS (run_world run')
       ∧ ∀ r ok, Download u r ok ∉ run_trace run').
Proof.
  cbn zeta. destruct (process_media_scraper_steps U E urls w) as (Hl & Hj & Hp & Hn).
  cbn zeta in *. split; [by destruct Hl|].
  split; [apply process_video_links_same_ledger|].
  split; [intros; by apply job_downloads_not_sent|].
  split.
  { intros m kw o Hin. eapply Forall_forall in Hj; [|exact Hin]. cbn in Hj.
    destruct Hj as (page & us & _ & Hus & Hfrom). exists page, us. split; [|done].
    intros u Hu. by destruct (Hus u Hu). }
  split; [done|].
  intros U' E' urls' later u Hsub Hadd.
  assert (u ∈ SENT_MEDIA_URLS later) as Hu.
  { apply Hsub. destruct Hl as (-> & _).
    by apply elem_of_union_r, elem_of_list_to_set, adds_elem_of. }
  split; [|intros; by apply job_downloads_not_sent].
  destruct (process_media_scraper_steps U' E' urls' later) as ((-> & _) & _).
  by apply elem_of_union_l.
Qed.

Lemma ledger_membership_permanent_witness :
  let run := process_media_scraper SimpleUrl.lib overlap_env ["http://site/p1"] startup in
  let run' := process_media_scraper SimpleUrl.lib overlap_env ["http://site/p1"] (run_world run) in
  SENT_MEDIA_URLS (run_world run) ⊆ SENT_MEDIA_URLS (run_world run)
  ∧ Add "http://cdn/a.jpg" ∈ run_trace run
  ∧ "http://cdn/a.jpg" ∈ SENT_MEDIA_URLS (run_world run')
  ∧ ∀ r ok, Download "http://cdn/a.jpg" r ok ∉ run_trace run'.
Proof.
  cbn zeta.
  assert (Add "http://cdn/a.jpg"
            ∈ run_trace (process_media_scraper SimpleUrl.lib overlap_env ["http://site/p1"] startup))
    as Hadd by (apply (list_elem_of_lookup_2 _ 5); reflexivity).
  split; [reflexivity|]. split; [exact Hadd|].
  destruct (ledger_membership_permanent SimpleUrl.lib overlap_env ["http://site/p1"] startup)
    as (_ & _ & _ & _ & _ & Hlater).
  apply (Hlater SimpleUrl.lib overlap_env ["http://site/p1"] _ "http://cdn/a.jpg");
    [reflexivity|exact Hadd].
Defined.

(** ** C9: the gifs list is extracted and then left alone *)

(** The claim of C9 fails: a gif that a player of the same page resolves
    to is also in the videos list, and is downloaded, sent as a video and
    added to the ledger. *)
Lemma gif_delivered_as_video : ¬ gif_urls_never_delivered.
Proof.
  intros H.
  destruct (H SimpleUrl.lib overlap_env ["http://site/p1"] startup
              "http://site/p1" "http://cdn/b.gif") as [Hd _].
  - by left.
  - apply (list_elem_of_lookup_2 _ 0). reflexivity.
  - apply (Hd "http://site/p1" true). apply (list_elem_of_lookup_2 _ 12). reflexivity.
Qed.

Lemma of_kind_elem_of U k u l : u ∈ of_kind U k l → kind_of U u = Some k.
Proof. unfold of_kind. by intros [? _]%list_elem_of_filter. Qed.

(** The lists of a page hold URLs of their kind; the videos list also
    holds what the embeds resolved to. *)
Lemma page_media_kinds U E page u :
  (u ∈ images (page_media U E page) → kind_of U u = Some Image)
  ∧ (u ∈ gifs (page_media U E page) → kind_of U u = Some Gif).
Proof.
  unfold page_media, found_media, limit.
  destruct (get_soup E page) as [soup|]; cbn [images gifs take];
    [|split; by intros ?%elem_of_nil].
  split; intros Hin%(sublist_subseteq _ _ (sublist_take _ _));
    apply (proj1 (uniq_elem_of _ _)) in Hin; by eapply of_kind_elem_of.
Qed.

(** C9 (amended). The extractor returns a gifs list without duplicates
    and of at most 10 URLs, the first gif candidates of the page, and
    the controller never hands it to delivery: every URL a job downloads
    or adds to the ledger is in the images list or in the videos list of
    one of its pages, and every send carries content downloaded from
    such URLs.  So a URL that is in no page's images or videos list, gif
    or not, is never downloaded, sent or added; and a URL of a gifs list
    is in no images list, so that it is delivered only when it is also
    in a videos list, which embed resolution can cause. *)
Theorem gifs_not_passed_to_delivery (U : UrlLib) (E : Env) (urls : list string) (w : World) :
  let run := process_media_scraper U E urls w in
  (∀ page w',
     run_result (extract_media_from_page U E page w')
     = Ok (page_media U E page, None, page_next U E page)
     ∧ length (gifs (page_media U E page)) ≤ 10
     ∧ NoDup (gifs (page_media U E page))
     ∧ ∀ soup, get_soup E page = Some soup →
         gifs (page_media U E page)
         = take 10 (uniq (of_kind U Gif (page_candidates U page soup))))
  ∧ (∀ u r ok, Download u r ok ∈ run_trace run → listed U E urls u r)
  ∧ (∀ u, Add u ∈ run_trace run → ∃ r, listed U E urls u r)
  ∧ (∀ m kw o, Send m kw o ∈ run_trace run →
       ∃ page us, (∀ u, u ∈ us → listed U E urls u page) ∧ sent_from E us page m kw)
  ∧ (∀ u,
       (∀ page, page ∈ with_scheme <$> urls →
                (u ∉ images (page_media U E page)) ∧ (u ∉ videos (page_media U E page))) →
       (∀ r ok, Download u r ok ∉ run_trace run)
       ∧ (Add u ∉ run_trace run)
       ∧ (u ∈ SENT_MEDIA_URLS (run_world run) → u ∈ SENT_MEDIA_URLS w))
  ∧ (∀ u seed,
       u ∈ gifs (page_media U E seed) →
       (∀ page, u ∉ images (page_media U E page))
       ∧ ((∀ page, page ∈ with_scheme <$> urls → u ∉ videos (page_media U E page)) →
          (∀ r ok, Download u r ok ∉ run_trace run)
          ∧ (Add u ∉ run_trace run)
          ∧ (u ∈ SENT_MEDIA_URLS (run_world run) → u ∈ SENT_MEDIA_URLS w))).
Proof.
  cbn zeta. destruct (process_media_scraper_steps U E urls w) as (Hl & Hj & Hp & Hn).
  cbn zeta in *.
  assert (∀ u r ok, Download u r ok ∈ run_trace (process_media_scraper U E urls w) →
                    listed U E urls u r) as Hdown.
  { intros u r ok Hin. eapply Forall_forall in Hj; [|exact Hin]. cbn in Hj. by destruct Hj. }
  assert (∀ u, Add u ∈ run_trace (process_media_scraper U E urls w) →
               ∃ r, listed U E urls u r) as Hadd.
  { intros u Hin. eapply Forall_forall in Hj; [|exact Hin]. cbn in Hj. by destruct Hj. }
  assert (∀ u,
       (∀ page, page ∈ with_scheme <$> urls →
                (u ∉ images (page_media U E page)) ∧ (u ∉ videos (page_media U E page))) →
       (∀ r ok, Download u r ok ∉ run_trace (process_media_scraper U E urls w))
       ∧ (Add u ∉ run_trace (process_media_scraper U E urls w))
       ∧ (u ∈ SENT_MEDIA_URLS (run_world (process_media_scraper U E urls w)) →
          u ∈ SENT_MEDIA_URLS w)) as Hleft.
  { intros u Hnot.
    assert (∀ r, ¬ listed U E urls u r) as Hno.
    { intros r (Hr & Hm). destruct (Hnot r Hr) as [Hi Hv]. by destruct Hm. }
    split; [|split].
    - intros r ok Hin. by eapply Hno, Hdown.
    - intros Hin. destruct (Hadd u Hin) as [r Hr]. by eapply Hno.
    - destruct Hl as (-> & _). intros [Hu|Hu]%elem_of_union; [done|].
      apply elem_of_list_to_set, adds_elem_of in Hu.
      destruct (Hadd u Hu) as [r Hr]. by destruct (Hno r). }
  split.
  { intros page w'. rewrite extract_media_from_page_run. split; [done|].
    unfold page_media, limit. cbn [gifs]. split; [rewrite length_take; lia|].
    unfold found_media. destruct (get_soup E page); cbn [gifs].
    - split; [apply NoDup_take_uniq|]. by intros ? [= <-].
    - split; [constructor|done]. }
  split; [done|]. split; [done|]. split.
  { intros m kw o Hin. eapply Forall_forall in Hj; [|exact Hin]. cbn in Hj.
    destruct Hj as (page & us & _ & Hus & Hfrom). exists page, us. split; [|done].
    intros u Hu. by destruct (Hus u Hu). }
  split; [exact Hleft|].
  intros u seed Hgif.
  assert (∀ page, u ∉ images (page_media U E page)) as Himg.
  { intros page Hin. apply page_media_kinds in Hin. apply page_media_kinds in Hgif.
    congruence. }
  split; [exact Himg|]. intros Hvid. apply Hleft. intros page Hpage. split; auto.
Qed.

Lemma gifs_not_passed_to_delivery_witness :
  let run := process_media_scraper SimpleUrl.lib gifs_env ["http://site/p1"] startup in
  gifs (page_media SimpleUrl.lib gifs_env "http://site/p1")
  = ["http://cdn/b.gif"; "http://cdn/c.gif"]
  ∧ (∀ page, page ∈ with_scheme <$> ["http://site/p1"] →
             "http://cdn/c.gif" ∉ videos (page_media SimpleUrl.lib gifs_env page))
  ∧ (∀ r ok, Download "http://cdn/c.gif" r ok ∉ run_trace run)
  ∧ Add "http://cdn/c.gif" ∉ run_trace run
  ∧ Add "http://cdn/b.gif" ∈ run_trace run.
Proof.
  cbn zeta.
  assert (∀ page, page ∈ with_scheme <$> ["http://site/p1"] →
            "http://cdn/c.gif" ∉ videos (page_media SimpleUrl.lib gifs_env page)) as Hnot.
  { intros page Hpage. apply list_elem_of_singleton in Hpage as ->.
    apply (bool_decide_unpack _). by vm_compute. }
  split; [reflexivity|]. split; [exact Hnot|].
  destruct (gifs_not_passed_to_delivery SimpleUrl.lib gifs_env ["http://site/p1"] startup)
    as (_ & _ & _ & _ & _ & Hgif).
  destruct (Hgif "http://cdn/c.gif" "http://site/p1") as [_ Hleft].
  { apply (list_elem_of_lookup_2 _ 1). reflexivity. }
  destruct (Hleft Hnot) as (Hd & Ha & _).
  split; [exact Hd|]. split; [exact Ha|].
  apply (list_elem_of_lookup_2 _ 8). reflexivity.
Defined.

(** ** C4: cancellation *)

(** C4 (the code at the failing input). The cancel request is seen
    before the second seed: nothing of it is fetched, downloaded or
    sent, but the job leaves its loop by [break] and reports
    "Scraping complete!", not "Canceled.". *)
Theorem cancel_between_seeds_reports_complete :
  let run := process_media_scraper SimpleUrl.lib cancel_between_seeds
               ["http://site/a"; "http://site/b"] startup in
  run_result run = Ok Completed
  ∧ pages_fetched (run_trace run) = ["http://site/a"]
  ∧ downloads (run_trace run) = [("http://cdn/a.jpg", true)]
  ∧ statuses (run_trace run) = [Processing 1 2 "http://site/a"; ScrapingComplete].
Proof. cbn zeta. repeat split; reflexivity. Qed.

(** The defect at large: whenever the flag is already up when the loop
    looks at a seed, the job stops there and reports completion. *)
Lemma break_reports_complete U E url rest w :
  cancel_requested E (polls w) = true → delete_error E = None →
  process_media_scraper U E (url :: rest) w
  = (Ok Completed, polled w, [Status ScrapingComplete; Sleep 3; DeleteStatus]).
Proof.
  intros Hc Hd. rewrite process_media_scraper_run. cbn zeta.
  rewrite scraper_loop_cons, Hc. unfold outcome_of, closing_steps. cbn. by rewrite Hd.
Qed.

(** What does hold: a delivery operation that sees the flag before an
    item stops at once, sending nothing more, not even the batch it has
    gathered; and a job whose loop is left that way reports
    cancellation. *)
Lemma delivery_sees_cancel E url rest referer mg w :
  cancel_requested E (polls w) = true →
  send_images_loop E (url :: rest) referer mg w = (Raise CancelledError, polled w, []).
Proof. intros Hc. by rewrite send_images_loop_cons, Hc. Qed.

Lemma videos_see_cancel U E url rest referer w :
  cancel_requested E (polls w) = true →
  send_videos U E (url :: rest) referer w = (Raise CancelledError, polled w, []).
Proof. intros Hc. unfold send_videos. by rewrite send_videos_loop_cons, Hc. Qed.

Lemma cancelled_loop_reports_cancelled U E urls w :
  run_result (scraper_loop U E (length urls) 0 urls w) = Raise CancelledError →
  run_result (process_media_scraper U E urls w) = Ok Cancelled
  ∧ ∃ t, run_trace (process_media_scraper U E urls w) = t ++ [Status Canceled].
Proof.
  intros Hr. rewrite process_media_scraper_run. cbn zeta. rewrite Hr. split; [done|]. eauto.
Qed.

(** ** C1: the links file *)

(** C1 (the code at the failing input). The duplicates are removed by
    title, not by URL: the links kept are one per title, in the order in
    which the titles were first seen, each with the last URL found under
    that title.  So the file sent for the two pages has two lines for the
    one URL, one per title. *)
Theorem same_url_listed_once_per_title :
  (∀ all_links, (dict_items all_links).*1 = uniq (all_links.*1))
  ∧ (∀ all_links title url,
       (title, url) ∈ dict_items all_links
       ↔ last (filter (fun l => l.1 = title) all_links) = Some (title, url))
  ∧ documents (run_trace (process_video_links SimpleUrl.lib same_video_two_titles
                            ["http://h/page1"; "http://h/page2"] startup))
    = [("First - http://h/v.mp4" +:+ newline +:+ "Second - http://h/v.mp4" +:+ newline, 2)].
Proof.
  split; [exact dict_items_keys|]. split; [exact dict_items_last|]. reflexivity.
Qed.

(** The same defect seen from the other side: of two different videos
    found on one page only the last is kept. *)
Example one_line_per_title :
  documents (run_trace (process_video_links SimpleUrl.lib two_videos_one_title
                          ["http://h/page"] startup))
  = [("Clips - http://h/two.mp4" +:+ newline, 1)].
Proof. reflexivity. Qed.

(** ** C2: the retry wrapper *)

(** The claim of C2 fails: after three rate-limit answers the wrapper
    returns without a fourth attempt, which the channel would have
    accepted. *)
Lemma rate_limit_exhausts_attempts : ¬ rate_limit_never_exhausts.
Proof.
  intros H.
  destruct (H flooded_env send_video ∅ startup 3) as (m & kw & Hin).
  - intros i kw' Hi. exists 1. cbn. by rewrite bool_decide_eq_true_2 by lia.
  - intros kw'. reflexivity.
  - vm_compute in Hin. apply list_elem_of_In in Hin. cbn in Hin.
    repeat (destruct Hin as [Hin|Hin]; [discriminate|]). done.
Qed.

Example flooded_trace :
  omap (fun e => match e with
                 | Send _ _ o => Some (inl o)
                 | Sleep n => Some (inr n)
                 | _ => None
                 end)
       (run_trace (_send_with_retry flooded_env send_video ∅ startup))
  = [inl (RetryAfter 1); inr 1; inl (RetryAfter 1); inr 1; inl (RetryAfter 1); inr 1].
Proof. reflexivity. Qed.

(** ** C6: batches of ten *)

Lemma send_images_batches_witness :
  let run := send_images gallery_env (numbered <$> seq 0 25) "http://site/p" startup in
  never_cancelled gallery_env ∧ telegram_errors_only gallery_env
  ∧ run_result run = Ok tt
  ∧ length <$> sent_groups (run_trace run) = [10; 10; 4]
  ∧ adds (run_trace run) = numbered <$> (seq 0 7 ++ seq 8 17).
Proof.
  cbn zeta.
  assert (never_cancelled gallery_env) as Hc by (intros n; reflexivity).
  assert (telegram_errors_only gallery_env) as Ht by (intros n m kw msg; discriminate).
  split; [exact Hc|]. split; [exact Ht|].
  destruct (send_images_batches gallery_env (numbered <$> seq 0 25) "http://site/p" startup Hc Ht)
    as (Hres & _ & _ & _ & Hsent & _ & Hadds & _).
  split; [exact Hres|]. split.
  - rewrite Hsent by (intros n m kw; reflexivity). reflexivity.
  - rewrite Hadds. reflexivity.
Defined.

Lemma twenty_five_pictures_ready (E : Env) :
  get_content E = (fun _ _ => Some [x2a]%byte) →
  length (numbered <$> seq 0 25) = 25 ∧ NoDup (numbered <$> seq 0 25)
  ∧ Forall (downloaded E "http://site/p") (numbered <$> seq 0 25)
  ∧ Forall (fun u => Py.endswith (Py.lower u) ".webp" = false) (numbered <$> seq 0 25)
  ∧ Forall (fun u => u ∉ SENT_MEDIA_URLS startup) (numbered <$> seq 0 25).
Proof.
  intros Hget. split; [reflexivity|]. split; [apply (bool_decide_unpack _); by vm_compute|].
  split; [|split].
  - apply Forall_forall. intros u _. unfold downloaded. rewrite Hget. eauto.
  - apply (bool_decide_unpack _). by vm_compute.
  - apply Forall_forall. intros u _. apply not_elem_of_empty.
Qed.

(** The claim of C6 fails: the first group is refused once and sent
    again, so that four grouped sends are made, of 10, 10, 10 and 5. *)
Lemma retried_group_sent_again : ¬ three_sends_for_twenty_five.
Proof.
  intros H.
  destruct (twenty_five_pictures_ready flaky_env eq_refl) as (H1 & H2 & H3 & H4 & H5).
  specialize (H flaky_env (numbered <$> seq 0 25) "http://site/p" startup H1 H2 H3 H4 H5).
  vm_compute in H. discriminate.
Qed.

Example retried_group_sizes :
  length <$> sent_groups
    (run_trace (send_images flaky_env (numbered <$> seq 0 25) "http://site/p" startup))
  = [10; 10; 10; 5].
Proof. reflexivity. Qed.

(** With a cancel request before the twelfth picture only the first
    group goes out. *)
Example cancelled_gallery_sizes :
  let run := send_images cancelled_gallery_env (numbered <$> seq 0 25) "http://site/p" startup in
  run_result run = Raise CancelledError
  ∧ length <$> sent_groups (run_trace run) = [10].
Proof. split; reflexivity. Qed.

(** Twenty-five pictures that all download go out as 10, 10 and 5. *)
Example twenty_five_pictures :
  length <$> sent_groups
    (run_trace (send_images (with_contents (fun _ _ => Some [x2a]%byte) quiet)
                  (numbered <$> seq 0 25) "http://site/p" startup))
  = [10; 10; 5].
Proof. reflexivity. Qed.

(** ** C7: a page of a thousand pictures *)

Example thousand_candidates_first_fifty :
  length (of_kind SimpleUrl.lib Image
            (page_candidates SimpleUrl.lib "http://site/big"
               ((fun n => tag "img" [("src", numbered n)]) <$> seq 0 1000))) = 1000
  ∧ run_result (extract_media_from_page SimpleUrl.lib thousand_env "http://site/big" startup)
    = Ok ({| images := numbered <$> seq 0 50; videos := []; gifs := [] |}, None, None).
Proof. split; vm_compute; reflexivity. Qed.

Example broken_link_stops_scan :
  SimpleUrl.join "http://site/p" "http://[" = ValueError "Invalid IPv6 URL"
  ∧ extract_media_from_page SimpleUrl.lib broken_link_env "http://site/p" startup
    = (Ok ({| images := ["http://cdn/a.jpg"]; videos := []; gifs := [] |}, None, None),
       startup, [GetPage "http://site/p" true]).
Proof. split; vm_compute; reflexivity. Qed.

(** ** C8: the embed resolver on a player page *)

Example embed_first_pattern_wins :
  let body := "<video><source src=" +:+ quoted "http:\/\/cdn\/low.mp4" +:+ "></video>"
              +:+ "player.setup({file: " +:+ quoted " \/hd\/v.mp4 " +:+ "})" in
  let E := with_texts (fun _ _ => Some body) quiet in
  Re.search pat_source body = Some "http:\/\/cdn\/low.mp4"
  ∧ run_result (scrape_embedded_video SimpleUrl.lib E "http://embed/x" "http://site/p" startup)
    = Ok (Some "http://embed/hd/v.mp4").
Proof. split; vm_compute; reflexivity. Qed.

Example embed_fetch_failure :
  run_result (scrape_embedded_video SimpleUrl.lib quiet "http://embed/x" "http://site/p" startup)
  = Ok None.
Proof. reflexivity. Qed.

(** White space after [file:] may be a no-break space. *)
Example embed_no_break_space :
  let body := "file:" +:+ String (ascii_of_nat 160) (quoted "/v.mp4") in
  let E := with_texts (fun _ _ => Some body) quiet in
  run_result (scrape_embedded_video SimpleUrl.lib E "http://embed/x" "http://site/p" startup)
  = Ok (Some "http://embed/v.mp4").
Proof. vm_compute. reflexivity. Qed.

(** A match that [urljoin] refuses gives no result. *)
Example embed_unjoinable :
  let body := "file: " +:+ quoted "http://[" in
  let E := with_texts (fun _ _ => Some body) quiet in
  run_result (scrape_embedded_video SimpleUrl.lib E "http://embed/x" "http://site/p" startup)
  = Ok None.
Proof. vm_compute. reflexivity. Qed.

(** ** The utility functions *)

Lemma backslash_special : "\"%char ∈ escape_chars.
Proof. apply (bool_decide_unpack _). by vm_compute. Qed.

Lemma underscore_safe : "_"%char ∉ unsafe_filename_chars.
Proof. apply (bool_decide_unpack _). by vm_compute. Qed.

(** X1. What Telegram reads back from an escaped text is the text, and
    the escaped text is well formed: its special characters are all
    escaped. *)
Theorem escape_markdown_v2_round_trip (text : string) :
  markdown_unescape (escape_markdown_v2 text) = text
  ∧ well_escaped (escape_markdown_v2 text) = true.
Proof.
  induction text as [|c r [IH1 IH2]]; [done|].
  cbn [escape_markdown_v2]. case_bool_decide as Hc.
  - cbn [markdown_unescape well_escaped]. rewrite bool_decide_eq_true_2 by done.
    rewrite IH1, IH2, (bool_decide_eq_true_2 _ Hc). done.
  - assert (c ≠ "\"%char) as Hb by (intros ->; apply Hc, backslash_special).
    cbn [markdown_unescape well_escaped]. rewrite (bool_decide_eq_false_2 _ Hb).
    rewrite IH1, IH2, (bool_decide_eq_false_2 _ Hc). done.
Qed.

(** X2. Escaping adds one character for each special character of the
    text and nothing else: it leaves a text as it is exactly when the
    text has no special character, so escaping twice is not escaping
    once; and it goes through concatenation. *)
Theorem escape_markdown_v2_growth (text : string) :
  String.length (escape_markdown_v2 text) = String.length text + length (specials text)
  ∧ (escape_markdown_v2 text = text ↔ specials text = [])
  ∧ (escape_markdown_v2 (escape_markdown_v2 text) = escape_markdown_v2 text
     ↔ specials text = [])
  ∧ ∀ more, escape_markdown_v2 (text +:+ more)
            = escape_markdown_v2 text +:+ escape_markdown_v2 more.
Proof.
  assert (∀ t, String.length (escape_markdown_v2 t) = String.length t + length (specials t))
    as Hlen.
  { induction t as [|c r IH]; [done|].
    cbn [escape_markdown_v2]. unfold specials in *. cbn [list_ascii_of_string].
    case_bool_decide as Hc.
    - rewrite filter_cons_True by done. cbn [String.length length]. rewrite IH. lia.
    - rewrite filter_cons_False by done. cbn [String.length]. rewrite IH. lia. }
  assert (∀ t, escape_markdown_v2 t = t ↔ specials t = []) as Hfix.
  { induction t as [|c r IH]; [done|].
    cbn [escape_markdown_v2]. unfold specials in *. cbn [list_ascii_of_string].
    case_bool_decide as Hc.
    - rewrite filter_cons_True by done. split; [|done].
      intros Heq. apply (f_equal String.length) in Heq. cbn [String.length] in Heq.
      rewrite Hlen in Heq. lia.
    - rewrite filter_cons_False by done. rewrite <- IH. split; [by intros [= ?]|by intros ->]. }
  split; [apply Hlen|]. split; [apply Hfix|]. split.
  - rewrite Hfix. split.
    + intros Hnone. destruct (specials text) as [|c l] eqn:Hs; [done|]. exfalso.
      assert (c ∈ specials text) as Hin by (rewrite Hs; left).
      apply list_elem_of_filter in Hin as [Hc Hin].
      assert (c ∈ specials (escape_markdown_v2 text)); [|by rewrite Hnone in *; set_solver].
      clear Hs Hnone. apply list_elem_of_filter. split; [done|].
      induction text as [|x r IH]; [by apply elem_of_nil in Hin|].
      cbn [list_ascii_of_string] in Hin. cbn [escape_markdown_v2].
      apply elem_of_cons in Hin as [->|Hin].
      * rewrite bool_decide_eq_true_2 by done. cbn. right. left.
      * case_bool_decide; cbn; repeat right; by apply IH.
    + intros Hs. apply Hfix in Hs. rewrite Hs. by apply Hfix.
  - intros more. induction text as [|c r IH]; [done|].
    rewrite append_cons. cbn [escape_markdown_v2]. rewrite IH.
    by case_bool_decide.
Qed.

(** X3. A safe file name has the length of the name and none of the
    characters of the class; the function does nothing more when
    applied again, and returns the name as it is exactly when the name
    has none of these characters. *)
Theorem safe_filename_safe (name : string) :
  String.length (safe_filename name) = String.length name
  ∧ Forall (fun c => c ∉ unsafe_filename_chars) (list_ascii_of_string (safe_filename name))
  ∧ safe_filename (safe_filename name) = safe_filename name
  ∧ (safe_filename name = name
     ↔ Forall (fun c => c ∉ unsafe_filename_chars) (list_ascii_of_string name)).
Proof.
  induction name as [|c r (IH1 & IH2 & IH3 & IH4)]; [by repeat constructor|].
  cbn [safe_filename String.length list_ascii_of_string].
  split; [by rewrite IH1|]. split; [|split].
  - constructor; [|done]. case_bool_decide; [apply underscore_safe|done].
  - rewrite IH3. f_equal. destruct (bool_decide (c ∈ unsafe_filename_chars)) eqn:Hc.
    + rewrite bool_decide_eq_false_2; [done|apply underscore_safe].
    + by rewrite Hc.
  - rewrite Forall_cons, <- IH4. case_bool_decide as Hc; split.
    + intros [= <- _]. destruct underscore_safe. done.
    + by intros [? _].
    + by intros [= ->].
    + by intros [_ ->].
Qed.

(** What a match of the URL pattern is made of. *)
Lemma found_url_parts (text url : string) :
  url ∈ find_urls_in_text text →
  ∃ before front rest after,
    list_ascii_of_string text = before ++ (front ++ rest) ++ after
    ∧ url = string_of_list_ascii (front ++ rest)
    ∧ front ∈ [list_ascii_of_string "http://"; list_ascii_of_string "https://";
               list_ascii_of_string "www."]
    ∧ rest ≠ [] ∧ Forall is_link_char rest.
Proof.
  unfold find_urls_in_text, Re.findall, url_pattern, unanchored. intros Hin.
  apply findall_go_group in Hin as (before & m & after & Htext & Hm & ->).
  assert (∀ l, Forall (fun x => Re.cmatch false (Re.CSet true true ["<"; ">"; dquote]%char) x
                                = true) l → Forall is_link_char l) as Hclass.
  { intros l Hl. eapply Forall_impl; [exact Hl|]. intros c. apply link_char_class. }
  unfold Re.seqs in Hm. cbn [foldr] in Hm.
  inversion Hm as [| | |r1 r2 a Ha|r1 r2 a Ha| | | | | |]; subst; clear Hm.
  - inversion Ha as [| |? ? a1 b1 H1 Hb1| | | | | | | |]; subst; clear Ha.
    inversion Hb1 as [| |? ? a2 b2 H2 Hb2| | | | | | | |]; subst; clear Hb1.
    inversion Hb2 as [| |? ? a3 b3 H3 Hb3| | | | | | | |]; subst; clear Hb2.
    inversion Hb3 as [| |? ? a4 b4 H4 Hb4| | | | | | | |]; subst; clear Hb3.
    inversion Hb4; subst; clear Hb4.
    apply (matches_Lit_exact "http") in H1. apply (matches_Lit_exact "://") in H3.
    subst a1 a3.
    apply matches_Plus_Chr in H4 as [Hne4 H4]. apply Hclass in H4.
    rewrite app_nil_r in *.
    assert (a2 = [] ∨ a2 = ["s"%char]) as [-> | ->].
    { unfold Re.Opt in H2. inversion H2 as [| | |? ? ? Hs|? ? ? He| | | | | |]; subst.
      - right. inversion Hs as [|? x Hx| | | | | | | | |]; subst. cbn in Hx.
        apply bool_decide_eq_true in Hx. by subst.
      - left. by inversion He. }
    + exists before, (list_ascii_of_string "http://"), a4, after.
      split; [exact Htext|]. split; [done|]. split; [left|done].
    + exists before, (list_ascii_of_string "https://"), a4, after.
      split; [exact Htext|]. split; [done|]. split; [right; left|done].
  - inversion Ha as [| |? ? a1 b1 H1 Hb1| | | | | | | |]; subst; clear Ha.
    inversion Hb1 as [| |? ? a2 b2 H2 Hb2| | | | | | | |]; subst; clear Hb1.
    inversion Hb2; subst; clear Hb2.
    apply (matches_Lit_exact "www.") in H1. subst a1.
    apply matches_Plus_Chr in H2 as [Hne2 H2]. apply Hclass in H2.
    rewrite app_nil_r in *.
    exists before, (list_ascii_of_string "www."), a2, after.
    split; [exact Htext|]. split; [done|]. split; [right; right; left|done].
Qed.

(** The scheme fix-up of the jobs makes every URL found start with
    [http]. *)
Lemma found_url_with_scheme (text url : string) :
  url ∈ find_urls_in_text text → Py.startswith (with_scheme url) "http" = true.
Proof.
  intros Hin.
  apply found_url_parts in Hin as (_ & front & rest & _ & _ & -> & Hfront & _ & _).
  rewrite !elem_of_cons, elem_of_nil in Hfront.
  by destruct Hfront as [->|[->|[->|[]]]].
Qed.

(** X4. Every URL found in a text stands in the text, starts with
    [http://], [https://] or [www.] followed by at least one more
    character, and holds no white space, angle bracket or double quote;
    with the scheme the jobs give it, it starts with [http]. *)
Theorem find_urls_in_text_found (text url : string) :
  url ∈ find_urls_in_text text →
  (∃ before after, text = before +:+ url +:+ after)
  ∧ (∃ rest, rest ≠ ""
       ∧ (url = "http://" +:+ rest ∨ url = "https://" +:+ rest ∨ url = "www." +:+ rest))
  ∧ Forall is_link_char (list_ascii_of_string url)
  ∧ Py.startswith (with_scheme url) "http" = true.
Proof.
  intros Hin. pose proof (found_url_with_scheme text url Hin) as Hscheme.
  apply found_url_parts in Hin
    as (before & front & rest & after & Htext & -> & Hfront & Hne & Hrest).
  split.
  { exists (string_of_list_ascii before), (string_of_list_ascii after).
    rewrite <- !string_of_list_ascii_app, <- Htext.
    by rewrite string_of_list_ascii_of_string. }
  assert (string_of_list_ascii rest ≠ "") as Hne' by (by destruct rest).
  assert (Forall is_link_char front) as Hfront_class.
  { rewrite !elem_of_cons, elem_of_nil in Hfront.
    destruct Hfront as [->|[->|[->|[]]]]; cbn;
      repeat (constructor; [split; by apply (bool_decide_unpack _); vm_compute|]);
      constructor. }
  split; [|split; [|done]].
  - exists (string_of_list_ascii rest). split; [done|].
    rewrite string_of_list_ascii_app, !elem_of_cons, elem_of_nil in *.
    destruct Hfront as [->|[->|[->|[]]]]; auto.
  - rewrite list_ascii_of_string_of_list_ascii. by apply Forall_app.
Qed.

Lemma find_urls_in_text_found_witness :
  "www.x.y/z" ∈ find_urls_in_text "see http://a.b/c, and <www.x.y/z>"
  ∧ Py.startswith (with_scheme "www.x.y/z") "http" = true.
Proof.
  assert ("www.x.y/z" ∈ find_urls_in_text "see http://a.b/c, and <www.x.y/z>") as Hin
    by (apply (bool_decide_unpack _); by vm_compute).
  split; [exact Hin|].
  apply (find_urls_in_text_found "see http://a.b/c, and <www.x.y/z>" "www.x.y/z" Hin).
Defined.

(** Greedy repetition of a class takes every character of the class
    when the continuation accepts what is left. *)
Lemma greedy_class_all {R} icase cc (k : list ascii → option (list ascii) → option R)
    (r : list ascii) cap v :
  match r with [] => True | x :: _ => Re.cmatch icase cc x = false end →
  k r cap = Some v →
  ∀ a fuel, Forall (fun x => Re.cmatch icase cc x = true) a → length (a ++ r) ≤ fuel →
    Re.repeat_go true (Re.rmatch icase (Re.Chr cc)) k fuel (a ++ r) cap = Some v.
Proof.
  intros Hr Hk. induction a as [|x a IH]; intros fuel Ha Hfuel.
  - cbn [app]. destruct fuel as [|fuel]; [done|]. cbn [Re.repeat_go Re.rmatch].
    destruct r as [|y r]; [by cbn|]. rewrite Hr. by cbn.
  - apply Forall_cons in Ha as [Hx Ha]. destruct fuel as [|fuel]; [cbn in Hfuel; lia|].
    cbn [Re.repeat_go Re.rmatch app]. rewrite Hx.
    replace (length (a ++ r) <? length (x :: a ++ r))%nat with true
      by (symmetry; apply Nat.ltb_lt; cbn; lia).
    rewrite IH; [done|done|cbn in Hfuel; lia].
Qed.

Lemma url_match_here (front : list ascii) (rest : list ascii) :
  front ∈ [list_ascii_of_string "http://"; list_ascii_of_string "https://";
           list_ascii_of_string "www."] →
  rest ≠ [] → Forall is_link_char rest →
  Re.match_here url_pattern (front ++ rest) = Some (Some (front ++ rest), []).
Proof.
  intros Hfront Hne Hrest. destruct rest as [|c rest]; [done|].
  apply Forall_cons in Hrest as [Hc Hrest].
  apply link_char_class in Hc.
  assert (Forall (fun x => Re.cmatch false (Re.CSet true true ["<"; ">"; dquote]%char) x = true)
                 rest) as Hall.
  { eapply Forall_impl; [exact Hrest|]. intros x. apply link_char_class. }
  assert (∀ (k : list ascii → option (list ascii) → option (option (list ascii) * list ascii)) v,
            k [] None = Some v →
            Re.rmatch false (Re.Plus link_char) (c :: rest) None k = Some v) as Hplus.
  { intros k v Hk. unfold Re.Plus, link_char. cbn [Re.rmatch]. rewrite Hc.
    rewrite <- (app_nil_r rest).
    apply (greedy_class_all false _ _ [] None v); [done|done|done|].
    rewrite app_nil_r. done. }
  unfold Re.match_here, url_pattern, unanchored, Re.seqs.
  cbn [Re.body Re.ignorecase foldr].
  rewrite !elem_of_cons, elem_of_nil in Hfront.
  destruct Hfront as [->|[->|[->|[]]]].
  all: cbn -[Re.Plus link_char length take].
  all: repeat (rewrite bool_decide_eq_true_2 by reflexivity).
  all: rewrite ?bool_decide_eq_false_2 by discriminate.
  all: cbn -[Re.Plus link_char length take].
  all: erewrite Hplus by reflexivity.
  all: cbn [Re.orelse]; rewrite Nat.sub_0_r, firstn_all; reflexivity.
Qed.

(** X5. A text that is nothing but a URL gives that URL and nothing
    else: one of the three beginnings followed by at least one
    character, none of which is white space, an angle bracket or a
    double quote. *)
Theorem find_urls_in_text_whole (front rest : string) :
  front ∈ ["http://"; "https://"; "www."] →
  rest ≠ "" → Forall is_link_char (list_ascii_of_string rest) →
  find_urls_in_text (front +:+ rest) = [front +:+ rest].
Proof.
  intros Hfront Hne Hrest. unfold find_urls_in_text, Re.findall.
  rewrite list_ascii_of_string_app.
  assert (list_ascii_of_string front
            ∈ [list_ascii_of_string "http://"; list_ascii_of_string "https://";
               list_ascii_of_string "www."]) as Hf.
  { rewrite !elem_of_cons, elem_of_nil in Hfront. rewrite !elem_of_cons.
    destruct Hfront as [->|[->|[->|[]]]]; auto. }
  assert (list_ascii_of_string rest ≠ []) as Hr by (by destruct rest).
  pose proof (url_match_here _ _ Hf Hr Hrest) as Hm.
  assert (0 < length (list_ascii_of_string front ++ list_ascii_of_string rest)) as Hlen.
  { rewrite length_app. destruct (list_ascii_of_string rest); [done|]. cbn. lia. }
  cbn [Re.findall_go]. rewrite Hm.
  replace (length [] <? _)%nat with true by (symmetry; by apply Nat.ltb_lt).
  cbn [Re.group1]. rewrite string_of_list_ascii_app, !string_of_list_ascii_of_string.
  f_equal.
  destruct (length (list_ascii_of_string front ++ list_ascii_of_string rest)); [lia|].
  reflexivity.
Qed.

Lemma find_urls_in_text_whole_witness :
  find_urls_in_text ("www." +:+ "a.b/c?d=1") = ["www." +:+ "a.b/c?d=1"].
Proof.
  apply (find_urls_in_text_whole "www." "a.b/c?d=1").
  - apply (bool_decide_unpack _). by vm_compute.
  - done.
  - cbn. repeat (constructor; [split; by apply (bool_decide_unpack _); vm_compute|]).
    constructor.
Defined.

(** A no-break space ends a URL as any white space does. *)
Example find_urls_in_text_no_break_space :
  find_urls_in_text ("http://a" +:+ String (ascii_of_nat 160) "b") = ["http://a"].
Proof. reflexivity. Qed.

Example find_urls_in_text_ex :
  find_urls_in_text "see http://a.b/c, and <www.x.y/z> http:// www. httpx://u"
  = ["http://a.b/c,"; "www.x.y/z"].
Proof. reflexivity. Qed.

(** ** The link extractor *)

Lemma foldl_invariant {A B} (P : A → Prop) (f : A → B → A) (l : list B) :
  (∀ a x, P a → P (f a x)) → ∀ a, P a → P (foldl f a l).
Proof. intros Hf. induction l as [|x l IH]; intros a Ha; [done|]. cbn. by apply IH, Hf. Qed.

Lemma add_link_ok U title base vl url vl' :
  add_link U title base vl url = Some vl' → links_ok title vl → links_ok title vl'.
Proof.
  unfold add_link. intros Hadd [Hnd Hall].
  destruct (make_absolute_url U url base) as [[a|]|]; cbn [nonempty] in Hadd; simplify_eq;
    [|done].
  case_bool_decide as Ha; simplify_eq; [done|].
  destruct (Py.mem a (vl.*2)) eqn:Hmem; simplify_eq; [done|].
  split.
  - rewrite fmap_app. cbn. apply NoDup_app. split; [done|]. split.
    + intros x Hx Hx'. apply list_elem_of_singleton in Hx'. subst x.
      apply mem_true in Hx. congruence.
    + apply NoDup_singleton.
  - apply Forall_app. split; [done|]. by repeat constructor.
Qed.

Lemma foldl_try_invariant {A B} (P : A → Prop) (f : A → B → option A) (l : list B) :
  (∀ a x a', f a x = Some a' → P a → P a') →
  ∀ a a', foldl_try f a l = Some a' → P a → P a'.
Proof.
  intros Hf. induction l as [|x l IH]; intros a a' Hfold Ha; cbn in Hfold.
  - by simplify_eq.
  - destruct (f a x) as [a1|] eqn:Hx; [|done]. eapply IH; [done|]. by eapply Hf.
Qed.

(** An element on which the body raises whatever the state makes the
    loop raise. *)
Lemma foldl_try_raises {A B} (f : A → B → option A) (l : list B) (x : B) :
  x ∈ l → (∀ a, f a x = None) → ∀ a, foldl_try f a l = None.
Proof.
  intros Hin Hx. induction l as [|y l IH]; intros a; [by apply elem_of_nil in Hin|].
  cbn. apply elem_of_cons in Hin as [<-|Hin]; [by rewrite Hx|].
  destruct (f a y); [by apply IH|done].
Qed.

Lemma scan_script_ok U title base vl script vl' :
  scan_script U title base vl script = Some vl' → links_ok title vl → links_ok title vl'.
Proof.
  unfold scan_script. destruct (nonempty (tag_string script)); [|by intros [= <-]].
  apply foldl_try_invariant. intros a p a'.
  apply foldl_try_invariant. intros ???. apply add_link_ok.
Qed.

Lemma scan_video_tag_ok U title base vl tag vl' :
  scan_video_tag U title base vl tag = Some vl' → links_ok title vl → links_ok title vl'.
Proof.
  unfold scan_video_tag. destruct (nonempty _); [|by intros [= <-]].
  case_bool_decide; [|by intros [= <-]]. apply add_link_ok.
Qed.

Lemma links_ok_take title n vl : links_ok title vl → links_ok title (take n vl).
Proof.
  intros [Hnd Hall]. split.
  - rewrite fmap_take. eapply sublist_NoDup; [exact Hnd|apply sublist_take].
  - by apply Forall_take.
Qed.

Lemma extract_video_links_from_html_ok U soup base links :
  extract_video_links_from_html U soup base = Some links →
  ∃ title, page_title soup = Some title ∧ links_ok title links ∧ length links ≤ 5.
Proof.
  unfold extract_video_links_from_html, page_title.
  destruct (match head _ with Some t => Py.strip <$> tag_string t | None => Some "Untitled" end)
    as [title|]; [|done].
  destruct (foldl_try (scan_script U title base) [] _) as [from_scripts|] eqn:Hs; [|done].
  destruct (foldl_try (scan_video_tag U title base) from_scripts _) as [vl|] eqn:Ht; [|done].
  intros [= <-]. exists title. split; [done|]. split; [|rewrite length_take; lia].
  apply links_ok_take.
  eapply (foldl_try_invariant (links_ok title)); [apply scan_video_tag_ok|exact Ht|].
  eapply (foldl_try_invariant (links_ok title)); [apply scan_script_ok|exact Hs|].
  split; constructor.
Qed.

Lemma add_link_raises U title base url :
  unresolvable U base url → ∀ vl, add_link U title base vl url = None.
Proof. intros [msg Hmsg] vl. unfold add_link. by rewrite Hmsg. Qed.

(** One URL that cannot be made absolute empties the page's result. *)
Lemma extract_video_links_from_html_raises U soup base url :
  url ∈ scanned_urls soup → unresolvable U base url →
  extract_video_links_from_html U soup base = None.
Proof.
  intros Hin Hraise. pose proof (add_link_raises U) as Hadd.
  unfold extract_video_links_from_html.
  destruct (match head _ with Some t => Py.strip <$> tag_string t | None => Some "Untitled" end)
    as [title|]; [|done].
  unfold scanned_urls in Hin. apply elem_of_app in Hin as [Hin|Hin].
  - apply list_elem_of_bind in Hin as (script & Hurl & Hscript).
    rewrite (foldl_try_raises _ _ script Hscript); [done|].
    intros vl. unfold scan_script.
    destruct (nonempty (tag_string script)) as [s|]; [|by apply elem_of_nil in Hurl].
    apply list_elem_of_bind in Hurl as (pattern & Hurl & Hpattern).
    apply (foldl_try_raises _ _ pattern Hpattern). intros vl'.
    apply (foldl_try_raises _ _ url Hurl). intros vl''. by apply Hadd.
  - destruct (foldl_try (scan_script U title base) [] _) as [from_scripts|]; [|done].
    apply list_elem_of_omap in Hin as (tag & Htag & Hurl).
    rewrite (foldl_try_raises _ _ tag Htag); [done|].
    intros vl. unfold scan_video_tag.
    destruct (nonempty (or_else _ _)) as [u|]; [|done].
    case_bool_decide; [|done]. simplify_eq. by apply Hadd.
Qed.

(** X6. The links of one page.  The extractor always returns, after
    one fetch.  It returns no link at all when the fetch fails, when the
    page has a title tag without a string (reading the title raises), or
    when one of the URLs the scan meets cannot be made absolute
    ([urlparse] or [urljoin] raises).  Otherwise there are at most five
    links, their URLs are non-empty and pairwise different, and all of
    them carry the page's title: the string of the first title tag
    without the white space around it, or "Untitled" when there is no
    title tag. *)
Theorem extract_video_links_one_title (U : UrlLib) (E : Env) (url : string) (w : World) :
  let links := page_video_links U E url in
  extract_video_links U E url w
  = (Ok links, w, [RequestsGet url (bool_decide (answered E url))])
  ∧ length links ≤ 5
  ∧ NoDup (links.*2)
  ∧ Forall (fun l => l.2 ≠ "") links
  ∧ (∀ soup, requests_get E url = Some soup →
       match head (filter (fun t => name t = "title") soup) with
       | None => Forall (fun l => l.1 = "Untitled") links
       | Some t =>
           match tag_string t with
           | Some s =>
               Forall (fun l => l.1 = Py.strip s) links
               ∧ ∀ a v b, s = a +:+ v +:+ b → blank a → blank b → trimmed v →
                          Forall (fun l => l.1 = v) links
           | None => links = []
           end
       end)
  ∧ (∀ soup u, requests_get E url = Some soup →
       u ∈ scanned_urls soup → unresolvable U url u → links = [])
  ∧ (requests_get E url = None → links = []).
Proof.
  cbn zeta. unfold extract_video_links, page_video_links, answered.
  destruct (requests_get E url) as [soup|] eqn:Hget.
  - rewrite bool_decide_eq_true_2 by eauto.
    split; [done|].
    assert (∀ soup' u, Some soup = Some soup' → u ∈ scanned_urls soup' →
              unresolvable U url u →
              default [] (extract_video_links_from_html U soup url) = []) as Hraise.
    { intros soup' u [= <-] Hu Hr.
      by rewrite (extract_video_links_from_html_raises U soup url u Hu Hr). }
    destruct (extract_video_links_from_html U soup url) as [links|] eqn:Hlinks;
      cbn [default] in *.
    + apply extract_video_links_from_html_ok in Hlinks as (title & Htitle & [Hnd Hall] & Hlen).
      assert (Forall (fun l : string * string => l.2 ≠ "") links
              ∧ Forall (fun l : string * string => l.1 = title) links) as [Hne Ht].
      { split; (eapply Forall_impl; [exact Hall|]); by intros ? [? ?]. }
      split; [done|]. split; [done|]. split; [done|]. split; [|by split].
      intros soup' [= <-]. unfold page_title in Htitle.
      destruct (head (filter (fun t => name t = "title") soup)) as [t|];
        [|by injection Htitle as <-].
      destruct (tag_string t) as [s|]; cbn in Htitle; [|done].
      injection Htitle as <-. split; [done|].
      intros a v b -> Ha Hb Hv. by rewrite strip_spec in Ht.
    + split; [cbn; lia|]. split; [constructor|]. split; [constructor|]. split; [|by split].
      intros soup' [= <-].
      destruct (head (filter (fun t => name t = "title") soup)) as [t|]; [|constructor].
      destruct (tag_string t) as [s|]; [|done]. split; [constructor|]. intros. constructor.
  - rewrite bool_decide_eq_false_2 by (by intros [? ?]).
    split; [done|]. cbn. split; [lia|]. split; [constructor|]. split; [constructor|].
    split; [done|]. split; done.
Qed.

















Example three_pages_trace :
  process_video_links SimpleUrl.lib three_pages ["http://h/p1"; "h/p2"; "http://h/p3"] startup
  = (Ok Completed, {| SENT_MEDIA_URLS := ∅; polls := 3; sends := 0 |},
     [RequestsGet "http://h/p1" true; Sleep 1; RequestsGet "https://h/p2" false; Sleep 1;
      SendDocument ("Clips - http://h/two.mp4" +:+ newline) 1; DeleteStatus]).
Proof. reflexivity. Qed.

(** The same job when sending the document raises, and when deleting
    the status message raises. *)
Example three_pages_send_fails :
  process_video_links SimpleUrl.lib (with_send_document_error "Timed out" three_pages)
    ["http://h/p1"; "h/p2"; "http://h/p3"] startup
  = (Ok (Failed "Timed out"), {| SENT_MEDIA_URLS := ∅; polls := 3; sends := 0 |},
     [RequestsGet "http://h/p1" true; Sleep 1; RequestsGet "https://h/p2" false; Sleep 1;
      Status (Error "Timed out"); DeleteStatus]).
Proof. reflexivity. Qed.

Example three_pages_delete_fails :
  process_video_links SimpleUrl.lib (with_delete_error "Message to delete not found" three_pages)
    ["http://h/p1"; "h/p2"; "http://h/p3"] startup
  = (Raise (Exception "Message to delete not found"),
     {| SENT_MEDIA_URLS := ∅; polls := 3; sends := 0 |},
     [RequestsGet "http://h/p1" true; Sleep 1; RequestsGet "https://h/p2" false; Sleep 1;
      SendDocument ("Clips - http://h/two.mp4" +:+ newline) 1]).
Proof. reflexivity. Qed.

Example odd_pages_links :
  page_video_links SimpleUrl.lib odd_pages "http://h/p1" = []
  ∧ page_video_links SimpleUrl.lib odd_pages "http://h/p2" = [("More", "http://h/three.mp4")].
Proof. split; reflexivity. Qed.

(** ** What the extractor keeps *)

Lemma any_true {A} (f : A → bool) (l : list A) :
  Py.any f l = true ↔ ∃ x, x ∈ l ∧ f x = true.
Proof.
  unfold Py.any. rewrite existsb_exists. split; intros (x & Hx & Hf); exists x.
  - by rewrite list_elem_of_In.
  - by rewrite <- list_elem_of_In.
Qed.

Lemma any_false {A} (f : A → bool) (l : list A) :
  Py.any f l = false ↔ ¬ ∃ x, x ∈ l ∧ f x = true.
Proof. rewrite <- any_true. by destruct (Py.any f l). Qed.

Lemma nonempty_Some o s : nonempty o = Some s ↔ o = Some s ∧ s ≠ "".
Proof.
  unfold nonempty. destruct o as [s'|]; [|naive_solver].
  case_bool_decide; naive_solver.
Qed.

Lemma candidate_Some U url link u :
  candidate U url link = Some u ↔ urljoin U url link = Returns u ∧ ¬ ignored u.
Proof.
  unfold candidate, ignored, is_ignored.
  destruct (urljoin U url link) as [full_url|msg]; [|naive_solver].
  destruct (Py.any _ IGNORED_MEDIA_PATTERNS) eqn:Hany.
  - apply any_true in Hany. split; [done|]. intros [[= <-] Hn]. by destruct Hn.
  - apply any_false in Hany. split.
    + intros [= <-]. done.
    + intros [[= <-] _]. done.
Qed.

Lemma take_while_subseteq {A} (ok : A → bool) (l : list A) : take_while ok l ⊆ l.
Proof.
  induction l as [|x l IH]; [done|]. cbn. destruct (ok x); [|apply list_subseteq_nil].
  intros y [->|Hy]%elem_of_cons; [left|right; by apply IH].
Qed.

Lemma page_candidates_linked U url soup u :
  u ∈ page_candidates U url soup → linked_from U url soup u ∧ ¬ ignored u.
Proof.
  unfold page_candidates, links_read, linked_from.
  intros (link & Hlink & Hu)%list_elem_of_omap.
  apply take_while_subseteq in Hlink. unfold page_links in Hlink.
  apply list_elem_of_bind in Hlink as (tag & Hlink & Htag).
  apply list_elem_of_filter in Htag as [Hname Htag].
  unfold tag_links in Hlink. apply list_elem_of_omap in Hlink as (attr & Hattr & Hlink).
  apply nonempty_Some in Hlink as [Hlink Hne]. apply candidate_Some in Hu as [Hu Hclean].
  split; [|done]. exists tag, attr, link. done.
Qed.

Lemma kind_of_Image U u : kind_of U u = Some Image ↔ has_ext U image_exts u.
Proof.
  unfold kind_of, has_ext. destruct (urlparse U u) as [parsed|msg]; [|naive_solver].
  cbn zeta. destruct (Py.any _ image_exts) eqn:Hi.
  - apply any_true in Hi as (ext & ? & ?). split; [|done]. intros _. by exists parsed, ext.
  - apply any_false in Hi. split.
    + destruct (Py.endswith _ ".gif"); [done|]. by destruct (Py.any _ video_exts).
    + intros (p & ext & [= <-] & ? & ?). destruct Hi. eauto.
Qed.

Lemma kind_of_Gif U u :
  kind_of U u = Some Gif ↔ has_ext U [".gif"] u ∧ ¬ has_ext U image_exts u.
Proof.
  unfold kind_of, has_ext. destruct (urlparse U u) as [parsed|msg]; [|naive_solver].
  cbn zeta. destruct (Py.any _ image_exts) eqn:Hi.
  - apply any_true in Hi as (ext & ? & ?). split; [done|]. intros [_ []]. by exists parsed, ext.
  - apply any_false in Hi. destruct (Py.endswith _ ".gif") eqn:Hg.
    + split; [|done]. intros _. split.
      * exists parsed, ".gif". split; [done|]. split; [left|done].
      * intros (p & ext & [= <-] & ? & ?). destruct Hi. eauto.
    + split; [by destruct (Py.any _ video_exts)|].
      intros [(p & ext & [= <-] & Hext & He) _]. apply list_elem_of_singleton in Hext. subst.
      congruence.
Qed.

Lemma kind_of_Video U u :
  kind_of U u = Some Video
  ↔ has_ext U video_exts u ∧ ¬ has_ext U [".gif"] u ∧ ¬ has_ext U image_exts u.
Proof.
  unfold kind_of, has_ext. destruct (urlparse U u) as [parsed|msg]; [|naive_solver].
  cbn zeta. destruct (Py.any _ image_exts) eqn:Hi.
  - apply any_true in Hi as (ext & ? & ?). split; [done|]. intros (_ & _ & []).
    by exists parsed, ext.
  - apply any_false in Hi.
    assert (¬ ∃ p ext, Returns parsed = Returns p ∧ ext ∈ image_exts
                       ∧ Py.endswith (Py.lower (url_path p)) ext = true) as Hni.
    { intros (p & ext & [= <-] & ? & ?). destruct Hi. eauto. }
    destruct (Py.endswith _ ".gif") eqn:Hg.
    + split; [done|]. intros (_ & [] & _). exists parsed, ".gif".
      split; [done|]. split; [left|done].
    + assert (¬ ∃ p ext, Returns parsed = Returns p ∧ ext ∈ [".gif"]
                         ∧ Py.endswith (Py.lower (url_path p)) ext = true) as Hng.
      { intros (p & ext & [= <-] & Hext & He). apply list_elem_of_singleton in Hext. subst.
        congruence. }
      destruct (Py.any _ video_exts) eqn:Hv.
      * apply any_true in Hv as (ext & ? & ?). split; [|done]. intros _.
        split; [by exists parsed, ext|done].
      * apply any_false in Hv. split; [done|].
        intros [(p & ext & [= <-] & ? & ?) _]. destruct Hv. eauto.
Qed.

Lemma elem_of_take_uniq n (l : list string) u : u ∈ take n (uniq l) → u ∈ l.
Proof.
  intros H. pose proof (sublist_subseteq _ _ (sublist_take (uniq l) n)) as Hs.
  by apply uniq_elem_of, Hs.
Qed.

Lemma embed_videos_embedded U E url soup u :
  u ∈ embed_videos U E url soup → embedded_in U E url soup u.
Proof.
  unfold embed_videos, embeds_read, embedded_in. intros Hu.
  apply list_elem_of_omap in Hu as (embed_url & Hin & Hu).
  destruct (scan_completes U url soup); [|by apply elem_of_nil in Hin].
  apply list_elem_of_omap in Hin as (src & Hsrc & Hjoin).
  apply take_while_subseteq in Hsrc. unfold iframe_srcs in Hsrc.
  apply list_elem_of_omap in Hsrc as (iframe & Hin & Hsrc).
  apply list_elem_of_filter in Hin as [Hname Hin].
  apply list_elem_of_singleton in Hname.
  apply nonempty_Some in Hsrc as [Hsrc Hne]. apply nonempty_Some in Hu as [Hu Hneu].
  exists iframe, src, embed_url. do 4 (split; [done|]).
  split; [unfold joined in Hjoin; by destruct (urljoin U url src); simplify_eq|].
  split; [|done]. intros w. by rewrite scrape_embedded_video_run, Hu.
Qed.

(** X9. What the extractor returns for a page that answers: every image
    and every gif is the absolute URL of a link of the page, holds none
    of the ignored substrings and has a path with the extension of its
    kind; so is every video, unless the embed resolver returned it for
    an iframe, in which case neither the ignored substrings nor the
    extension are looked at.  No URL is both an image and a gif. *)
Theorem extract_media_kinds (U : UrlLib) (E : Env) (url : string) (w : World) :
  ∃ media next,
    run_result (extract_media_from_page U E url w) = Ok (media, None, next)
    ∧ ∀ soup, get_soup E url = Some soup →
        (∀ u, u ∈ images media →
           linked_from U url soup u ∧ ¬ ignored u ∧ has_ext U image_exts u)
        ∧ (∀ u, u ∈ gifs media →
             linked_from U url soup u ∧ ¬ ignored u ∧ has_ext U [".gif"] u
             ∧ ¬ has_ext U image_exts u)
        ∧ (∀ u, u ∈ videos media →
             (linked_from U url soup u ∧ ¬ ignored u ∧ has_ext U video_exts u
              ∧ ¬ has_ext U [".gif"] u ∧ ¬ has_ext U image_exts u)
             ∨ embedded_in U E url soup u)
        ∧ (∀ u, u ∈ images media → u ∉ gifs media).
Proof.
  exists (page_media U E url), (page_next U E url).
  rewrite extract_media_from_page_run. split; [done|].
  intros soup Hsoup. unfold page_media, found_media, limit. rewrite Hsoup.
  cbn [images videos gifs].
  assert (∀ u, u ∈ take 50 (uniq (of_kind U Image (page_candidates U url soup))) →
               linked_from U url soup u ∧ ¬ ignored u ∧ has_ext U image_exts u) as Himg.
  { intros u Hu. apply elem_of_take_uniq in Hu. apply list_elem_of_filter in Hu as [Hk Hu].
    apply page_candidates_linked in Hu as [Hl Hc]. apply kind_of_Image in Hk. done. }
  assert (∀ u, u ∈ take 10 (uniq (of_kind U Gif (page_candidates U url soup))) →
               linked_from U url soup u ∧ ¬ ignored u ∧ has_ext U [".gif"] u
               ∧ ¬ has_ext U image_exts u) as Hgif.
  { intros u Hu. apply elem_of_take_uniq in Hu. apply list_elem_of_filter in Hu as [Hk Hu].
    apply page_candidates_linked in Hu as [Hl Hc]. apply kind_of_Gif in Hk as [? ?]. done. }
  split; [exact Himg|]. split; [exact Hgif|]. split.
  - intros u Hu. apply elem_of_take_uniq in Hu. apply elem_of_app in Hu as [Hu|Hu].
    + left. apply list_elem_of_filter in Hu as [Hk Hu].
      apply page_candidates_linked in Hu as [Hl Hc]. apply kind_of_Video in Hk as (? & ? & ?).
      done.
    + right. by apply embed_videos_embedded.
  - intros u Hi Hg. apply Himg in Hi as (_ & _ & Hi). apply Hgif in Hg as (_ & _ & _ & Hg).
    done.
Qed.

(** ** Video delivery *)

Lemma filename_of_payload kw1 kw2 :
  payload kw1 = payload kw2 → filename_of kw1 = filename_of kw2.
Proof.
  intros H. assert (payload kw1 !! "filename" = payload kw2 !! "filename") as Hl by by rewrite H.
  unfold payload in Hl. rewrite !lookup_fmap in Hl. unfold filename_of.
  destruct (kw1 !! "filename") as [[]|], (kw2 !! "filename") as [[]|];
    cbn in Hl; simplify_eq; done.
Qed.

Lemma video_of_reset kw : video_of (reset_file_pointers kw) = video_of kw.
Proof. apply video_of_payload, payload_reset. Qed.

Lemma video_of_read n kw : video_of (read_val n <$> kw) = video_of kw.
Proof. apply video_of_payload, payload_read. Qed.

Lemma filename_of_reset kw : filename_of (reset_file_pointers kw) = filename_of kw.
Proof. apply filename_of_payload, payload_reset. Qed.

Lemma filename_of_read n kw : filename_of (read_val n <$> kw) = filename_of kw.
Proof. apply filename_of_payload, payload_read. Qed.

Lemma sent_videos_app t1 t2 : sent_videos (t1 ++ t2) = sent_videos t1 ++ sent_videos t2.
Proof. apply omap_app. Qed.

(** One video through the retry wrapper, inside the [try] of
    [send_videos]: one to three attempts, and the loop goes on whatever
    the channel answered. *)
Lemma send_video_with_retry E kw w :
  let run := try_except (_send_with_retry E send_video kw) (fun _ => ret tt) w in
  ∃ k, 1 ≤ k ≤ 3
    ∧ run = (Ok tt,
             {| SENT_MEDIA_URLS := SENT_MEDIA_URLS w; polls := polls w; sends := sends w + k |},
             run_trace run)
    ∧ sent_videos (run_trace run) = replicate k (video_of kw, filename_of kw)
    ∧ adds (run_trace run) = []
    ∧ downloads (run_trace run) = []
    ∧ (always_accepts E → k = 1).
Proof.
  cbn zeta. unfold try_except, _send_with_retry. cbn [seq].
  next_attempt; [ | next_attempt; [ | next_attempt | next_attempt | ]
                  | next_attempt; [ | next_attempt | next_attempt | ] | ].
  all: unfold attempted, ret; cbn;
    repeat (rewrite video_of_reset || rewrite video_of_read
            || rewrite filename_of_reset || rewrite filename_of_read).
  all: first [ exists 1; split; [lia|]; rewrite ?Nat.add_succ_r, Nat.add_0_r;
               repeat (split; [done|]); intros Hacc; rewrite Hacc in *; done
             | exists 2; split; [lia|]; rewrite ?Nat.add_succ_r, Nat.add_0_r;
               repeat (split; [done|]); intros Hacc; rewrite Hacc in *; done
             | exists 3; split; [lia|]; rewrite ?Nat.add_succ_r, Nat.add_0_r;
               repeat (split; [done|]); intros Hacc; rewrite Hacc in *; done ].
Qed.

Lemma served_cons_go U E referer url rest :
  unnamed U E referer url = false →
  served U E referer (url :: rest) = url :: served U E referer rest
  ∧ reached U E referer (url :: rest) = url :: reached U E referer rest
  ∧ videos_result U E referer (url :: rest) = videos_result U E referer rest.
Proof.
  intros H. unfold reached, videos_result, served. cbn [take_while]. rewrite H. done.
Qed.

Lemma served_cons_stop U E referer url rest :
  unnamed U E referer url = true →
  served U E referer (url :: rest) = []
  ∧ reached U E referer (url :: rest) = [url]
  ∧ videos_result U E referer (url :: rest)
    = match video_filename U E url with
      | Returns _ => Ok tt
      | ValueError msg => Raise (Exception msg)
      end.
Proof.
  intros H. unfold reached, videos_result, served. cbn [take_while]. rewrite H. done.
Qed.

Lemma all_named_served U E referer urls :
  all_named U E referer urls →
  served U E referer urls = urls ∧ reached U E referer urls = urls
  ∧ videos_result U E referer urls = Ok tt.
Proof.
  intros Hall.
  assert (served U E referer urls = urls) as Hs.
  { apply take_while_all, Forall_forall. intros u Hu. unfold unnamed.
    case_bool_decide as Hd; [|done]. destruct (Hall u Hu Hd) as [f ->]. done. }
  unfold reached, videos_result. rewrite Hs.
  split; [done|]. split; [apply take_ge; lia|].
  by rewrite (lookup_ge_None_2 urls (length urls)) by lia.
Qed.

Lemma send_videos_loop_each U E referer :
  never_cancelled E →
  ∀ urls w,
    let run := send_videos_loop U E urls referer w in
    let vids := omap (video_payload U E referer) (served U E referer urls) in
    ∃ ks,
      run_result run = videos_result U E referer urls
      ∧ Forall2 (fun k _ => 1 ≤ k ≤ 3) ks vids
      ∧ sent_videos (run_trace run) = concat (zip_with replicate ks vids)
      ∧ downloads (run_trace run)
        = (fun u => (u, bool_decide (downloaded E referer u))) <$> reached U E referer urls
      ∧ adds (run_trace run) = filter (downloaded E referer) (reached U E referer urls)
      ∧ SENT_MEDIA_URLS (run_world run)
        = SENT_MEDIA_URLS w
          ∪ list_to_set (filter (downloaded E referer) (reached U E referer urls))
      ∧ (always_accepts E → Forall (fun k => k = 1) ks).
Proof.
  intros Hcancel. induction urls as [|url rest IH]; intros w.
  - exists []. cbn. repeat split; try done; try constructor; try lia.
    by rewrite (right_id_L ∅ (∪)).
  - cbn zeta. rewrite send_videos_loop_cons, Hcancel.
    destruct (get_content E url referer) as [content|] eqn:Hget.
    + pose proof (downloaded_Some _ _ _ _ Hget) as Hok.
      destruct (video_filename U E url) as [filename|msg] eqn:Hname.
      * destruct (served_cons_go U E referer url rest) as (-> & -> & ->).
        { unfold unnamed. rewrite Hname. apply andb_false_r. }
        rewrite (filter_cons_True _ _ _ Hok), fmap_cons, (bool_decide_eq_true_2 _ Hok).
        rewrite (omap_cons_Some (video_payload U E referer) url
                   (Some content, Some filename))
          by (unfold video_payload; by rewrite Hget, Hname).
        destruct (send_video_with_retry E
                    (video_kwargs E {| getvalue := content; tell := 0 |} filename)
                    (marked url (polled w)))
          as (k & Hk & Hrun & Hsent & Hadds & Hdl & Hone).
        cbn zeta in *. rewrite bind_run, Hrun.
        destruct (IH {| SENT_MEDIA_URLS := SENT_MEDIA_URLS (marked url (polled w));
                        polls := polls (marked url (polled w));
                        sends := sends (marked url (polled w)) + k |})
          as (ks & Hres & Hks & Hsv & Hdo & Had & Hled & Hacc).
        cbn zeta in *. exists (k :: ks).
        rewrite !prepend_result, !prepend_world, !prepend_trace.
        rewrite !sent_videos_app, !adds_app, !downloads_app.
        rewrite Hres, Hsv, Hdo, Had, Hled, Hsent, Hadds, Hdl.
        rewrite video_of_video_kwargs.
        assert (filename_of (video_kwargs E {| getvalue := content; tell := 0 |} filename)
                = Some filename) as ->.
        { unfold filename_of, video_kwargs.
          rewrite !lookup_insert_ne by done. by rewrite lookup_insert_eq. }
        cbn.
        split; [done|]. split; [by constructor|]. split; [done|]. split; [done|].
        split; [done|].
        split; [by rewrite (assoc_L (∪)), (comm_L (∪) {[url]})|].
        intros Ha. constructor; auto.
      * destruct (served_cons_stop U E referer url rest) as (-> & -> & ->).
        { unfold unnamed. by rewrite Hname, (bool_decide_eq_true_2 _ Hok). }
        rewrite Hname. exists [].
        rewrite (filter_cons_True _ _ _ Hok), fmap_cons, (bool_decide_eq_true_2 _ Hok).
        rewrite !prepend_result, !prepend_world, !prepend_trace.
        unfold run_result, run_world, run_trace. cbn.
        split; [done|]. split; [constructor|]. split; [done|]. split; [done|].
        split; [done|]. split; [|constructor].
        by rewrite (right_id_L ∅ (∪)), (comm_L (∪)).
    + pose proof (downloaded_None _ _ _ Hget) as Hko.
      destruct (served_cons_go U E referer url rest) as (-> & -> & ->).
      { unfold unnamed. by rewrite (bool_decide_eq_false_2 _ Hko). }
      rewrite (filter_cons_False _ _ _ Hko), fmap_cons, (bool_decide_eq_false_2 _ Hko).
      rewrite (omap_cons_None (video_payload U E referer) url)
        by (unfold video_payload; by rewrite Hget).
      destruct (IH (polled w)) as (ks & Hres & Hks & Hsv & Hdo & Had & Hled & Hacc).
      cbn zeta in *. exists ks.
      rewrite !prepend_result, !prepend_world, !prepend_trace.
      rewrite !sent_videos_app, !adds_app, !downloads_app.
      rewrite Hres, Hsv, Hdo, Had, Hled. cbn.
      repeat split; try done; lia.
Qed.

(** X10. With no cancellation, [send_videos] takes the URLs in order,
    downloading each once; it adds to the ledger exactly the URLs whose
    download succeeded; and sends each downloaded video on its own,
    under the file name made from its URL, the retry wrapper trying one
    to three times, and exactly once when the channel accepts every
    attempt.  An exception of a send is logged and the next video is
    taken up.  The one thing that stops it is a downloaded video whose
    file name cannot be made because [urlparse] raises: that URL is
    already in the ledger, nothing is sent for it, and the exception
    leaves [send_videos].  When every downloaded video has a file name,
    every URL is served and [send_videos] returns normally, whatever the
    channel answers. *)
Theorem send_videos_one_by_one (U : UrlLib) (E : Env) (urls : list string) (referer : string)
    (w : World) :
  never_cancelled E →
  let run := send_videos U E urls referer w in
  let done := served U E referer urls in
  let seen := reached U E referer urls in
  let vids := omap (video_payload U E referer) done in
  run_result run = videos_result U E referer urls
  ∧ (∃ ks, Forall2 (fun k _ => 1 ≤ k ≤ 3) ks vids
           ∧ sent_videos (run_trace run) = concat (zip_with replicate ks vids))
  ∧ (always_accepts E → sent_videos (run_trace run) = vids)
  ∧ downloads (run_trace run) = (fun u => (u, bool_decide (downloaded E referer u))) <$> seen
  ∧ adds (run_trace run) = filter (downloaded E referer) seen
  ∧ SENT_MEDIA_URLS (run_world run)
    = SENT_MEDIA_URLS w ∪ list_to_set (filter (downloaded E referer) seen)
  ∧ (all_named U E referer urls →
     done = urls ∧ seen = urls ∧ run_result run = Ok tt)
  ∧ (∀ pre u post msg,
       urls = pre ++ u :: post → all_named U E referer pre →
       downloaded E referer u → video_filename U E u = ValueError msg →
       done = pre ∧ seen = pre ++ [u] ∧ run_result run = Raise (Exception msg)).
Proof.
  intros Hcancel. cbn zeta. unfold send_videos.
  destruct (send_videos_loop_each U E referer Hcancel urls w)
    as (ks & Hres & Hks & Hsv & Hdo & Had & Hled & Hacc).
  cbn zeta in *. split; [done|]. split; [by exists ks|].
  split; [intros Ha; rewrite Hsv; apply zip_with_replicate_ones; auto|].
  split; [done|]. split; [done|]. split; [done|]. split.
  - intros Hall. rewrite Hres. apply all_named_served, Hall.
  - intros pre u post msg -> Hpre Hd Hname. rewrite Hres.
    assert (served U E referer (pre ++ u :: post) = pre) as Hs.
    { apply (take_while_stop _ pre post u).
      - apply Forall_forall. intros x Hx. unfold unnamed.
        case_bool_decide as Hdx; [|done]. destruct (Hpre x Hx Hdx) as [f ->]. done.
      - unfold unnamed. by rewrite Hname, (bool_decide_eq_true_2 _ Hd). }
    unfold reached, videos_result. rewrite Hs.
    split; [done|]. split.
    + rewrite take_app_ge by lia. replace (S (length pre) - length pre) with 1 by lia. done.
    + rewrite lookup_app_r by lia. rewrite Nat.sub_diag. cbn. by rewrite Hname.
Qed.

Lemma send_videos_one_by_one_witness :
  let run := send_videos SimpleUrl.lib failing_channel_env
               ["http://cdn/d/a.mp4"; "http://cdn/b.mp4"; "http://cdn/c/"] "http://site/p" startup in
  never_cancelled failing_channel_env
  ∧ run_result run = Ok tt
  ∧ sent_videos (run_trace run)
    = [(Some [x2a; x2b]%byte, Some "a.mp4"); (Some [x2a; x2b]%byte, Some "video_0.mp4")]
  ∧ adds (run_trace run) = ["http://cdn/d/a.mp4"; "http://cdn/c/"].
Proof.
  cbn zeta.
  assert (never_cancelled failing_channel_env) as Hc by (intros n; reflexivity).
  split; [exact Hc|].
  destruct (send_videos_one_by_one SimpleUrl.lib failing_channel_env
              ["http://cdn/d/a.mp4"; "http://cdn/b.mp4"; "http://cdn/c/"] "http://site/p" startup Hc)
    as (Hres & _ & _ & _ & Hadds & _).
  split; [exact Hres|]. split; [reflexivity|]. rewrite Hadds. reflexivity.
Defined.

(** The second of three videos has a URL that [urlparse] refuses: it is
    downloaded and marked, nothing is sent for it, and the third is
    never reached. *)
Example send_videos_stops_at_unnamed :
  let run := send_videos SimpleUrl.lib failing_channel_env
               ["http://cdn/d/a.mp4"; "http://[/b.mp4"; "http://cdn/c.mp4"] "http://site/p"
               startup in
  run_result run = Raise (Exception "Invalid IPv6 URL")
  ∧ downloads (run_trace run) = [("http://cdn/d/a.mp4", true); ("http://[/b.mp4", true)]
  ∧ adds (run_trace run) = ["http://cdn/d/a.mp4"; "http://[/b.mp4"]
  ∧ sent_videos (run_trace run) = [(Some [x2a; x2b]%byte, Some "a.mp4")].
Proof. by vm_compute. Qed.

(** ** Cancellation during image delivery *)

Lemma cancel_after_prepend {A B} t (r : result A * World * list event) :
  @cancel_after A B (prepend t r) = prepend t (cancel_after r).
Proof. unfold cancel_after, prepend, run_result, run_world, run_trace. cbn. by destruct r as [[[|] ?] ?]. Qed.

Lemma send_images_loop_cancelled E referer u post : ∀ pre mg w,
  (∀ i, i < length pre → cancel_requested E (polls w + i) = false) →
  cancel_requested E (polls w + length pre) = true →
  send_images_loop E (pre ++ u :: post) referer mg w
  = cancel_after (send_images_loop (no_cancel E) pre referer mg w).
Proof.
  induction pre as [|x pre IH]; intros mg w Hbefore Hat.
  - cbn [app length] in *. rewrite send_images_loop_cons.
    rewrite Nat.add_0_r in Hat. by rewrite Hat.
  - cbn [app length] in *. rewrite !send_images_loop_cons.
    assert (cancel_requested E (polls w) = false) as ->
      by (rewrite <- (Nat.add_0_r (polls w)); apply Hbefore; lia).
    change (cancel_requested (no_cancel E) (polls w)) with false.
    change (get_content (no_cancel E) x referer) with (get_content E x referer).
    change (image_payload (no_cancel E) referer x) with (image_payload E referer x).
    assert (∀ w1 mg1, polls w1 = S (polls w) →
              send_images_loop E (pre ++ u :: post) referer mg1 w1
              = cancel_after (send_images_loop (no_cancel E) pre referer mg1 w1)) as Hnext.
    { intros w1 mg1 Hp. apply IH.
      - intros i Hi. rewrite Hp. replace (S (polls w) + i) with (polls w + S i) by lia.
        apply Hbefore. lia.
      - rewrite Hp. by replace (S (polls w) + length pre) with (polls w + S (length pre)) by lia. }
    destruct (get_content E x referer) as [content|].
    + destruct (image_payload E referer x) as [bytes|].
      * cbn zeta. rewrite cancel_after_prepend. f_equal.
        case_bool_decide; [|by apply Hnext].
        rewrite !bind_run.
        change (_send_with_retry (no_cancel E)) with (_send_with_retry E).
        change (media_group_kwargs (no_cancel E)) with (media_group_kwargs E).
        destruct (send_with_retry_channel_steps E send_media_group
                    (media_group_kwargs E (mg ++ [MBytes {| getvalue := bytes; tell := 0 |}]))
                    (marked x (polled w))) as (_ & _ & Hp & _).
        destruct (_send_with_retry E send_media_group _ _) as [[[[]|e] w1] t1].
        -- rewrite cancel_after_prepend. f_equal. by apply Hnext.
        -- done.
      * rewrite cancel_after_prepend. f_equal. by apply Hnext.
    + rewrite cancel_after_prepend. f_equal. by apply Hnext.
Qed.

Lemma send_images_cancelled_run E referer pre u post w :
  (∀ i, i < length pre → cancel_requested E (polls w + i) = false) →
  cancel_requested E (polls w + length pre) = true →
  send_images E (pre ++ u :: post) referer w
  = cancel_after (send_images_loop (no_cancel E) pre referer [] w).
Proof.
  intros Hbefore Hat. unfold send_images.
  assert (∀ l, match pre ++ u :: post with
               | [] => ret tt
               | _ => l
               end = l) as -> by (intros l; by destruct pre).
  rewrite bind_run, send_images_loop_cancelled by done.
  unfold cancel_after, run_result, run_world, run_trace.
  by destruct (send_images_loop (no_cancel E) pre referer [] w) as [[[mg|e] w1] t1].
Qed.

(** X11. When the flag is first seen raised before the [k]-th URL,
    [send_images] raises [CancelledError] there: the URLs before it have
    been downloaded and those that downloaded are in the ledger, the
    others are not touched; only full groups of ten have been sent, and
    the images gathered since the last full group (up to nine) are
    dropped unsent, though their URLs are in the ledger. *)
Theorem send_images_cancelled (E : Env) (urls : list string) (referer : string) (w : World)
    (k : nat) :
  telegram_errors_only E →
  cancel_seen_at E w (length urls) k → k < length urls →
  let run := send_images E urls referer w in
  let seen := take k urls in
  run_result run = Raise CancelledError
  ∧ downloads (run_trace run) = (fun u => (u, bool_decide (downloaded E referer u))) <$> seen
  ∧ adds (run_trace run) = filter (downloaded E referer) seen
  ∧ SENT_MEDIA_URLS (run_world run)
    = SENT_MEDIA_URLS w ∪ list_to_set (filter (downloaded E referer) seen)
  ∧ ∃ full dropped ks,
      omap (image_payload E referer) seen = concat full ++ dropped
      ∧ Forall (fun g => length g = 10) full
      ∧ length dropped < 10
      ∧ Forall2 (fun k _ => 1 ≤ k ≤ 3) ks full
      ∧ sent_groups (run_trace run) = concat (zip_with replicate ks full).
Proof.
  intros Hchannel (_ & Hbefore & Hat) Hk. cbn zeta.
  destruct (lookup_lt_is_Some_2 urls k Hk) as [u Hu].
  pose proof (take_drop_middle urls k u Hu) as Hsplit.
  assert (length (take k urls) = k) as Hlen by (rewrite length_take; lia).
  assert (send_images E urls referer w
          = cancel_after (send_images_loop (no_cancel E) (take k urls) referer [] w)) as ->.
  { rewrite <- Hsplit at 1. apply send_images_cancelled_run; rewrite Hlen; auto. }
  assert (never_cancelled (no_cancel E)) as Hnc by (intros n; reflexivity).
  destruct (send_images_loop_batches (no_cancel E) referer Hnc Hchannel (take k urls) [] w)
    as (bs' & full & ks & Hres & Hbs' & Hfull & Hks & Hcat & Hsg & Had & Hdo & Hled & _);
    [cbn; lia|].
  cbn zeta in *. change (MBytes <$> []) with (@nil media_val) in *.
  change (getvalue <$> []) with (@nil (list byte)) in Hcat. cbn [app] in Hcat.
  unfold cancel_after, run_result, run_world, run_trace in *. rewrite Hres.
  cbn [fst snd polled SENT_MEDIA_URLS].
  split; [done|]. split; [exact Hdo|]. split; [exact Had|]. split; [exact Hled|].
  exists full, (getvalue <$> bs'), ks.
  split; [by rewrite Hcat|]. split; [done|]. split; [by rewrite length_fmap|].
  split; [done|exact Hsg].
Qed.

Lemma send_images_cancelled_witness :
  let run := send_images cancel_at_twelfth (numbered <$> seq 0 12) "http://site/p" startup in
  telegram_errors_only cancel_at_twelfth
  ∧ cancel_seen_at cancel_at_twelfth startup 12 11
  ∧ run_result run = Raise CancelledError
  ∧ adds (run_trace run) = numbered <$> seq 0 11
  ∧ length <$> sent_groups (run_trace run) = [10].
Proof.
  cbn zeta.
  assert (telegram_errors_only cancel_at_twelfth) as Ht by (intros n m kw msg; discriminate).
  assert (cancel_seen_at cancel_at_twelfth startup 12 11) as Hk.
  { split; [lia|]. split.
    - intros i Hi. cbn. apply bool_decide_eq_false_2. lia.
    - intros _. reflexivity. }
  split; [exact Ht|]. split; [exact Hk|].
  pose proof Hk as Hk'. change 12 with (length (numbered <$> seq 0 12)) in Hk'.
  destruct (send_images_cancelled cancel_at_twelfth (numbered <$> seq 0 12) "http://site/p"
              startup 11 Ht Hk') as (Hres & _ & Hadds & _); [cbn; lia|].
  split; [exact Hres|]. split; [rewrite Hadds; reflexivity|reflexivity].
Defined.

(** ** A job that nobody cancels *)










(** The same job when the status message cannot be deleted. *)
Example scraper_job_delete_fails :
  let run := process_media_scraper SimpleUrl.lib (with_delete_error "Message to delete not found"
                                                    two_seeds)
               ["http://site/a"; "site/b"] startup in
  run_result run = Ok (Failed "Message to delete not found")
  ∧ statuses (run_trace run)
    = [Processing 1 2 "http://site/a"; Processing 2 2 "https://site/b"; ScrapingComplete;
       Error "Message to delete not found"].
Proof. by vm_compute. Qed.

(** ** The file name of a video *)

Lemma basename_go_spec : ∀ s cur,
  "/"%char ∉ list_ascii_of_string cur →
  ("/"%char ∉ list_ascii_of_string (basename_go cur s))
  ∧ ∃ dir, list_ascii_of_string (String.rev cur) ++ list_ascii_of_string s
           = dir ++ list_ascii_of_string (basename_go cur s)
           ∧ (dir = [] ∨ last dir = Some "/"%char).
Proof.
  induction s as [|c r IH]; intros cur Hcur; cbn [basename_go].
  - split.
    + rewrite rev_chars, elem_of_reverse. done.
    + exists []. cbn. rewrite app_nil_r. split; [done|by left].
  - case_bool_decide as Hc.
    + subst c. destruct (IH "") as [Hno (dir & Hdir & Hlast)]; [apply not_elem_of_nil|].
      split; [done|]. cbn in Hdir.
      exists (list_ascii_of_string (String.rev cur) ++ "/"%char :: dir).
      cbn [list_ascii_of_string]. rewrite Hdir, <- app_assoc. split; [done|]. right.
      destruct Hlast as [->|Hlast].
      * by rewrite last_snoc.
      * rewrite last_app. cbn [last]. destruct dir as [|x dir]; [done|].
        by rewrite last_cons, Hlast.
    + destruct (IH (String c cur)) as [Hno (dir & Hdir & Hlast)].
      { cbn [list_ascii_of_string]. rewrite not_elem_of_cons. split; [congruence|done]. }
      split; [done|]. exists dir. split; [|done]. rewrite <- Hdir.
      rewrite !rev_chars. cbn [list_ascii_of_string]. rewrite reverse_cons, <- app_assoc. done.
Qed.

Lemma string_of_uint_digits (d : Decimal.uint) :
  "/"%char ∉ list_ascii_of_string (NilZero.string_of_uint d).
Proof.
  assert (∀ d, "/"%char ∉ list_ascii_of_string (NilEmpty.string_of_uint d)) as H.
  { induction d0; cbn [NilEmpty.string_of_uint list_ascii_of_string];
      rewrite ?not_elem_of_cons; try (split; [done|]); try done.
    apply not_elem_of_nil. }
  unfold NilZero.string_of_uint. destruct d; try apply H.
  cbn. rewrite not_elem_of_cons. split; [done|apply not_elem_of_nil].
Qed.

(** X13. The file name a video is sent under is never empty and holds
    no slash: it is what follows the last slash of the URL's path, or
    [video_<time>.mp4] when nothing follows it.  No file name is made
    when [urlparse] raises on the URL: its [ValueError] is passed on. *)
Theorem video_filename_spec (U : UrlLib) (E : Env) (url : string) :
  match urlparse U url with
  | Returns parsed =>
      let path := url_path parsed in
      ∃ name,
        video_filename U E url = Returns name
        ∧ name ≠ ""
        ∧ ("/"%char ∉ list_ascii_of_string name)
        ∧ (∃ dir, list_ascii_of_string path = dir ++ list_ascii_of_string (basename path)
                  ∧ (dir = [] ∨ last dir = Some "/"%char)
                  ∧ ("/"%char ∉ list_ascii_of_string (basename path)))
        ∧ (basename path ≠ "" → name = basename path)
        ∧ (basename path = "" →
           name = "video_" +:+ Py.str_of_nat (time_now E) +:+ ".mp4")
  | ValueError msg => video_filename U E url = ValueError msg
  end.
Proof.
  unfold video_filename. destruct (urlparse U url) as [parsed|msg]; [|done].
  cbn zeta. unfold basename.
  destruct (basename_go_spec (url_path parsed) "") as [Hno (dir & Hdir & Hlast)];
    [apply not_elem_of_nil|].
  cbn in Hdir.
  assert ("/"%char ∉ list_ascii_of_string
            ("video_" +:+ Py.str_of_nat (time_now E) +:+ ".mp4")) as Hfallback.
  { rewrite !list_ascii_of_string_app, !elem_of_app. intros [Hin|[Hin|Hin]].
    - revert Hin. apply (bool_decide_unpack _). by vm_compute.
    - by apply string_of_uint_digits in Hin.
    - revert Hin. apply (bool_decide_unpack _). by vm_compute. }
  eexists. split; [reflexivity|].
  case_bool_decide as Hb.
  - split; [done|]. split; [done|]. split; [by exists dir|]. split; [done|done].
  - split; [done|]. split; [done|]. split; [by exists dir|]. split; [done|done].
Qed.

(** ** Videos are sent as soon as they are marked *)

Lemma send_with_retry_first_attempt E m kw w :
  ∃ o rest, run_trace (_send_with_retry E m kw w)
            = Send m (reset_file_pointers kw) o :: rest.
Proof.
  unfold _send_with_retry. cbn [seq]. rewrite send_attempts_cons. cbn zeta.
  destruct (outcome _); try case_bool_decide;
    try destruct (send_attempts E _ m _ _) as [[??]?]; cbn; eauto.
Qed.

Lemma try_except_channel_steps E m kw w :
  Forall channel_step (run_trace (try_except (_send_with_retry E m kw) (fun _ => ret tt) w))
  ∧ ∃ o rest, run_trace (try_except (_send_with_retry E m kw) (fun _ => ret tt) w)
              = Send m (reset_file_pointers kw) o :: rest.
Proof.
  destruct (send_with_retry_channel_steps E m kw w) as (Hsteps & _).
  destruct (send_with_retry_first_attempt E m kw w) as (o & rest & Hfirst).
  unfold try_except, ret. destruct (_send_with_retry E m kw w) as [[[|[|msg]] w1] t1];
    unfold run_trace in *; cbn [fst snd] in *; subst t1.
  - split; [done|]. eauto.
  - split; [done|]. eauto.
  - rewrite app_nil_r. split; [done|]. eauto.
Qed.

Lemma add_followed_shift U E referer t0 (run : result unit * World * list event) i u :
  add_followed U E referer run i u →
  add_followed U E referer (prepend t0 run) (length t0 + i) u.
Proof.
  unfold add_followed. rewrite prepend_trace, prepend_result.
  replace (S (length t0 + i)) with (length t0 + S i) by lia.
  rewrite lookup_app_r by lia. replace (length t0 + S i - length t0) with (S i) by lia. done.
Qed.

Lemma send_videos_loop_adds_then_sends U E referer urls : ∀ w i u,
  run_trace (send_videos_loop U E urls referer w) !! i = Some (Add u) →
  add_followed U E referer (send_videos_loop U E urls referer w) i u.
Proof.
  induction urls as [|url rest IH]; intros w i u; [by destruct i|].
  rewrite send_videos_loop_cons. destruct (cancel_requested E (polls w)); [by destruct i|].
  destruct (get_content E url referer) as [content|] eqn:Hget.
  - destruct (video_filename U E url) as [filename|msg] eqn:Hname.
    + rewrite bind_run.
      destruct (try_except_channel_steps E send_video
                  (video_kwargs E {| getvalue := content; tell := 0 |} filename)
                  (marked url (polled w))) as (Hsteps & o & more & Hfirst).
      assert (video_of (reset_file_pointers
                          (video_kwargs E {| getvalue := content; tell := 0 |} filename))
              = Some content) as Hv
        by (by rewrite video_of_reset, video_of_video_kwargs).
      assert (filename_of (reset_file_pointers
                             (video_kwargs E {| getvalue := content; tell := 0 |} filename))
              = Some filename) as Hf.
      { rewrite filename_of_reset. unfold filename_of, video_kwargs.
        rewrite !lookup_insert_ne by done. by rewrite lookup_insert_eq. }
      destruct (try_except _ _ (marked url (polled w))) as [[[[]|e] w1] t1];
        unfold run_trace in Hsteps, Hfirst; cbn [fst snd] in Hsteps, Hfirst; subst t1.
      * rewrite prepend_prepend. intros Hi.
        set (t0 := [Download url referer true; Add url]
                   ++ Send send_video (reset_file_pointers
                        (video_kwargs E {| getvalue := content; tell := 0 |} filename)) o
                      :: more) in *.
        rewrite prepend_trace in Hi.
        destruct (decide (i < length t0)) as [Hlt|Hge].
        -- rewrite lookup_app_l in Hi by done.
           destruct i as [|[|i]]; [done| |].
           ++ injection Hi as <-. unfold add_followed. rewrite Hname, prepend_trace.
              eexists _, o. split; [reflexivity|]. rewrite Hv, Hget. eauto.
           ++ exfalso. change (t0 !! S (S i)) with
                ((Send send_video (reset_file_pointers
                    (video_kwargs E {| getvalue := content; tell := 0 |} filename)) o
                  :: more) !! i) in Hi.
              eapply Forall_lookup_1 in Hsteps; [|exact Hi]. done.
        -- rewrite lookup_app_r in Hi by lia. apply IH in Hi.
           apply (add_followed_shift U E referer t0) in Hi.
           by replace (length t0 + (i - length t0)) with i in Hi by lia.
      * intros Hi. unfold prepend, run_trace in Hi. cbn [fst snd] in Hi.
        destruct i as [|[|i]]; [done| |].
        -- cbn in Hi. injection Hi as <-. unfold add_followed. rewrite Hname.
           eexists _, o. split; [reflexivity|]. rewrite Hv, Hget. eauto.
        -- exfalso. change (_ !! S (S i)) with
                ((Send send_video (reset_file_pointers
                    (video_kwargs E {| getvalue := content; tell := 0 |} filename)) o
                  :: more) !! i) in Hi.
           eapply Forall_lookup_1 in Hsteps; [|exact Hi]. done.
    + intros Hi. unfold prepend, run_trace in Hi. cbn [fst snd app] in Hi.
      destruct i as [|[|[|i]]]; [done| |done|done].
      injection Hi as <-. unfold add_followed. rewrite Hname, Hget. eauto.
  - intros Hi. rewrite prepend_trace in Hi. destruct i as [|i]; [done|].
    change (run_trace (send_videos_loop U E rest referer (polled w)) !! i = Some (Add u)) in Hi.
    apply IH in Hi. by apply (add_followed_shift U E referer [Download url referer false]) in Hi.
Qed.

(** X14. In [send_videos], whatever the channel answers and whenever
    the flag is raised, a URL is added to the ledger right after its
    download and right before the first attempt to send its video,
    under the file name made from the URL: nothing that was downloaded
    and marked is left without an attempt.  The one exception is a URL
    whose file name cannot be made because [urlparse] raises: it has
    been downloaded and added, the addition is the last step of the run,
    and the exception leaves [send_videos]. *)
Theorem send_videos_marks_then_sends (U : UrlLib) (E : Env) (urls : list string)
    (referer : string) (w : World) :
  let run := send_videos U E urls referer w in
  let t := run_trace run in
  ∀ i u, t !! i = Some (Add u) →
    (∃ content, t !! (i - 1) = Some (Download u referer true)
                ∧ get_content E u referer = Some content
                ∧ match video_filename U E u with
                  | Returns filename =>
                      ∃ kw o, t !! S i = Some (Send send_video kw o)
                              ∧ video_of kw = Some content
                              ∧ filename_of kw = Some filename
                  | ValueError msg =>
                      t !! S i = None ∧ run_result run = Raise (Exception msg)
                  end)
    ∧ 0 < i.
Proof.
  cbn zeta. intros i u Hi. unfold send_videos in *.
  pose proof (send_videos_loop_adds_then_sends U E referer urls w i u Hi) as Hnext.
  destruct (send_videos_delivery U E referer urls w) as (_ & Hfollow & _).
  unfold send_videos in Hfollow. destruct (Hfollow i u Hi) as (j & -> & Hj).
  split; [|lia]. replace (S j - 1) with j by lia.
  unfold add_followed in Hnext. destruct (video_filename U E u) as [filename|msg].
  - destruct Hnext as (kw & o & Hn & [content Hc] & Hv & Hf).
    exists content. split; [done|]. split; [congruence|]. exists kw, o. done.
  - destruct Hnext as (Hn & Hr & [content Hc]). by exists content.
Qed.

Lemma send_videos_marks_then_sends_witness :
  let t := run_trace (send_videos SimpleUrl.lib failing_channel_env
                        ["http://cdn/d/a.mp4"; "http://cdn/b.mp4"] "http://site/p" startup) in
  let stopped := send_videos SimpleUrl.lib failing_channel_env
                   ["http://cdn/d/a.mp4"; "http://[/b.mp4"; "http://cdn/c.mp4"]
                   "http://site/p" startup in
  t !! 1 = Some (Add "http://cdn/d/a.mp4")
  ∧ (∃ kw o, t !! 2 = Some (Send send_video kw o) ∧ video_of kw = Some [x2a; x2b]%byte
             ∧ filename_of kw = Some "a.mp4")
  ∧ run_trace stopped !! 4 = Some (Add "http://[/b.mp4")
  ∧ run_trace stopped !! 5 = None
  ∧ run_result stopped = Raise (Exception "Invalid IPv6 URL").
Proof.
  cbn zeta. split; [reflexivity|]. split.
  - destruct (send_videos_marks_then_sends SimpleUrl.lib failing_channel_env
                ["http://cdn/d/a.mp4"; "http://cdn/b.mp4"] "http://site/p" startup
                1 "http://cdn/d/a.mp4" eq_refl) as [(content & _ & Hc & Hnext) _].
    change (video_filename SimpleUrl.lib failing_channel_env "http://cdn/d/a.mp4")
      with (Returns "a.mp4") in Hnext.
    destruct Hnext as (kw & o & Hs & Hv & Hf).
    exists kw, o. split; [exact Hs|]. split; [|exact Hf]. rewrite Hv. rewrite <- Hc. reflexivity.
  - split; [reflexivity|].
    destruct (send_videos_marks_then_sends SimpleUrl.lib failing_channel_env
                ["http://cdn/d/a.mp4"; "http://[/b.mp4"; "http://cdn/c.mp4"] "http://site/p"
                startup 4 "http://[/b.mp4" eq_refl) as [(content & _ & _ & Hnext) _].
    change (video_filename SimpleUrl.lib failing_channel_env "http://[/b.mp4")
      with (@ValueError string "Invalid IPv6 URL") in Hnext.
    exact Hnext.
Defined.

(** ** The handlers *)

Lemma job_urls_task_for mode urls : job_urls (task_for mode urls) = urls.
Proof. unfold task_for. by case_bool_decide. Qed.

Lemma message_handler_cases chat_id msg s :
  ((message_handler chat_id msg s).1 = s
   ∧ ∀ j, CreateTask j ∉ (message_handler chat_id msg s).2)
  ∨ ∃ mode urls,
      processing_tasks s !! chat_id = None
      ∧ user_modes s !! chat_id = Some mode ∧ mode ≠ "" ∧ urls ≠ []
      ∧ message_handler chat_id msg s
        = (set_task chat_id (task_for mode urls) s,
           match nonempty (message_text msg) with
           | Some _ => [CreateTask (task_for mode urls)]
           | None => [Reply ProcessingTxt; CreateTask (task_for mode urls)]
           end)
      ∧ match nonempty (message_text msg) with
        | Some text => urls = find_urls_in_text text
        | None => ∃ doc, message_document msg = Some doc ∧ mime_type doc = "text/plain"
                         ∧ urls = urls_of_lines (file_lines doc)
        end.
Proof.
  assert (∀ (l : list action), (∀ a, a ∈ l → ∃ r, a = Reply r) → ∀ j, CreateTask j ∉ l) as Hnone.
  { intros l Hl j Hj. apply Hl in Hj as [r Hr]. done. }
  assert (∀ r, ∀ a, a ∈ [Reply r] → ∃ r', a = Reply r') as H1.
  { intros r a Ha. apply list_elem_of_singleton in Ha. eauto. }
  unfold message_handler.
  destruct (processing_tasks s !! chat_id) as [j|] eqn:Htask.
  { left. split; [done|]. by apply Hnone, H1. }
  destruct (nonempty (user_modes s !! chat_id)) as [mode|] eqn:Hmode.
  2:{ left. split; [done|]. by apply Hnone, H1. }
  apply nonempty_Some in Hmode as [Hmode Hne].
  destruct (nonempty (message_text msg)) as [text|] eqn:Htext.
  - destruct (find_urls_in_text text) as [|u urls] eqn:Hurls.
    + left. split; [done|]. by apply Hnone, H1.
    + right. exists mode, (u :: urls). done.
  - destruct (message_document msg) as [doc|] eqn:Hdoc.
    2:{ left. split; [done|]. intros j Hj. by apply elem_of_nil in Hj. }
    case_bool_decide as Hmime.
    2:{ left. split; [done|]. intros j Hj. by apply elem_of_nil in Hj. }
    destruct (urls_of_lines (file_lines doc)) as [|u urls] eqn:Hurls.
    + left. cbn [fst snd]. split; [done|]. apply Hnone. intros a Ha.
      rewrite !elem_of_cons, elem_of_nil in Ha. destruct Ha as [->|[->|[]]]; eauto.
    + right. exists mode, (u :: urls). split; [done|]. split; [done|]. split; [done|].
      split; [done|]. split; [done|]. exists doc. done.
Qed.

Lemma handle_ok u s : session_ok s → session_ok (handle u s).1.
Proof.
  intros (Hflag & Hmodes & Hjobs). destruct u as [c msg|c|c data|c]; cbn [handle].
  - destruct (message_handler_cases c msg s)
      as [[-> _]|(mode & urls & Htask & Hmode & Hne & Hurls & -> & _)]; [done|].
    unfold session_ok, set_task.
    cbn [fst user_modes processing_tasks cancellation_flags]. split; [|split].
    + intros c' Hc'. destruct (decide (c' = c)) as [->|Hcc].
      * rewrite lookup_insert_eq. eauto.
      * rewrite lookup_insert_ne by done. auto.
    + done.
    + intros c' j. destruct (decide (c' = c)) as [->|Hcc].
      * rewrite lookup_insert_eq. intros [= <-]. by rewrite job_urls_task_for.
      * rewrite lookup_insert_ne by done. apply Hjobs.
  - unfold cancel_command. destruct (processing_tasks s !! c) as [j|] eqn:Htask; [|done].
    unfold session_ok, set_flag.
    cbn [fst user_modes processing_tasks cancellation_flags]. split; [|done].
    intros c'. destruct (decide (c' = c)) as [->|Hcc].
    + intros _. by rewrite Htask.
    + rewrite lookup_insert_ne by done. auto.
  - unfold button_callback.
    assert (∀ mode, mode = "video_links" ∨ mode = "media_scraper" →
                    session_ok (set_mode c mode s)) as Hset.
    { intros mode Hm. unfold session_ok, set_mode.
      cbn [user_modes processing_tasks cancellation_flags].
      split; [done|]. split; [|done]. intros c' mode'.
      destruct (decide (c' = c)) as [->|Hcc].
      - rewrite lookup_insert_eq. by intros [= <-].
      - rewrite lookup_insert_ne by done. apply Hmodes. }
    repeat case_bool_decide; cbn [fst]; auto; by repeat split.
  - unfold session_ok, job_finally.
    cbn [fst user_modes processing_tasks cancellation_flags]. split; [|split].
    + intros c'. destruct (decide (c' = c)) as [->|Hcc].
      * rewrite lookup_delete_eq. by intros [? ?].
      * rewrite !lookup_delete_ne by done. auto.
    + done.
    + intros c' j. destruct (decide (c' = c)) as [->|Hcc].
      * by rewrite lookup_delete_eq.
      * rewrite lookup_delete_ne by done. apply Hjobs.
Qed.

Lemma session_after_ok us : ∀ s, session_ok s → session_ok (session_after us s).
Proof.
  induction us as [|u us IH]; intros s Hs; [done|]. cbn. by apply IH, handle_ok.
Qed.

Lemma no_session_ok : session_ok no_session.
Proof.
  split; [|split]; cbn.
  - intros c. rewrite lookup_empty. by intros [? ?].
  - intros c mode. by rewrite lookup_empty.
  - intros c j. by rewrite lookup_empty.
Qed.

(** X15. Whatever messages, [/cancel] commands, buttons and job ends
    reach the bot, in whatever order: a cancel flag is there only for a
    chat whose job is registered, the modes are the two that the buttons
    set, and every registered job has URLs.  So when a message starts a
    job for a chat, the chat has no other job registered and no cancel
    flag is left over from an earlier one. *)
Theorem session_invariant (us : list update) :
  let s := session_after us no_session in
  session_ok s
  ∧ ∀ chat_id msg j,
      CreateTask j ∈ (message_handler chat_id msg s).2 →
      processing_tasks s !! chat_id = None
      ∧ cancellation_flags s !! chat_id = None
      ∧ (message_handler chat_id msg s).1 = set_task chat_id j s
      ∧ job_urls j ≠ [].
Proof.
  cbn zeta. pose proof (session_after_ok us no_session no_session_ok) as Hok.
  split; [done|]. intros c msg j Hj.
  destruct (message_handler_cases c msg (session_after us no_session))
    as [[_ Hnone]|(mode & urls & Htask & Hmode & Hne & Hurls & Heq & _)];
    [by apply Hnone in Hj|].
  rewrite Heq in Hj |- *. cbn [fst snd] in *.
  assert (j = task_for mode urls) as ->.
  { destruct (nonempty (message_text msg));
      rewrite ?elem_of_cons, elem_of_nil in Hj; naive_solver. }
  split; [done|]. split.
  - destruct Hok as (Hflag & _). destruct (cancellation_flags _ !! c) eqn:Hf; [|done].
    destruct (Hflag c) as [? Ht]; [eauto|]. congruence.
  - split; [done|]. by rewrite job_urls_task_for.
Qed.

(** X16. The job a message starts: it runs in the mode the chat chose,
    the link extractor for [video_links] and the media scraper for
    anything else, on the URLs found in the text when the message has
    text, and otherwise on the stripped lines of an attached text/plain
    file that start with [http]; these are fetched as they are written,
    while a [www.] URL of a text gets [https://] in front.  Stripping
    takes Python's white space off both ends of a line, the no-break
    space included: a line that reads [v] between two runs of white
    space gives the URL [v] when [v] starts with [http]. *)
Theorem message_handler_job (chat_id : Z) (msg : Message) (s : Session) (j : job) :
  CreateTask j ∈ (message_handler chat_id msg s).2 →
  ∃ mode,
    user_modes s !! chat_id = Some mode
    ∧ j = (if bool_decide (mode = "video_links") then video_links_job (job_urls j)
           else media_scraper_job (job_urls j))
    ∧ match nonempty (message_text msg) with
      | Some text =>
          job_urls j = find_urls_in_text text
          ∧ Forall (fun u => Py.startswith (with_scheme u) "http" = true) (job_urls j)
      | None =>
          ∃ doc, message_document msg = Some doc ∧ mime_type doc = "text/plain"
                 ∧ job_urls j = urls_of_lines (file_lines doc)
                 ∧ Forall (fun u => ∃ line, line ∈ file_lines doc ∧ u = Py.strip line
                                            ∧ with_scheme u = u) (job_urls j)
                 ∧ (∀ a v b, blank a → blank b → trimmed v →
                      a +:+ v +:+ b ∈ file_lines doc → Py.startswith v "http" = true →
                      v ∈ job_urls j)
      end.
Proof.
  intros Hj.
  destruct (message_handler_cases chat_id msg s)
    as [[_ Hnone]|(mode & urls & Htask & Hmode & Hne & Hurls & Heq & Hfrom)];
    [by apply Hnone in Hj|].
  rewrite Heq in Hj. cbn [snd] in Hj.
  assert (j = task_for mode urls) as ->.
  { destruct (nonempty (message_text msg));
      rewrite ?elem_of_cons, elem_of_nil in Hj; naive_solver. }
  exists mode. split; [done|]. rewrite job_urls_task_for. split; [done|].
  destruct (nonempty (message_text msg)) as [text|].
  - split; [done|]. subst urls. apply Forall_forall. intros u Hu.
    by apply found_url_with_scheme in Hu.
  - destruct Hfrom as (doc & Hdoc & Hmime & ->). exists doc.
    split; [done|]. split; [done|]. split; [done|]. split.
    + apply Forall_forall. intros u Hu. unfold urls_of_lines in Hu.
      apply list_elem_of_fmap in Hu as (line & -> & Hline).
      apply list_elem_of_filter in Hline as [Hhttp Hline].
      exists line. split; [done|]. split; [done|].
      unfold with_scheme. by rewrite Hhttp.
    + intros a v b Ha Hb Hv Hline Hhttp. unfold urls_of_lines.
      apply list_elem_of_fmap. exists (a +:+ v +:+ b).
      rewrite (strip_spec a v b Ha Hb Hv). split; [done|].
      apply list_elem_of_filter. by rewrite (strip_spec a v b Ha Hb Hv).
Qed.

Lemma message_handler_job_witness :
  (message_handler 7 one_url_message scraper_chat).2
  = [CreateTask (media_scraper_job ["www.a.b/x.jpg"])]
  ∧ ∃ mode, user_modes scraper_chat !! 7%Z = Some mode ∧ mode = "media_scraper".
Proof.
  assert ((message_handler 7 one_url_message scraper_chat).2
          = [CreateTask (media_scraper_job ["www.a.b/x.jpg"])]) as Hacts by reflexivity.
  split; [exact Hacts|].
  destruct (message_handler_job 7 one_url_message scraper_chat
              (media_scraper_job ["www.a.b/x.jpg"])) as (mode & Hmode & Hj & _).
  { rewrite Hacts. left. }
  exists mode. split; [exact Hmode|].
  assert (user_modes scraper_chat !! 7%Z = Some "media_scraper") as Hm by reflexivity.
  congruence.
Defined.

(** Lines of a file: the first starts with a no-break space and ends
    with a next-line character, the second is no URL. *)
Example lines_with_no_break_space :
  urls_of_lines [String (ascii_of_nat 160) "http://x" +:+ String (ascii_of_nat 133) "";
                 "ftp://y"; "  https://z "]
  = ["http://x"; "https://z"].
Proof. reflexivity. Qed.

(** A chat cancels its job, the job ends, and the next message starts a
    new job that finds no flag. *)
Example cancel_does_not_leak :
  let s := session_after [on_button 7 "mode_video_links";
                  on_message 7 one_url_message;
                  on_cancel 7;
                  on_job_end 7] no_session in
  cancellation_flags s !! 7%Z = None
  ∧ (message_handler 7 one_url_message s).2
    = [CreateTask (video_links_job ["www.a.b/x.jpg"])].
Proof. split; reflexivity. Qed.
